(** * Ingestion scheduler and level selector: a shallow embedding

    The development follows the TypeScript sources: [gexLevelsCalc.ts]
    (level selector, IST market clock, snapshot save), [advdecSave.ts]
    (breadth snapshot save), [option_chain.ts] (expiry choice and the
    option-chain retry wrapper), the quote service (quote retry wrapper)
    and [app.ts] (the option-chain watcher tick).  Further modules
    cover what stands around these: the timers of the minute jobs, the
    calls of the option-chain service, the watcher's configuration,
    startup and pacing, and the batches of the quote service.

    The first half of the file holds the embedding, one module per
    component; the second half holds the lemmas and theorems. *)

From Stdlib Require Import ZArith Lia Strings.String Strings.Ascii.
From Stdlib Require OrderedTypeEx.
From stdpp Require Import base numbers list sorting gmap strings.

Local Open Scope Z_scope.

(* ===================================================================== *)
(** ** JavaScript numbers, comparison and [Array.prototype.sort]        *)
(* ===================================================================== *)

Module Js.

(** A JavaScript [number].  Finite values are modelled by integers.
    Apart from the 0.5 tolerance of [getRow], the code below only compares
    numbers, tests them for equality, takes absolute values and
    differences whose sign is looked at, and does exact small-integer
    arithmetic on ranks, so for it the finite doubles may be read on any
    grid that keeps their order.  (The watcher does add and subtract:
    module [Watcher] reads its numbers as integers and rounds what it
    computes, see [Watcher.roundDouble].)
    The three non-finite values are kept because the code filters on
    [Number.isFinite]. *)
Inductive number : Set :=
  | Fin (z : Z)
  | NaN
  | PInf
  | NInf.

#[global] Instance number_eq_dec : EqDecision number.
Proof. solve_decision. Defined.

#[global] Instance number_countable : Countable number.
Proof.
  refine (inj_countable'
    (λ n, match n with
          | Fin z => inl z
          | NaN => inr 0%nat
          | PInf => inr 1%nat
          | NInf => inr 2%nat
          end)
    (λ s, match s with
          | inl z => Fin z
          | inr 0%nat => NaN
          | inr 1%nat => PInf
          | inr _ => NInf
          end) _).
  by intros [].
Defined.

(** [typeof n === "number" && Number.isFinite(n)] *)
Definition finite (n : number) : bool :=
  match n with Fin _ => true | _ => false end.

(** [a > b] *)
Definition gt (a b : number) : bool :=
  match a, b with
  | Fin x, Fin y => y <? x
  | PInf, Fin _ | PInf, NInf | Fin _, NInf => true
  | _, _ => false
  end.

(** [a < b] *)
Definition lt (a b : number) : bool := gt b a.

(** [a === b] (NaN is not equal to itself) *)
Definition strict_eq (a b : number) : bool :=
  match a, b with
  | Fin x, Fin y => x =? y
  | PInf, PInf | NInf, NInf => true
  | _, _ => false
  end.

(** [a >= b] and [a <= b] *)
Definition ge (a b : number) : bool := gt a b || strict_eq a b.
Definition le (a b : number) : bool := lt a b || strict_eq a b.

(** [a - b] *)
Definition sub (a b : number) : number :=
  match a, b with
  | Fin x, Fin y => Fin (x - y)
  | NaN, _ | _, NaN => NaN
  | PInf, PInf | NInf, NInf => NaN
  | PInf, _ | _, NInf => PInf
  | NInf, _ | _, PInf => NInf
  end.

(** [Math.abs(a)] *)
Definition abs (a : number) : number :=
  match a with
  | Fin x => Fin (Z.abs x)
  | NaN => NaN
  | PInf | NInf => PInf
  end.

(** [a || b] on numbers: the first operand unless it is falsy (0 or NaN) *)
Definition or_else (a b : number) : number :=
  match a with
  | Fin 0 | NaN => b
  | _ => a
  end.

(** Does the comparator's result ask for a swap?  [sort] treats a NaN
    result as 0. *)
Definition positive (v : number) : bool :=
  match v with
  | Fin z => 0 <? z
  | PInf => true
  | NaN | NInf => false
  end.

(** [Array.prototype.sort(cmp)], which the language requires to be
    stable: an element moves behind a later one only when the comparator
    says it is strictly greater.  [insert] places [x], which preceded
    every element of [l] in the input, into the sorted [l]. *)
Fixpoint insert {A} (cmp : A → A → number) (x : A) (l : list A) : list A :=
  match l with
  | [] => [x]
  | y :: l' => if positive (cmp x y) then y :: insert cmp x l' else x :: l
  end.

Fixpoint sort {A} (cmp : A → A → number) (l : list A) : list A :=
  match l with
  | [] => []
  | x :: l' => insert cmp x (sort cmp l')
  end.

(** The comparator does not ask for [a] to go behind [b]. *)
Definition inOrder {A} (cmp : A → A → number) (a b : A) : Prop :=
  positive (cmp a b) = false.

End Js.

(* ===================================================================== *)
(** ** Level selector ([gexLevelsCalc.ts])                               *)
(* ===================================================================== *)

Module LevelSelector.
Import Js.

Record GexRow : Set := mkRow {
  strike : number;
  gex_oi_raw : number;
  gex_vol_raw : number;
  ce_oi : number;
  pe_oi : number;
  ce_vol : number;
  pe_vol : number
}.

#[global] Instance GexRow_eq_dec : EqDecision GexRow.
Proof. solve_decision. Defined.

Inductive LevelName : Set := R1 | R2 | S1 | S2 | Flip.
Inductive Side : Set := ce | pe.

#[global] Instance LevelName_eq_dec : EqDecision LevelName.
Proof. solve_decision. Defined.
#[global] Instance Side_eq_dec : EqDecision Side.
Proof. solve_decision. Defined.

Definition OI_WEIGHT : Z := 2.
Definition VOL_WEIGHT : Z := 1.

(** The [key] argument of [rankMap]: ["gex_oi_raw" | "gex_vol_raw"] *)
Inductive RawKey : Set := key_gex_oi_raw | key_gex_vol_raw.

Definition get (key : RawKey) (r : GexRow) : number :=
  match key with
  | key_gex_oi_raw => gex_oi_raw r
  | key_gex_vol_raw => gex_vol_raw r
  end.

(** [for (let i = 0; i < sorted.length; i++) map.set(sorted[i].strike, i + 1)],
    entered at index [i] with the map built so far. *)
Fixpoint setRanks (sorted : list GexRow) (i : Z) (map : gmap number Z)
  : gmap number Z :=
  match sorted with
  | [] => map
  | r :: rest => setRanks rest (i + 1) (<[strike r := i + 1]> map)
  end.

Definition rankCmp (key : RawKey) (desc : bool) (a b : GexRow) : number :=
  if desc then sub (get key b) (get key a) else sub (get key a) (get key b).

Definition rankMap (rows : list GexRow) (key : RawKey) (desc : bool)
  : gmap number Z :=
  setRanks (sort (rankCmp key desc) rows) 0 ∅.

Definition absCmp (a b : GexRow) : number :=
  sub (abs (gex_oi_raw a)) (abs (gex_oi_raw b)).

Definition rankMapAbs (rows : list GexRow) : gmap number Z :=
  setRanks (sort absCmp rows) 0 ∅.

Record LineMark : Set := mkMark {
  mark_strike : number;
  label : LevelName;
  color : string;
  mark_side : Side
}.

Record Scored : Set := mkScored {
  sc_strike : number;
  oiR : Z;
  volR : Z;
  score : Z
}.

#[global] Instance Scored_eq_dec : EqDecision Scored.
Proof. solve_decision. Defined.

(** [valid]: the first filter of [pickLinesByRaw] *)
Definition valid (r : GexRow) : bool :=
  finite (strike r) && finite (gex_oi_raw r) && finite (gex_vol_raw r)
  && negb (strict_eq (gex_oi_raw r) (Fin 0) && strict_eq (gex_vol_raw r) (Fin 0)).

Definition isPos (r : GexRow) : bool :=
  gt (gex_oi_raw r) (Fin 0) && gt (gex_vol_raw r) (Fin 0).
Definition isNeg (r : GexRow) : bool :=
  lt (gex_oi_raw r) (Fin 0) && lt (gex_vol_raw r) (Fin 0).

Definition posRows (rows : list GexRow) : list GexRow :=
  filter (λ r, isPos r) (filter (λ r, valid r) rows).
Definition negRows (rows : list GexRow) : list GexRow :=
  filter (λ r, isNeg r) (filter (λ r, valid r) rows).

(** [(a, b) => a.score - b.score || a.oiR - b.oiR || a.volR - b.volR] *)
Definition scoredCmp (a b : Scored) : number :=
  or_else (Fin (score a - score b))
    (or_else (Fin (oiR a - oiR b)) (Fin (volR a - volR b))).

(** The body shared by the two regime blocks of [pickLinesByRaw]: build
    both rank maps over the regime's rows ([desc] is [true] for the
    positive regime, [false] for the negative one), score every row and
    sort the scored list. *)
Definition scoreOf (oiRank volRank : gmap number Z) (r : GexRow) : Scored :=
  let oiR := default 9999 (oiRank !! strike r) in
  let volR := default 9999 (volRank !! strike r) in
  mkScored (strike r) oiR volR (OI_WEIGHT * oiR + VOL_WEIGHT * volR).

Definition scoredSorted (regime : list GexRow) (desc : bool) : list Scored :=
  let oiRank := rankMap regime key_gex_oi_raw desc in
  let volRank := rankMap regime key_gex_vol_raw desc in
  sort scoredCmp (scoreOf oiRank volRank <$> regime).

(** [if (scored[0]) out.push(first); if (scored[1]) out.push(second)] *)
Definition topTwo (scored : list Scored) (l1 l2 : LevelName)
    (c1 c2 : string) (side : Side) : list LineMark :=
  match scored with
  | [] => []
  | a :: rest =>
      mkMark (sc_strike a) l1 c1 side ::
      match rest with
      | [] => []
      | b :: _ => [mkMark (sc_strike b) l2 c2 side]
      end
  end.

Record Lines : Set := mkLines { red : list LineMark; green : list LineMark }.

Definition pickLinesByRaw (rows : list GexRow) : Lines :=
  let pos := posRows rows in
  let neg := negRows rows in
  let red :=
    match pos with
    | [] => []
    | _ => topTwo (scoredSorted pos true) R1 R2 "#ef4444" "#fca5a5" ce
    end in
  let green :=
    match neg with
    | [] => []
    | _ => topTwo (scoredSorted neg false) S1 S2 "#10b981" "#86efac" pe
    end in
  mkLines red green.

Record FlipScored : Set := mkFlipScored { fs_strike : number; fs_score : Z }.

#[global] Instance FlipScored_eq_dec : EqDecision FlipScored.
Proof. solve_decision. Defined.

(** [m.get(k) || 9999]: the fallback also replaces a stored 0 *)
Definition getOr9999 (m : gmap number Z) (k : number) : Z :=
  match m !! k with
  | Some 0 | None => 9999
  | Some v => v
  end.

Definition inWindow (lo hi : number) (r : GexRow) : bool :=
  finite (strike r) && ge (strike r) lo && le (strike r) hi
  && finite (gex_oi_raw r) && finite (gex_vol_raw r).

Definition flipScoreOf (absOiRank volRank : gmap number Z) (r : GexRow)
  : FlipScored :=
  mkFlipScored (strike r)
    (getOr9999 absOiRank (strike r) + getOr9999 volRank (strike r)).

Definition flipCmp (a b : FlipScored) : number :=
  Fin (fs_score a - fs_score b).

Definition flipScored (between : list GexRow) : list FlipScored :=
  let absOiRank := rankMapAbs between in
  let volRank := rankMap between key_gex_vol_raw true in
  sort flipCmp (flipScoreOf absOiRank volRank <$> between).

(** [r1] and [s1] are [undefined] when the level is absent.  Past the
    [finite] guard both are finite, so [Math.min] and [Math.max] are the
    integer ones. *)
Definition pickZeroGammaStrike (rows : list GexRow) (r1 s1 : option number)
  : option number :=
  match r1, s1 with
  | Some (Fin a), Some (Fin b) =>
      let lo := Fin (Z.min a b) in
      let hi := Fin (Z.max a b) in
      let between := filter (λ r, inWindow lo hi r) rows in
      match between with
      | [] => None
      | _ => sc ← head (flipScored between); Some (fs_strike sc)
      end
  | _, _ => None
  end.

(** [getRow] of [computeAndSaveSnapshot]: the exact-strike row, else the
    nearest row when it lies within 0.5 of the strike. *)
Definition nearestStep (strike0 : number) (acc : number * option GexRow)
    (r : GexRow) : number * option GexRow :=
  let d := abs (sub (strike r) strike0) in
  if lt d acc.1 then (d, Some r) else acc.

Definition withinHalf (d : number) : bool :=
  match d with
  | Fin z => 2 * z <=? 1
  | _ => false
  end.

Definition getRow (rows : list GexRow) (strike0 : option number)
  : option GexRow :=
  match strike0 with
  | Some (Fin s) =>
      match List.find (λ r, strict_eq (strike r) (Fin s)) rows with
      | Some exact => Some exact
      | None =>
          let '(dmin, best) := foldl (nearestStep (Fin s)) (PInf, None) rows in
          if withinHalf dmin then best else None
      end
  | _ => None
  end.

Record Level : Set := mkLevel {
  name : LevelName;
  level_strike : number;
  level_gex_oi_raw : option number;
  level_gex_vol_raw : option number;
  side : option Side
}.

#[global] Instance Level_eq_dec : EqDecision Level.
Proof. solve_decision. Defined.

(** [pushLevel]: the levels pushed for one name (none when the strike is
    absent or not finite). *)
Definition pushLevel (rows : list GexRow) (nm : LevelName)
    (strike0 : option number) (sd : option Side) : list Level :=
  match strike0 with
  | Some (Fin s) =>
      let row := getRow rows strike0 in
      [mkLevel nm (Fin s) (gex_oi_raw <$> row) (gex_vol_raw <$> row) sd]
  | _ => []
  end.

(** [red.find((l) => l.label === "R1")?.strike ?? null] *)
Definition strikeOf (marks : list LineMark) (nm : LevelName) : option number :=
  mark_strike <$> List.find (λ l, bool_decide (label l = nm)) marks.

(** The level computation of [computeAndSaveSnapshot] (from
    "Calculate levels" to the last [pushLevel]). *)
Definition computeLevels (rows : list GexRow) : list Level :=
  let lines := pickLinesByRaw rows in
  let r1 := strikeOf (red lines) R1 in
  let r2 := strikeOf (red lines) R2 in
  let s1 := strikeOf (green lines) S1 in
  let s2 := strikeOf (green lines) S2 in
  let flip := pickZeroGammaStrike rows r1 s1 in
  pushLevel rows R1 r1 (Some ce) ++
  pushLevel rows R2 r2 (Some ce) ++
  pushLevel rows S1 s1 (Some pe) ++
  pushLevel rows S2 s2 (Some pe) ++
  pushLevel rows Flip flip None.

(** A row with only the three fields the selector reads. *)
Definition row (s oi vol : Z) : GexRow :=
  mkRow (Fin s) (Fin oi) (Fin vol) (Fin 0) (Fin 0) (Fin 0) (Fin 0).

(** *** The selection as the specification words it

    Rows of a regime are ranked by value, each exposure on its own; a
    row's rank is its place in that order, counted from 1; its score is
    twice the open-interest rank plus the volume rank; the scored rows
    are sorted by score, then open-interest rank, then volume rank, and
    the first two give the regime's two levels. *)



(** The regime's rows from best to worst on one exposure. *)
Definition rankedBy (key : RawKey) (desc : bool) (regime : list GexRow)
  : list GexRow :=
  sort (rankCmp key desc) regime.

(** The place of [r] in [order], counted from 1. *)
Fixpoint placeIn (order : list GexRow) (r : GexRow) : Z :=
  match order with
  | [] => 0
  | x :: rest => if decide (x = r) then 1 else 1 + placeIn rest r
  end.




(** Lexicographic order on (score, open-interest rank, volume rank). *)
Definition scoredLe (a b : Scored) : Prop :=
  score a < score b ∨
  (score a = score b ∧
   (oiR a < oiR b ∨ (oiR a = oiR b ∧ volR a ≤ volR b))).


(** A row's value on one exposure, for rows whose value is finite, and
    the comparator of [rankMap] read on those values. *)
Definition valueOf (key : RawKey) (r : GexRow) : Z :=
  match get key r with
  | Fin z => z
  | _ => 0
  end.

Definition valueCmp (key : RawKey) (desc : bool) (a b : GexRow) : number :=
  Fin (if desc then valueOf key b - valueOf key a
       else valueOf key a - valueOf key b).

(** The comparator of [rankMapAbs] read on finite values. *)
Definition absValueCmp (a b : GexRow) : number :=
  Fin (Z.abs (valueOf key_gex_oi_raw a) - Z.abs (valueOf key_gex_oi_raw b)).

(** *** Inputs without ties *)

(** No two rows share a strike, and within a regime no two rows share an
    open-interest exposure or a volume exposure. *)
Definition tieFree (rows : list GexRow) : Prop :=
  NoDup (strike <$> rows) ∧
  NoDup (gex_oi_raw <$> posRows rows) ∧ NoDup (gex_vol_raw <$> posRows rows) ∧
  NoDup (gex_oi_raw <$> negRows rows) ∧ NoDup (gex_vol_raw <$> negRows rows).

(** The rows between R1 and S1 that the flip selection scores. *)
Definition flipWindow (rows : list GexRow) : list GexRow :=
  let lines := pickLinesByRaw rows in
  match strikeOf (red lines) R1, strikeOf (green lines) S1 with
  | Some (Fin a), Some (Fin b) =>
      filter (λ r, inWindow (Fin (Z.min a b)) (Fin (Z.max a b)) r) rows
  | _, _ => []
  end.

(** No two rows of the flip window share an absolute open-interest
    exposure, a volume exposure, or a flip score. *)
Definition flipTieFree (rows : list GexRow) : Prop :=
  let w := flipWindow rows in
  NoDup ((λ r, abs (gex_oi_raw r)) <$> w) ∧
  NoDup (gex_vol_raw <$> w) ∧
  NoDup (fs_score <$>
           (flipScoreOf (rankMapAbs w) (rankMap w key_gex_vol_raw true) <$> w)).

(** The levels other than Flip. *)
Definition withoutFlip (levels : list Level) : list Level :=
  filter (λ lv, name lv ≠ Flip) levels.

(** The scenario of the specification. *)
Definition scenarioRows : list GexRow :=
  [row 2000 100 50; row 2100 80 60; row 1900 (-120) (-40); row 1800 (-50) (-90)].

End LevelSelector.

(* ===================================================================== *)
(** ** Results of calls that may throw                                   *)
(* ===================================================================== *)

(** What an awaited call gives back: a value, or a thrown error. *)
Inductive outcome (E A : Type) : Type :=
  | Returned (a : A)
  | Thrown (e : E).
Arguments Returned {E A} a.
Arguments Thrown {E A} e.

(* ===================================================================== *)
(** ** Snapshot save ([gexLevelsCalc.ts], [advdecSave.ts])               *)
(* ===================================================================== *)

Module SnapshotStore.

(** The error object a failed driver call throws; [code] is [e?.code]. *)
Record StoreError : Set := mkStoreError {
  code : option Z;
  message : string
}.

Definition DUPLICATE_KEY : Z := 11000.

Definition duplicateKeyError : StoreError :=
  mkStoreError (Some DUPLICATE_KEY) "E11000 duplicate key error".

Section Collection.
Context {Doc Key : Type} `{EqDecision Key}.
(** The fields of the collection's unique index. *)
Variable indexKey : Doc → Key.

(** Modelled from the spec: the document store's [insertOne] on a
    collection with a unique index (the driver is an external
    collaborator).  [fault] is a failure of the call that the store
    reports on its own (connection loss, write concern, ...); with no
    fault the insert is rejected with the duplicate-key error when a
    stored document has the same index key, and appended otherwise. *)
Definition insertOne (fault : option StoreError) (coll : list Doc) (doc : Doc)
  : list Doc * outcome StoreError unit :=
  match fault with
  | Some e => (coll, Thrown e)
  | None =>
      if bool_decide (indexKey doc ∈ indexKey <$> coll)
      then (coll, Thrown duplicateKeyError)
      else (coll ++ [doc], Returned ())
  end.

(** [e?.code !== 11000] *)
Definition notDuplicate (e : StoreError) : bool :=
  negb (bool_decide (code e = Some DUPLICATE_KEY)).

Record GexSaveResult : Type := mkGexSave { saved : bool; doc_of : Doc }.

(** The tail of [computeAndSaveSnapshot]:
    [let saved = false; try { await coll.insertOne(doc); saved = true }
     catch (e) { if (e?.code !== 11000) throw e }  return { saved, doc }] *)
Definition saveGexDoc (fault : option StoreError) (coll : list Doc) (doc : Doc)
  : list Doc * outcome StoreError GexSaveResult :=
  match insertOne fault coll doc with
  | (coll', Returned _) => (coll', Returned (mkGexSave true doc))
  | (coll', Thrown e) =>
      if notDuplicate e then (coll', Thrown e)
      else (coll', Returned (mkGexSave false doc))
  end.

Record AdvDecSaveResult : Set := mkAdvSave { adv_saved : bool; duplicate : bool }.

(** The tail of [saveAdvDecSnapshot]:
    [try { await coll.insertOne(doc); return { saved: true, ... } }
     catch (e) { if (e?.code === 11000) return { saved: false, duplicate: true };
                 throw e }] *)
Definition saveAdvDecDoc (fault : option StoreError) (coll : list Doc) (doc : Doc)
  : list Doc * outcome StoreError AdvDecSaveResult :=
  match insertOne fault coll doc with
  | (coll', Returned _) => (coll', Returned (mkAdvSave true false))
  | (coll', Thrown e) =>
      if bool_decide (code e = Some DUPLICATE_KEY)
      then (coll', Returned (mkAdvSave false true))
      else (coll', Thrown e)
  end.

(** A run of save calls, each with the fault the store shows it. *)
Definition saveAllGex (calls : list (option StoreError * Doc)) (coll : list Doc)
  : list Doc :=
  foldl (λ c call, (saveGexDoc call.1 c call.2).1) coll calls.
Definition saveAllAdvDec (calls : list (option StoreError * Doc)) (coll : list Doc)
  : list Doc :=
  foldl (λ c call, (saveAdvDecDoc call.1 c call.2).1) coll calls.
End Collection.

(** The two documents, with the fields their unique indexes name. *)
Record GexDoc : Set := mkGexDoc {
  gex_symbol : string;
  gex_expiry : string;
  gex_trading_day_ist : option string;
  gex_levels : list LevelSelector.Level;
  gex_minute_bucket : Z;
  gex_client_key : string
}.

(** [{ symbol: 1, expiry: 1, trading_day_ist: 1, minute_bucket: 1 }] *)
Definition gexIndexKey (d : GexDoc) : string * string * option string * Z :=
  (gex_symbol d, gex_expiry d, gex_trading_day_ist d, gex_minute_bucket d).

Record AdvDecDoc : Set := mkAdvDecDoc {
  adv_symbol : string;
  adv_bin : Z;
  adv_sinceMin : Z;
  adv_expiry : option string;
  adv_trading_day_ist : string;
  adv_minute_bucket : Z;
  adv_client_key : string
}.

(** [{ symbol: 1, trading_day_ist: 1, bin: 1, minute_bucket: 1 }] *)
Definition advIndexKey (d : AdvDecDoc) : string * string * Z * Z :=
  (adv_symbol d, adv_trading_day_ist d, adv_bin d, adv_minute_bucket d).

End SnapshotStore.

(* ===================================================================== *)
(** ** Retry wrappers ([option_chain.ts], quote service)                 *)
(* ===================================================================== *)

Module Retry.

(** A rejected upstream call; [status] is [e?.response?.status], absent
    for errors that carry no HTTP response. *)
Record HttpError : Set := mkHttpError {
  status : option Z;
  detail : string
}.

#[global] Instance HttpError_eq_dec : EqDecision HttpError.
Proof. solve_decision. Defined.

(** What a wrapper does besides returning: the calls it issues through
    its pacing bucket, numbered from 0, and the sleeps between them. *)
Inductive Event : Set :=
  | Call (attempt : nat)
  | Sleep (ms : Z).

#[global] Instance Event_eq_dec : EqDecision Event.
Proof. solve_decision. Defined.

(** [s === 401] *)
Definition is401 (s : option Z) : bool := bool_decide (s = Some 401).

(** [s === 429 || (s >= 500 && s < 600)] *)
Definition retryable (s : option Z) : bool :=
  match s with
  | Some v => (v =? 429) || ((500 <=? v) && (v <? 600))
  | None => false
  end.

(** [1 << i]: a 32-bit shift, the count taken modulo 32 and the result
    read as a signed 32-bit integer. *)
Definition shl1 (i : nat) : Z :=
  let v := Z.shiftl 1 (Z.of_nat i mod 32) in
  if v <? 2 ^ 31 then v else v - 2 ^ 32.

(** [Math.min(15000, 1000 * (1 << i))] *)
Definition ocWait (i : nat) : Z := Z.min 15000 (1000 * shl1 i).

(** [Math.min(8000, 1000 * (i + 1))] *)
Definition quoteWait (i : nat) : Z := Z.min 8000 (1000 * (Z.of_nat i + 1)).

Section Loops.
Context {T : Type}.
(** [fn k] is what the [k]-th invocation of the wrapped call yields. *)
Variable fn : nat → outcome HttpError T.

(** The [for] loop of [ocRetry], entered at index [i] with [remaining]
    iterations to go; the value thrown after the loop is [lastErr],
    which is [undefined] ([None]) when no attempt was made. *)
Fixpoint ocLoop (remaining i : nat) (lastErr : option HttpError)
  : list Event * outcome (option HttpError) T :=
  match remaining with
  | O => ([], Thrown lastErr)
  | S n =>
      match fn i with
      | Returned v => ([Call i], Returned v)
      | Thrown e =>
          if is401 (status e) then ([Call i], Thrown (Some e))
          else if retryable (status e) then
            let '(tr, out) := ocLoop n (S i) (Some e) in
            (Call i :: Sleep (ocWait i) :: tr, out)
          else ([Call i], Thrown (Some e))
      end
  end.

Definition ocRetry (tries : nat) : list Event * outcome (option HttpError) T :=
  ocLoop tries 0 None.

Fixpoint quoteLoop (remaining i : nat) (lastErr : option HttpError)
  : list Event * outcome (option HttpError) T :=
  match remaining with
  | O => ([], Thrown lastErr)
  | S n =>
      match fn i with
      | Returned v => ([Call i], Returned v)
      | Thrown e =>
          if retryable (status e) then
            let '(tr, out) := quoteLoop n (S i) (Some e) in
            (Call i :: Sleep (quoteWait i) :: tr, out)
          else ([Call i], Thrown (Some e))
      end
  end.

Definition quoteRetry (tries : nat) : list Event * outcome (option HttpError) T :=
  quoteLoop tries 0 None.
End Loops.

(** The attempts a trace issued. *)
Definition calls (tr : list Event) : list nat :=
  omap (λ ev, match ev with Call k => Some k | Sleep _ => None end) tr.

(** The sleeps of a trace. *)
Definition sleeps (tr : list Event) : list Z :=
  omap (λ ev, match ev with Sleep ms => Some ms | Call _ => None end) tr.

(** Attempt [k] was answered with a 429 or a 5xx. *)
Definition failsRetryably {T} (fn : nat → outcome HttpError T) (k : nat) : Prop :=
  ∃ e, fn k = Thrown e ∧ retryable (status e) = true.

(** [k] failed attempts from index [i] on, each followed by its wait. *)
Definition backoffFrom (wait : nat → Z) (i k : nat) : list Event :=
  flat_map (λ j, [Call j; Sleep (wait j)]) (seq i k).
Definition backoffTrace (wait : nat → Z) (k : nat) : list Event :=
  backoffFrom wait 0 k.

(** The error an outcome carries, if any. *)
Definition errorOf {T} (o : outcome HttpError T) : option HttpError :=
  match o with
  | Thrown e => Some e
  | Returned _ => None
  end.

End Retry.

(* ===================================================================== *)
(** ** Market clock ([gexLevelsCalc.ts], [advdecSave.ts], [app.ts])      *)
(* ===================================================================== *)

Module MarketClock.

(** The platform's calendar: the weekday and time of day that an instant
    (milliseconds since the epoch) has at a fixed offset from UTC, given
    in minutes.  Day 0 of the epoch was a Thursday; weekdays are numbered
    as [Date.prototype.getDay] does, 0 for Sunday. *)
Record Civil : Set := mkCivil {
  day : Z;
  hours : Z;
  minutes : Z;
  seconds : Z
}.

Definition civil (offsetMin epochMs : Z) : Civil :=
  let secs := (epochMs + offsetMin * 60000) / 1000 in
  let sod := secs mod 86400 in
  mkCivil ((secs / 86400 + 4) mod 7) (sod / 3600) (sod mod 3600 / 60) (sod mod 60).

(** Asia/Kolkata is UTC+05:30 all year. *)
Definition IST_OFFSET_MIN : Z := 330.

(** [weekday: "short"] of the en-GB formatter *)
Definition weekdayShort (d : Z) : string :=
  if d =? 0 then "Sun" else if d =? 1 then "Mon" else if d =? 2 then "Tue"
  else if d =? 3 then "Wed" else if d =? 4 then "Thu" else if d =? 5 then "Fri"
  else "Sat".

Record IstParts : Set := mkIstParts {
  weekday : string;
  hour : Z;
  minute : Z;
  second : Z
}.

(** [getIstParts]: the formatter is pinned to [timeZone: "Asia/Kolkata"]. *)
Definition getIstParts (d : Z) : IstParts :=
  let c := civil IST_OFFSET_MIN d in
  mkIstParts (weekdayShort (day c)) (hours c) (minutes c) (seconds c).

Definition MARKET_START_MIN : Z := 9 * 60 + 15.
Definition MARKET_END_MIN : Z := 15 * 60 + 30.

(** [isMarketOpenIst] of [gexLevelsCalc.ts] and [advdecSave.ts] *)
Definition isMarketOpenIst (d : Z) : bool :=
  let p := getIstParts d in
  let mins := hour p * 60 + minute p in
  let isWeekday :=
    negb (String.eqb (weekday p) "Sat") && negb (String.eqb (weekday p) "Sun") in
  isWeekday && (MARKET_START_MIN <=? mins) && (mins <=? MARKET_END_MIN).

(** [isMarketOpen] of [app.ts] (and of the quote service): [getISTDate()]
    returns [new Date()], and [getDay], [getHours] and [getMinutes] read
    it in the host's timezone, whose offset is [hostOffsetMin]. *)
Definition isMarketOpen (hostOffsetMin : Z) (now : Z) : bool :=
  let c := civil hostOffsetMin now in
  if (day c =? 0) || (day c =? 6) then false
  else
    let totalMinutes := hours c * 60 + minutes c in
    (9 * 60 + 15 <=? totalMinutes) && (totalMinutes <=? 15 * 60 + 30).

End MarketClock.

(* ===================================================================== *)
(** ** Option-chain watcher tick ([app.ts], [startOptionChainWatcher])   *)
(* ===================================================================== *)

Module PollLoop.

(** The closure variables of [startOptionChainWatcher] that [tickOnce]
    reads and writes. *)
Record Feed : Set := mkFeed {
  stopped : bool;
  inFlight : bool;
  backoffSteps : Z;
  expiry : option string;
  lastExpiryResolveDayKey : string;
  lastClosedLog : Z
}.

#[global] Instance Feed_eq_dec : EqDecision Feed.
Proof. solve_decision. Defined.

(** An error reaching a [catch]; [response_status] is
    [e?.response?.status]. *)
Record TickError : Set := mkTickError {
  response_status : option Z;
  what : string
}.

(** What a tick does to the outside world, in order. *)
Inductive Effect : Set :=
  | ResolveExpiry
  | FetchOptionChain (expiry : string)
  | UpsertSnapshot (expiry : string)
  | InsertTick (expiry : string)
  | Log (line : string).

#[global] Instance Effect_eq_dec : EqDecision Effect.
Proof. solve_decision. Defined.

(** What the outside world answers during one tick. *)
Record World : Set := mkWorld {
  marketOpen : bool;                                (* isMarketOpen() *)
  now : Z;                                          (* Date.now() *)
  dayKey : string;                                  (* dayKey() *)
  resolveExpiryResult : outcome TickError (option string);
  fetchResult : outcome TickError Z;                (* data.last_price *)
  normalizeResult : outcome TickError ();           (* toNormalizedArray *)
  upsertResult : outcome TickError ();
  insertResult : outcome TickError ();
  verboseResult : outcome TickError ()              (* the PCR log block *)
}.

Record Config : Set := mkConfig {
  MARKET_HOURS_ONLY : bool;
  verbose : bool
}.

Definition MAX_BACKOFF_STEPS : Z := 12.

(** Computations over the feed state that log their effects and may
    throw. *)
Definition M (A : Type) : Type :=
  Feed → Feed * list Effect * outcome TickError A.

#[global] Instance M_ret : MRet M := λ A a st, (st, [], Returned a).

#[global] Instance M_bind : MBind M := λ A B k m st,
  match m st with
  | (st1, tr1, Returned a) =>
      let '(st2, tr2, out) := k a st1 in (st2, tr1 ++ tr2, out)
  | (st1, tr1, Thrown e) => (st1, tr1, Thrown e)
  end.

Definition ret {A} (a : A) : M A := mret a.

(** [try { m } catch (e) { h e }] *)
Definition tryCatch {A} (m : M A) (h : TickError → M A) : M A :=
  λ st,
    match m st with
    | (st1, tr1, Thrown e) =>
        let '(st2, tr2, out) := h e st1 in (st2, tr1 ++ tr2, out)
    | done => done
    end.

(** [try { m } finally { f }] where [f] does not throw *)
Definition tryFinally {A} (m : M A) (f : M ()) : M A :=
  λ st,
    let '(st1, tr1, out) := m st in
    let '(st2, tr2, _) := f st1 in
    (st2, tr1 ++ tr2, out).

Definition read : M Feed := λ st, (st, [], Returned st).
Definition write (f : Feed → Feed) : M () := λ st, (f st, [], Returned ()).
Definition emit (ev : Effect) : M () := λ st, (st, [ev], Returned ()).
Definition await {A} (ev : Effect) (answer : outcome TickError A) : M A :=
  λ st, (st, [ev], answer).
Definition throw {A} (e : TickError) : M A := λ st, (st, [], Thrown e).
(** A step inside the process that may throw but calls nothing outside. *)
Definition local {A} (answer : outcome TickError A) : M A :=
  λ st, (st, [], answer).

Definition setInFlight (b : bool) : M () :=
  write (λ st, mkFeed (stopped st) b (backoffSteps st) (expiry st)
                 (lastExpiryResolveDayKey st) (lastClosedLog st)).
Definition setBackoffSteps (n : Z) : M () :=
  write (λ st, mkFeed (stopped st) (inFlight st) n (expiry st)
                 (lastExpiryResolveDayKey st) (lastClosedLog st)).
Definition setExpiry (e : option string) : M () :=
  write (λ st, mkFeed (stopped st) (inFlight st) (backoffSteps st) e
                 (lastExpiryResolveDayKey st) (lastClosedLog st)).
Definition setLastExpiryResolveDayKey (dk : string) : M () :=
  write (λ st, mkFeed (stopped st) (inFlight st) (backoffSteps st) (expiry st)
                 dk (lastClosedLog st)).
Definition setLastClosedLog (t : Z) : M () :=
  write (λ st, mkFeed (stopped st) (inFlight st) (backoffSteps st) (expiry st)
                 (lastExpiryResolveDayKey st) t).

(** [status === 429 || (status >= 500 && status < 600)] *)
Definition isTransient (status : option Z) : bool :=
  match status with
  | Some v => (v =? 429) || ((500 <=? v) && (v <? 600))
  | None => false
  end.

(** A string is truthy unless it is empty; [null] is falsy. *)
Definition truthy (s : option string) : bool :=
  match s with
  | Some s' => negb (String.eqb s' "")
  | None => false
  end.

Section Tick.
Variable cfg : Config.
Variable w : World.

(** The re-anchoring block: [if (dk !== lastExpiryResolveDayKey) ...] *)
Definition reanchor : M () :=
  st ← read;
  if bool_decide (dayKey w = lastExpiryResolveDayKey st) then ret ()
  else
    tryCatch
      (newExp ← await ResolveExpiry (resolveExpiryResult w);
       if truthy newExp && negb (bool_decide (newExp = expiry st))
       then emit (Log "[OC] New day detected");; setExpiry newExp
       else ret ())
      (λ _, ret ());;
    setLastExpiryResolveDayKey (dayKey w).

(** The two store writes; each logs and rethrows on failure. *)
Definition persist (ex : string) : M () :=
  tryCatch
    (await (UpsertSnapshot ex) (upsertResult w);;
     emit (Log "[OC] option_chain upsert result"))
    (λ err, emit (Log "[OC] option_chain upsert ERROR");; throw err);;
  tryCatch
    (await (InsertTick ex) (insertResult w);;
     emit (Log "[OC] option_chain_ticks insertId"))
    (λ err, emit (Log "[OC] option_chain_ticks insert ERROR");; throw err).

(** The body of the outer [try]. *)
Definition tickBody : M () :=
  reanchor;;
  st ← read;
  if negb (truthy (expiry st)) then ret ()
  else
    let ex := default "" (expiry st) in
    _ ← await (FetchOptionChain ex) (fetchResult w);
    local (normalizeResult w);;
    persist ex;;
    st ← read;
    (if 0 <? backoffSteps st
     then setBackoffSteps (Z.max 0 (backoffSteps st - 1))
     else ret ());;
    if verbose cfg
    then local (verboseResult w);; emit (Log "[OC] LTP ATM PCR")
    else ret ().

(** The outer [catch]. *)
Definition onTickError (e : TickError) : M () :=
  emit (Log "[OC] Tick error");;
  if isTransient (response_status e)
  then
    st ← read;
    setBackoffSteps (Z.min MAX_BACKOFF_STEPS (backoffSteps st + 1));;
    emit (Log "[OC] Backing off")
  else ret ().

Definition tickOnce : M () :=
  st ← read;
  if stopped st || inFlight st then ret ()
  else if MARKET_HOURS_ONLY cfg && negb (marketOpen w) then
    if 60000 <? now w - lastClosedLog st
    then emit (Log "Market closed. Skipping Option chain.");;
         setLastClosedLog (now w)
    else ret ()
  else
    setInFlight true;;
    tryFinally (tryCatch tickBody onTickError) (setInFlight false).
End Tick.

(** The feed state after a tick. *)
Definition after (cfg : Config) (w : World) (st : Feed) : Feed :=
  (tickOnce cfg w st).1.1.

(** A run of ticks, one world per tick. *)
Definition run (cfg : Config) (ws : list World) (st : Feed) : Feed :=
  foldl (λ s w, after cfg w s) st ws.

(** The tick gets past its two guards. *)
Definition proceeds (cfg : Config) (w : World) (st : Feed) : Prop :=
  stopped st = false ∧ inFlight st = false ∧
  (MARKET_HOURS_ONLY cfg = false ∨ marketOpen w = true).

(** Nothing fails between the fetch and the end of the tick. *)
Definition succeeds (cfg : Config) (w : World) : Prop :=
  (∃ price, fetchResult w = Returned price) ∧
  normalizeResult w = Returned () ∧
  upsertResult w = Returned () ∧
  insertResult w = Returned () ∧
  (verbose cfg = true → verboseResult w = Returned ()).

(** The guarded section of [tickOnce]: [try { ... } catch { ... }
    finally { inFlight = false }]. *)
Definition guarded (cfg : Config) (w : World) : M () :=
  tryFinally (tryCatch (tickBody cfg w) onTickError) (setInFlight false).

(** Worlds for the backoff scenario: the market is open, the day has not
    changed, and the fetch is answered with a 503, or everything works. *)
Definition answers503 (day : string) : World :=
  mkWorld true 0 day (Returned None)
    (Thrown (mkTickError (Some 503) "Service Unavailable"))
    (Returned ()) (Returned ()) (Returned ()) (Returned ()).
Definition answersOk (day : string) : World :=
  mkWorld true 0 day (Returned None) (Returned 24500)
    (Returned ()) (Returned ()) (Returned ()) (Returned ()).

End PollLoop.

(* ===================================================================== *)
(** ** Pacing gate ([dhanPacer], imported by the two retry wrappers)     *)
(* ===================================================================== *)

Module PacingGate.

(** Modelled from the spec: a task handed to the gate's [schedule], with
    its sub-queue and the time at which it reaches the admission point
    (the gate's module, [dhanPacer], is not among the sources). *)
Record Task : Set := mkTask {
  queueId : nat;
  readyAt : Z
}.

(** Modelled from the spec: the gate's state, "a single next allowed
    dispatch time watermark" and each sub-queue's own next allowed time. *)
Record Gate : Set := mkGate {
  watermark : Z;                 (* next allowed dispatch time *)
  clock : Z;                     (* time of the last admission *)
  queueNext : gmap nat Z         (* per sub-queue: its next allowed time *)
}.

Section Gate.
Variable globalMinGapMs : Z.
(** The sub-queues' own minimum spacings. *)
Variable queueGapMs : nat → Z.

(** Modelled from the spec: the pacing gate's admission step, whose
    module ([dhanPacer]) is not among the sources.  The spec gives it as
    "maintain a single next allowed dispatch time watermark; when a task
    is ready to dispatch, wait until now >= watermark, dispatch, then
    set watermark = now + globalMinGapMs", every queue's tasks passing
    through this one admission point in arrival order, each sub-queue
    with its own minimum spacing on top.  [dispatchOne] returns the new gate
    and the task's dispatch start time. *)
Definition dispatchOne (g : Gate) (t : Task) : Gate * Z :=
  let arrived := Z.max (clock g) (readyAt t) in
  let ownNext := default arrived (queueNext g !! queueId t) in
  let start := Z.max (Z.max arrived (watermark g)) ownNext in
  (mkGate (start + globalMinGapMs) start
     (<[queueId t := start + queueGapMs (queueId t)]> (queueNext g)),
   start).

(** Modelled from the spec: the gate serving a sequence of submitted
    tasks; the answer lists every dispatch with its start time. *)
Fixpoint dispatchAll (g : Gate) (ts : list Task) : list (Task * Z) :=
  match ts with
  | [] => []
  | t :: rest =>
      let '(g', start) := dispatchOne g t in
      (t, start) :: dispatchAll g' rest
  end.
End Gate.

Definition idle (t0 : Z) : Gate := mkGate t0 t0 ∅.

End PacingGate.

(* ===================================================================== *)
(** ** Nearest expiry ([option_chain.ts])                                *)
(* ===================================================================== *)

Module Expiry.
Import Js.

(** The default comparator of [Array.prototype.sort()] on strings:
    code-unit order. *)
Definition defaultCmp (a b : string) : number :=
  match String.compare a b with
  | Lt => Fin (-1)
  | Eq => Fin 0
  | Gt => Fin 1
  end.

(** Code-unit order on strings: [a <= b]. *)
Definition lex_le (a b : string) : Prop := String.compare a b ≠ Gt.

(** [e >= today] on strings *)
Definition str_ge (e today : string) : bool :=
  match String.compare e today with
  | Lt => false
  | _ => true
  end.

(** [pickNearestExpiry]; [today] is [istToday()], and an absent list
    ([undefined] or [null]) is [None]. *)
Definition pickNearestExpiry (today : string) (expiries : option (list string))
  : option string :=
  match expiries with
  | None | Some [] => None
  | Some l =>
      let sorted := sort defaultCmp l in
      match List.find (λ e, str_ge e today) sorted with
      | Some e => Some e
      | None => last sorted
      end
  end.

End Expiry.

(* ===================================================================== *)
(** ** Minute jobs ([gexLevelsCalc.ts], [advdecSave.ts])                 *)
(* ===================================================================== *)

Module MinuteJob.

Definition ONE_MIN_MS : Z := 60000.

(** [Math.floor(now / 60000)] *)
Definition minuteBucket (now : Z) : Z := now / 60000.

(** [ONE_MIN_MS - (d.getTime() % ONE_MIN_MS)]; [%] takes the sign of the
    dividend. *)
Definition msUntilNextMinute (d : Z) : Z := ONE_MIN_MS - Z.rem d ONE_MIN_MS.

(** The instants at which the timers of a minute job fire.  The job
    reads the clock at [start] and arms
    [setTimeout(() => { tick(); setInterval(tick, ONE_MIN_MS) }, initialDelay)]
    with [initialDelay = msUntilNextMinute()].  A timer fires at its due
    instant or later; [late k] is how much later the [k]-th firing
    happens ([late 0] includes the time between reading the clock and
    arming the timeout).  Firing 0 is due [initialDelay] after [start].
    The interval is armed inside that firing, so every later firing is
    due [ONE_MIN_MS] after the instant the one before it actually
    happened, not after the instant it was due. *)
Fixpoint firing (start : Z) (late : nat → Z) (k : nat) : Z :=
  match k with
  | O => start + msUntilNextMinute start + late O
  | S j => firing start late j + ONE_MIN_MS + late (S j)
  end.

(** The lateness accumulated up to the [k]-th firing. *)
Fixpoint lateness (late : nat → Z) (k : nat) : Z :=
  match k with
  | O => late O
  | S j => lateness late j + late (S j)
  end.

(** What a tick of a minute job does to the outside. *)
Inductive Effect : Set :=
  | ComputeAndSave               (* computeAndSaveSnapshot(db, "NIFTY") *)
  | SaveAdvDec                   (* saveAdvDecSnapshot(db, ...) *)
  | LogError.

#[global] Instance Effect_eq_dec : EqDecision Effect.
Proof. solve_decision. Defined.

(** The [tick] of [startGexLevelsEveryMinute]:
    [if (running) return; running = true;
     try { if (isMarketOpenIst()) await computeAndSaveSnapshot(db, "NIFTY") }
     catch (e) { console.error(...) } finally { running = false }].
    [now] is the instant the tick reads the clock at, [answer] what
    [computeAndSaveSnapshot] yields, and the state the [running] flag. *)
Definition gexTick {E} (now : Z) (answer : outcome E ()) (running : bool)
  : bool * list Effect :=
  if running then (running, [])
  else
    if MarketClock.isMarketOpenIst now then
      match answer with
      | Returned _ => (false, [ComputeAndSave])
      | Thrown _ => (false, [ComputeAndSave; LogError])
      end
    else (false, []).

(** The [tick] of [startAdvDecMinuteJob]:
    [if (isMarketOpenIst()) void saveAdvDecSnapshot(...).catch(log)]. *)
Definition advTick {E} (now : Z) (answer : outcome E ()) : list Effect :=
  if MarketClock.isMarketOpenIst now then
    match answer with
    | Returned _ => [SaveAdvDec]
    | Thrown _ => [SaveAdvDec; LogError]
    end
  else [].

End MinuteJob.

(* ===================================================================== *)
(** ** Order on finite numbers                                           *)
(* ===================================================================== *)

Module JsOrder.
Import Js.

(** The value of a finite number. *)
Definition value (n : number) : Z :=
  match n with
  | Fin z => z
  | _ => 0
  end.

(** [a <= b] between finite numbers. *)
Definition le_fin (a b : number) : Prop :=
  match a, b with
  | Fin x, Fin y => x ≤ y
  | _, _ => False
  end.

(** [(a, b) => key(a) - key(b)] read on finite keys. *)
Definition keyCmp {A} (key : A → number) (a b : A) : number :=
  Fin (value (key a) - value (key b)).

End JsOrder.

(* ===================================================================== *)
(** ** Time spent in the retry wrappers                                  *)
(* ===================================================================== *)

Module RetryBudget.

(** The milliseconds a wrapper run spends sleeping. *)
Definition totalSleep (tr : list Retry.Event) : Z :=
  foldr Z.add 0 (Retry.sleeps tr).

(** The waits after attempts [i], ..., [i + n - 1], added up. *)
Definition sumWaits (wait : nat → Z) (i n : nat) : Z :=
  foldr Z.add 0 (wait <$> seq i n).

End RetryBudget.

(* ===================================================================== *)
(** ** Option-chain service ([option_chain.ts])                          *)
(* ===================================================================== *)

Module OptionChain.
Import Js.

(** What a service call throws: the [Error] of [requireEnv], or whatever
    [ocRetry] threw. *)
Inductive ServiceError : Set :=
  | MissingEnv
  | Upstream (e : option Retry.HttpError).

Inductive Endpoint : Set :=
  | ExpiryList                     (* POST /v2/optionchain/expirylist *)
  | Chain (expiry : string).       (* POST /v2/optionchain *)

(** What a service call does besides returning. *)
Inductive Event : Set :=
  | Call (ep : Endpoint) (attempt : nat)
  | Sleep (ms : Z)
  | Log (line : string).

#[global] Instance Endpoint_eq_dec : EqDecision Endpoint.
Proof. solve_decision. Defined.
#[global] Instance Event_eq_dec : EqDecision Event.
Proof. solve_decision. Defined.

(** The events of a retry wrapper run against one endpoint. *)
Definition through (ep : Endpoint) (ev : Retry.Event) : Event :=
  match ev with
  | Retry.Call k => Call ep k
  | Retry.Sleep ms => Sleep ms
  end.

Definition isCall (ev : Event) : bool :=
  match ev with Call _ _ => true | _ => false end.
Definition isChainCall (ev : Event) : bool :=
  match ev with Call (Chain _) _ => true | _ => false end.

(** [a || b] on an environment variable or optional argument: [a]
    unless it is absent or empty. *)
Definition orStr (a : option string) (b : string) : string :=
  match a with
  | Some s => if String.eqb s "" then b else s
  | None => b
  end.

Section Service.
(** The legs of a strike ([DhanStrikeOC]). *)
Context {Leg : Type}.

Record ChainData : Type := mkChain {
  last_price : number;
  oc : list (string * Leg)             (* [Object.entries(oc)], in order *)
}.

(** [{ last_price: 0, oc: {} }] *)
Definition emptyChain : ChainData := mkChain (Fin 0) [].

Record LiveChain : Type := mkLive {
  live_expiry : option string;
  live_data : ChainData
}.

(** Both [DHAN_API_KEY] and [DHAN_CLIENT_ID] are set and not blank. *)
Variable credentials : bool.
(** [istToday()] *)
Variable today : string.
(** [String.prototype.trim] *)
Variable trim : string → string.
Variable OC_EXPIRY : option string.
Variable FUTSTK_REFRESH_EXPIRY : option string.

Definition requireEnv : outcome ServiceError () :=
  if credentials then Returned () else Thrown MissingEnv.

(** [fetchExpiryList]; [fn k] is what the [k]-th POST yields, [Some l]
    when [res.data?.data] is an array and [None] otherwise. *)
Definition fetchExpiryList (fn : nat → outcome Retry.HttpError (option (list string)))
  : list Event * outcome ServiceError (list string) :=
  match requireEnv with
  | Thrown e => ([], Thrown e)
  | Returned _ =>
      match Retry.ocRetry fn 3 with
      | (tr, Returned res) => (through ExpiryList <$> tr, Returned (default [] res))
      | (tr, Thrown _) =>
          ((through ExpiryList <$> tr) ++ [Log "expirylist error:"], Returned [])
      end
  end.

(** [fetchOptionChainRaw]; [fn k] is what the [k]-th POST yields, [None]
    when [res.data?.data] is [null] or [undefined]. *)
Definition fetchOptionChainRaw (Expiry : string)
    (fn : nat → outcome Retry.HttpError (option ChainData))
  : list Event * outcome ServiceError ChainData :=
  match requireEnv with
  | Thrown e => ([], Thrown e)
  | Returned _ =>
      match Retry.ocRetry fn 4 with
      | (tr, Returned res) => (through (Chain Expiry) <$> tr, Returned (default emptyChain res))
      | (tr, Thrown e) => (through (Chain Expiry) <$> tr, Thrown (Upstream e))
      end
  end.

(** The last two statements of [getLiveOptionChain], reached with the
    trace so far and the expiry settled on. *)
Definition fetchLive (tr : list Event) (expiry : string)
    (chainFn : string → nat → outcome Retry.HttpError (option ChainData))
  : list Event * outcome ServiceError LiveChain :=
  match fetchOptionChainRaw expiry (chainFn expiry) with
  | (tr', Returned data) => (tr ++ tr', Returned (mkLive (Some expiry) data))
  | (tr', Thrown e) => (tr ++ tr', Thrown e)
  end.

Definition getLiveOptionChain (Expiry : option string)
    (listFn : nat → outcome Retry.HttpError (option (list string)))
    (chainFn : string → nat → outcome Retry.HttpError (option ChainData))
  : list Event * outcome ServiceError LiveChain :=
  let expiry := trim (orStr Expiry "") in
  if negb (String.eqb expiry "") then fetchLive [] expiry chainFn
  else
    match fetchExpiryList listFn with
    | (tr, Thrown e) => (tr, Thrown e)
    | (tr, Returned list) =>
        let picked := Expiry.pickNearestExpiry today (Some list) in
        if negb (PollLoop.truthy picked) then
          let fallback := trim (orStr OC_EXPIRY (orStr FUTSTK_REFRESH_EXPIRY "")) in
          if negb (String.eqb fallback "")
          then fetchLive (tr ++ [Log "No live expiries; using fallback env expiry"])
                 fallback chainFn
          else (tr, Returned (mkLive None emptyChain))
        else fetchLive (tr ++ [Sleep 3100]) (default "" picked) chainFn
    end.

(** The platform's [Number] on strings. *)
Variable Number : string → number.

(** [(a, b) => a.strike - b.strike] *)
Definition strikeCmp (a b : number * Leg) : number := sub a.1 b.1.

(** [toNormalizedArray]: a row is [{ strike: Number(k), ...v }], its
    strike with the legs of the entry ([DhanStrikeOC] has the fields
    [ce] and [pe] only, so the spread leaves [strike] alone). *)
Definition toNormalizedArray (oc : list (string * Leg)) : list (number * Leg) :=
  sort strikeCmp
    (filter (λ r, finite r.1) ((λ kv, (Number kv.1, kv.2)) <$> oc)).

End Service.

(** The upstream calls of a trace. *)
Definition upstreamCalls (tr : list Event) : list Event :=
  filter (λ ev, isCall ev) tr.
Definition chainCalls (tr : list Event) : list Event :=
  filter (λ ev, isChainCall ev) tr.

(** How a live fetch made with credentials can end, with at most [n]
    upstream calls before the chain fetch: at most four chain calls;
    without an expiry, no chain call and the empty chain; with an expiry,
    a non-empty one that every chain call was made for; and only the
    chain fetch's error thrown. *)
Definition liveShape {Leg} (n : nat) (tr : list Event)
    (out : outcome ServiceError (@LiveChain Leg)) : Prop :=
  (length (upstreamCalls tr) ≤ n + 4)%nat ∧
  (length (chainCalls tr) ≤ 4)%nat ∧
  match out with
  | Returned res =>
      match live_expiry res with
      | None => chainCalls tr = [] ∧ live_data res = emptyChain
      | Some e =>
          e ≠ ""%string ∧ chainCalls tr ≠ [] ∧
          ∀ ev, ev ∈ chainCalls tr → ∃ k, ev = Call (Chain e) k
      end
  | Thrown err => (∃ e, err = Upstream e) ∧ chainCalls tr ≠ []
  end.

End OptionChain.

(* ===================================================================== *)
(** ** Option-chain watcher: configuration, startup and pacing ([app.ts]) *)
(* ===================================================================== *)

Module Watcher.
Import Js.

(** [Math.max(a, b)]: NaN as soon as an argument is. *)
Definition Math_max (a b : number) : number :=
  match a, b with
  | NaN, _ | _, NaN => NaN
  | PInf, _ | _, PInf => PInf
  | NInf, x | x, NInf => x
  | Fin x, Fin y => Fin (Z.max x y)
  end.

(** The watcher computes with its numbers, so here a finite number
    stands for the integer it is written with (milliseconds, strikes in
    whole units), and an operation answers its exact result rounded to
    the nearest double.

    [roundDouble z] is the double nearest to the integer [z], ties to
    the even significand.  Up to [2^53] every integer is a double; from
    there a double has 53 significant bits, so in the binade of [z] the
    doubles are the multiples of [2^e]; a result of [2^1024] or more is
    an infinity. *)
Definition roundDouble (z : Z) : number :=
  let m := Z.abs z in
  if m <? 2 ^ 53 then Fin z
  else
    let e := Z.log2 m - 52 in
    let q := m / 2 ^ e in
    let r := m mod 2 ^ e in
    let half := 2 ^ (e - 1) in
    let q' := if (half <? r) || ((r =? half) && Z.odd q) then q + 1 else q in
    let v := q' * 2 ^ e in
    if 2 ^ 1024 <=? v then (if 0 <? z then PInf else NInf)
    else Fin (Z.sgn z * v).

(** [a + b] *)
Definition add (a b : number) : number :=
  match a, b with
  | Fin x, Fin y => roundDouble (x + y)
  | NaN, _ | _, NaN => NaN
  | PInf, NInf | NInf, PInf => NaN
  | PInf, _ | _, PInf => PInf
  | NInf, _ | _, NInf => NInf
  end.

(** [a - b] *)
Definition minus (a b : number) : number :=
  match a, b with
  | Fin x, Fin y => roundDouble (x - y)
  | NaN, _ | _, NaN => NaN
  | PInf, PInf | NInf, NInf => NaN
  | PInf, _ | _, NInf => PInf
  | NInf, _ | _, PInf => NInf
  end.

Definition BASE_MIN : Z := 3100.
Definition STEP_MS : Z := 1000.

Section Env.
(** The platform's [Number] on strings. *)
Variable Number : string → number.

(** [Number(process.env.X || dflt)] *)
Definition envNumber (env : option string) (dflt : Z) : number :=
  match env with
  | Some s => if String.eqb s "" then Fin dflt else Number s
  | None => Fin dflt
  end.

(** [Math.max(10_000, Number(process.env.OC_CLOSED_MS || 60_000))] *)
Definition CLOSED_SLEEP_MS (OC_CLOSED_MS : option string) : number :=
  Math_max (Fin 10000) (envNumber OC_CLOSED_MS 60000).

(** [Math.max(Number(process.env.OC_LIVE_MS || 7000), BASE_MIN)] *)
Definition baseInterval (OC_LIVE_MS : option string) : number :=
  Math_max (envNumber OC_LIVE_MS 7000) (Fin BASE_MIN).

(** The first positive difference of neighbours: the [for] loop of
    [strikeStepFromKeys], [None] when it ends without [break];
    [diff] is [Math.abs(nums[i] - nums[i - 1])]. *)
Fixpoint firstGap (nums : list number) : option number :=
  match nums with
  | a :: (b :: _) as rest =>
      let diff := abs (minus b a) in
      if gt diff (Fin 0) then Some diff else firstGap rest
  | _ => None
  end.

(** [nums.sort((a, b) => a - b)] on the finite values of the first
    twenty keys, then the loop; [step] starts at 50. *)
Definition strikeStepFromKeys (keys : list string) : number :=
  let n := Nat.min (length keys) 20 in
  let nums := sort minus (filter (λ x, finite x) (Number <$> take n keys)) in
  default (Fin 50) (firstGap nums).
End Env.

(** [effectiveInterval]:
    [Math.max(BASE_MIN, baseInterval + backoffSteps * STEP_MS) + jitter],
    where [jitter] is [Math.floor(Math.random() * 250)]; the product and
    the two sums are double operations. *)
Definition effectiveInterval (baseInterval : number) (backoffSteps jitter : Z)
  : number :=
  add (Math_max (Fin BASE_MIN)
         (add baseInterval (roundDouble (backoffSteps * STEP_MS))))
      (Fin jitter).

(** The delay [loop] sleeps after a tick. *)
Definition loopDelay (cfg : PollLoop.Config) (marketOpen : bool)
    (closedSleep baseInterval : number) (backoffSteps jitter : Z) : number :=
  if PollLoop.MARKET_HOURS_ONLY cfg && negb marketOpen then closedSleep
  else effectiveInterval baseInterval backoffSteps jitter.

Section Resolve.
Context {Leg : Type}.
(** As in the option-chain service: the credentials are set, [istToday()],
    [String.prototype.trim] and the two fallback settings. *)
Variable credentials : bool.
Variable today : string.
Variable trim : string → string.
Variable OC_EXPIRY : option string.
Variable FUTSTK_REFRESH_EXPIRY : option string.

(** [resolveExpiry]:
    [try { const exps = await fetchExpiryList(id, seg);
           const picked = pickNearestExpiry(exps);
           if (picked) { await sleep(3100); return picked } } catch {}
     const res = await getLiveOptionChain(id, seg);
     return res?.expiry ?? null].
    [listFn1] answers the POSTs of the first [fetchExpiryList], [listFn2]
    those of the one inside [getLiveOptionChain]. *)
Definition resolveExpiry
    (listFn1 listFn2 : nat → outcome Retry.HttpError (option (list string)))
    (chainFn : string → nat →
               outcome Retry.HttpError (option (@OptionChain.ChainData Leg)))
  : list OptionChain.Event * outcome OptionChain.ServiceError (option string) :=
  let live (tr : list OptionChain.Event) :=
    match OptionChain.getLiveOptionChain credentials today trim OC_EXPIRY
            FUTSTK_REFRESH_EXPIRY None listFn2 chainFn with
    | (tr', Returned res) => (tr ++ tr', Returned (OptionChain.live_expiry res))
    | (tr', Thrown e) => (tr ++ tr', Thrown e)
    end in
  match OptionChain.fetchExpiryList credentials listFn1 with
  | (tr, Returned exps) =>
      let picked := Expiry.pickNearestExpiry today (Some exps) in
      if PollLoop.truthy picked then (tr ++ [OptionChain.Sleep 3100], Returned picked)
      else live tr
  | (tr, Thrown _) => live tr
  end.
End Resolve.

(** What the startup loop does besides returning. *)
Inductive StartEvent : Set :=
  | Resolve (k : nat)
  | Warn (line : string)
  | Wait (ms : Z).

#[global] Instance StartEvent_eq_dec : EqDecision StartEvent.
Proof. solve_decision. Defined.

Section Startup.
Context {E : Type}.
(** [resolve k] is what the [k]-th call of [resolveExpiry] yields. *)
Variable resolve : nat → outcome E (option string).

(** [for (;;) { expiry = await resolveExpiry(); if (expiry) break;
                console.warn(...); await sleep(waitMs);
                waitMs = Math.min(waitMs * 2, 5 * 60_000) }],
    entered for the [k]-th round; [None] when [fuel] rounds did not end
    the loop. *)
Fixpoint startupLoop (fuel k : nat) (waitMs : Z)
  : option (list StartEvent * outcome E string) :=
  match fuel with
  | O => None
  | S f =>
      match resolve k with
      | Thrown e => Some ([Resolve k], Thrown e)
      | Returned ex =>
          if PollLoop.truthy ex then Some ([Resolve k], Returned (default "" ex))
          else
            match startupLoop f (S k) (Z.min (waitMs * 2) (5 * 60000)) with
            | Some (tr, out) =>
                Some (Resolve k :: Warn "[OC] No expiry yet." :: Wait waitMs :: tr, out)
            | None => None
            end
      end
  end.

(** [let expiry = (process.env.OC_EXPIRY || "").trim() || null;
     if (!expiry) { let waitMs = 15000; for (;;) ... }] *)
Definition startupExpiry (trim : string → string) (OC_EXPIRY : option string)
    (fuel : nat) : option (list StartEvent * outcome E string) :=
  let expiry := trim (OptionChain.orStr OC_EXPIRY "") in
  if negb (String.eqb expiry "") then Some ([], Returned expiry)
  else startupLoop fuel 0 15000.
End Startup.

(** The waits of a startup trace. *)
Definition waits (tr : list StartEvent) : list Z :=
  omap (λ ev, match ev with Wait ms => Some ms | _ => None end) tr.

(** The calls and writes of a tick's trace: everything but log lines. *)
Definition isLog (ev : PollLoop.Effect) : bool :=
  match ev with PollLoop.Log _ => true | _ => false end.
Definition outward (tr : list PollLoop.Effect) : list PollLoop.Effect :=
  filter (λ ev, negb (isLog ev)) tr.

End Watcher.

(* ===================================================================== *)
(** ** Quote service: batches and the refresher's interval               *)
(* ===================================================================== *)

Module QuoteService.
Import Js.

Inductive Segment : Set := NSE_FNO | NSE_FUT.

Inductive Event : Set :=
  | Call (seg : Segment) (attempt : nat)
  | Sleep (ms : Z)
  | Log (line : string).

#[global] Instance Segment_eq_dec : EqDecision Segment.
Proof. solve_decision. Defined.
#[global] Instance Event_eq_dec : EqDecision Event.
Proof. solve_decision. Defined.

Definition through (seg : Segment) (ev : Retry.Event) : Event :=
  match ev with
  | Retry.Call k => Call seg k
  | Retry.Sleep ms => Sleep ms
  end.

Definition isCall (ev : Event) : bool :=
  match ev with Call _ _ => true | _ => false end.

Definition upstreamCalls (tr : list Event) : list Event :=
  filter (λ ev, isCall ev) tr.

Section Fetch.
(** The details the feed returns for one security. *)
Context {D : Type}.
(** [fn seg k]: what the [k]-th POST for segment [seg] yields; the
    payload is [response?.data?.data?.[seg]], its entries in order, and
    [None] when that is missing. *)
Variable fn : Segment → nat → outcome Retry.HttpError (option (list (string * D))).

(** One round of the [for (const seg of segments)] loop: [Some data]
    when the round returns, [None] when the loop goes on. *)
Definition trySegment (seg : Segment) : list Event * option (list (string * D)) :=
  match Retry.quoteRetry (fn seg) 3 with
  | (tr, Returned response) =>
      let data := default [] response in
      if (0 <? length data)%nat
      then ((through seg <$> tr) ++ [Log "items"], Some data)
      else ((through seg <$> tr) ++ [Log "items"; Log "empty, trying next"], None)
  | (tr, Thrown _) => ((through seg <$> tr) ++ [Log "error"], None)
  end.

(** [fetchOhlcAny] and [fetchQuoteAny] (they differ in the URL only). *)
Definition fetchAny (ids : list Z) : list Event * list (string * D) :=
  match ids with
  | [] => ([], [])
  | _ =>
      match trySegment NSE_FNO with
      | (tr, Some data) => (tr, data)
      | (tr, None) =>
          match trySegment NSE_FUT with
          | (tr', Some data) => (tr ++ tr', data)
          | (tr', None) => (tr ++ tr', [])
          end
      end
  end.
End Fetch.

Definition chunkSize : nat := 1000.

(** [for (let i = 0; i < ids.length; i += chunkSize)
       { const chunk = ids.slice(i, i + chunkSize); ... }]: the chunks in
    order, the loop entered at index [i]; [fuel] bounds the rounds. *)
Fixpoint chunksFrom {A} (fuel i : nat) (ids : list A) : list (list A) :=
  match fuel with
  | O => []
  | S f =>
      if (i <? length ids)%nat
      then take chunkSize (drop i ids) :: chunksFrom f (i + chunkSize) ids
      else []
  end.

(** One round per id is more than the loop ever takes. *)
Definition chunks {A} (ids : list A) : list (list A) :=
  chunksFrom (length ids) 0 ids.

(** The global [isFinite] on a number *)
Definition isFinite (n : number) : bool := finite n.

(** [const rawMs = Number(process.env.FUTSTK_REFRESH_MS || 10000);
     const intervalMs = Math.max(10000, isFinite(rawMs) ? rawMs : 10000)] *)
Definition intervalMs (Number : string → number) (FUTSTK_REFRESH_MS : option string)
  : number :=
  let rawMs := Watcher.envNumber Number FUTSTK_REFRESH_MS 10000 in
  Watcher.Math_max (Fin 10000) (if isFinite rawMs then rawMs else Fin 10000).

End QuoteService.

(* ===================================================================== *)
(** * Lemmas and theorems                                                *)
(* ===================================================================== *)

(* ===================================================================== *)
(** ** Snapshot save                                                     *)
(* ===================================================================== *)

Section SnapshotStoreFacts.
Import SnapshotStore.
Context {Doc Key : Type} `{EqDecision Key}.
Variable indexKey : Doc → Key.

Abbreviation keys coll := (indexKey <$> coll).

Lemma insertOne_keeps_unique fault (coll : list Doc) doc :
  NoDup (keys coll) → NoDup (keys (insertOne indexKey fault coll doc).1).
Proof.
  intros Hnd. unfold insertOne. destruct fault as [e|]; [done|].
  case_bool_decide as Hin; [done|]. simpl.
  rewrite fmap_app. apply NoDup_app. split_and!; [done| |].
  - intros k Hk Hk'. apply list_elem_of_singleton in Hk'. by subst.
  - apply NoDup_singleton.
Qed.

Lemma saveGexDoc_store fault (coll : list Doc) doc :
  (saveGexDoc indexKey fault coll doc).1 = (insertOne indexKey fault coll doc).1.
Proof.
  unfold saveGexDoc. destruct (insertOne _ _ _ _) as [c [|e]]; [done|].
  by destruct (notDuplicate e).
Qed.

Lemma saveAdvDecDoc_store fault (coll : list Doc) doc :
  (saveAdvDecDoc indexKey fault coll doc).1 = (insertOne indexKey fault coll doc).1.
Proof.
  unfold saveAdvDecDoc. destruct (insertOne _ _ _ _) as [c [|e]]; [done|].
  by case_bool_decide.
Qed.

Lemma saveAllGex_keeps_unique calls (coll : list Doc) :
  NoDup (keys coll) → NoDup (keys (saveAllGex indexKey calls coll)).
Proof.
  revert coll. induction calls as [|[f d] calls IH]; intros coll Hnd; [done|].
  apply IH. simpl. rewrite saveGexDoc_store. by apply insertOne_keeps_unique.
Qed.

Lemma saveAllAdvDec_keeps_unique calls (coll : list Doc) :
  NoDup (keys coll) → NoDup (keys (saveAllAdvDec indexKey calls coll)).
Proof.
  revert coll. induction calls as [|[f d] calls IH]; intros coll Hnd; [done|].
  apply IH. simpl. rewrite saveAdvDecDoc_store. by apply insertOne_keeps_unique.
Qed.

(** C4.  Both save paths ([computeAndSaveSnapshot] and
    [saveAdvDecSnapshot]) treat the store's answers alike: a rejection
    with code 11000, in particular the unique index refusing a key that
    is already stored, is swallowed and reported as [saved = false] with
    the collection untouched; any other error is thrown on to the
    caller; a write whose key is new is stored and reported as
    [saved = true]; and no run of save calls ever leaves two stored
    documents with one index key. *)
Theorem save_swallows_duplicates_only (fault : option StoreError)
    (coll : list Doc) (doc : Doc) :
  (∀ e, fault = Some e → code e = Some DUPLICATE_KEY →
     saveGexDoc indexKey fault coll doc = (coll, Returned (mkGexSave false doc)) ∧
     saveAdvDecDoc indexKey fault coll doc = (coll, Returned (mkAdvSave false true))) ∧
  (fault = None → indexKey doc ∈ keys coll →
     saveGexDoc indexKey fault coll doc = (coll, Returned (mkGexSave false doc)) ∧
     saveAdvDecDoc indexKey fault coll doc = (coll, Returned (mkAdvSave false true))) ∧
  (∀ e, fault = Some e → code e ≠ Some DUPLICATE_KEY →
     saveGexDoc indexKey fault coll doc = (coll, Thrown e) ∧
     saveAdvDecDoc indexKey fault coll doc = (coll, Thrown e)) ∧
  (fault = None → indexKey doc ∉ keys coll →
     saveGexDoc indexKey fault coll doc = (coll ++ [doc], Returned (mkGexSave true doc)) ∧
     saveAdvDecDoc indexKey fault coll doc = (coll ++ [doc], Returned (mkAdvSave true false))) ∧
  (∀ calls, NoDup (keys coll) →
     NoDup (keys (saveAllGex indexKey calls coll)) ∧
     NoDup (keys (saveAllAdvDec indexKey calls coll))).
Proof.
  split_and!.
  - intros e -> He. unfold saveGexDoc, saveAdvDecDoc, notDuplicate. simpl.
    by rewrite !bool_decide_eq_true_2.
  - intros -> Hin. unfold saveGexDoc, saveAdvDecDoc, notDuplicate, insertOne.
    by rewrite (bool_decide_eq_true_2 _ Hin).
  - intros e -> He. unfold saveGexDoc, saveAdvDecDoc, notDuplicate. simpl.
    by rewrite !bool_decide_eq_false_2.
  - intros -> Hin. unfold saveGexDoc, saveAdvDecDoc, insertOne.
    by rewrite (bool_decide_eq_false_2 _ Hin).
  - intros calls Hnd. split.
    + by apply saveAllGex_keeps_unique.
    + by apply saveAllAdvDec_keeps_unique.
Qed.
End SnapshotStoreFacts.

(** Two saves of documents with one index key into an empty gex_levels
    collection, a connection failure on a third, and a repeated
    advdec_snapshots save. *)
Lemma save_swallows_duplicates_only_witness :
  let d1 := SnapshotStore.mkGexDoc "NIFTY" "2025-10-28" (Some "2025-10-16") [] 29342950 "k1" in
  let d2 := SnapshotStore.mkGexDoc "NIFTY" "2025-10-28" (Some "2025-10-16") [] 29342950 "k2" in
  let a1 := SnapshotStore.mkAdvDecDoc "NIFTY" 5 1440 None "2025-10-16" 29342950 "a1" in
  let down := SnapshotStore.mkStoreError None "connection closed" in
  SnapshotStore.saveGexDoc SnapshotStore.gexIndexKey None [] d1
    = ([d1], Returned (SnapshotStore.mkGexSave true d1)) ∧
  SnapshotStore.saveGexDoc SnapshotStore.gexIndexKey None [d1] d2
    = ([d1], Returned (SnapshotStore.mkGexSave false d2)) ∧
  SnapshotStore.saveGexDoc SnapshotStore.gexIndexKey (Some down) [d1] d2
    = ([d1], Thrown down) ∧
  SnapshotStore.saveAdvDecDoc SnapshotStore.advIndexKey None [a1] a1
    = ([a1], Returned (SnapshotStore.mkAdvSave false true)) ∧
  NoDup (SnapshotStore.gexIndexKey <$>
           SnapshotStore.saveAllGex SnapshotStore.gexIndexKey
             [(None, d1); (None, d2); (Some down, d2)] []).
Proof.
  intros d1 d2 a1 down.
  pose proof (save_swallows_duplicates_only SnapshotStore.gexIndexKey None [] d1)
    as (_ & _ & _ & Hfirst & Hrun).
  pose proof (save_swallows_duplicates_only SnapshotStore.gexIndexKey None [d1] d2)
    as (_ & Hdup & _ & _ & _).
  pose proof (save_swallows_duplicates_only SnapshotStore.gexIndexKey (Some down) [d1] d2)
    as (_ & _ & Hother & _ & _).
  pose proof (save_swallows_duplicates_only SnapshotStore.advIndexKey None [a1] a1)
    as (_ & Hadv & _ & _ & _).
  split_and!.
  - apply Hfirst; [reflexivity | vm_compute; intros Hin; inversion Hin].
  - apply Hdup; [reflexivity | vm_compute; left].
  - apply (Hother down); [reflexivity | discriminate].
  - apply Hadv; [reflexivity | vm_compute; left].
  - apply Hrun. vm_compute. constructor.
Defined.

(* ===================================================================== *)
(** ** Retry wrappers                                                    *)
(* ===================================================================== *)

Section RetryFacts.
Import Retry.
Context {T : Type}.
Variable fn : nat → outcome HttpError T.

Lemma retryable_not_401 s : retryable s = true → is401 s = false.
Proof.
  destruct s as [v|]; [|done]. unfold is401. simpl. intros Hr.
  apply bool_decide_eq_false_2. intros [= ->]. done.
Qed.

Lemma is401_not_retryable s : is401 s = true → retryable s = false.
Proof.
  intros H401. destruct (retryable s) eqn:Hr; [|done].
  by rewrite (retryable_not_401 _ Hr) in H401.
Qed.

Lemma backoffFrom_S wait i k :
  backoffFrom wait i (S k) = Call i :: Sleep (wait i) :: backoffFrom wait (S i) k.
Proof. reflexivity. Qed.

(** After [k] retryable failures within the budget, the option-chain
    loop stops at the first answer that is not one. *)
Lemma ocLoop_stops k : ∀ remaining i lastErr,
  (k < remaining)%nat →
  (∀ j, (i ≤ j < i + k)%nat → failsRetryably fn j) →
  (∀ v, fn (i + k)%nat = Returned v →
     ocLoop fn remaining i lastErr
     = (backoffFrom ocWait i k ++ [Call (i + k)%nat], Returned v)) ∧
  (∀ e, fn (i + k)%nat = Thrown e → retryable (status e) = false →
     ocLoop fn remaining i lastErr
     = (backoffFrom ocWait i k ++ [Call (i + k)%nat], Thrown (Some e))).
Proof.
  induction k as [|k IH]; intros remaining i lastErr Hlt Hfail;
    (destruct remaining as [|n]; [lia|]).
  - rewrite Nat.add_0_r. split.
    + intros v Hv. cbn [ocLoop]. by rewrite Hv.
    + intros e He Hr. cbn [ocLoop]. rewrite He, Hr. by destruct (is401 _).
  - destruct (Hfail i ltac:(lia)) as (e0 & He0 & Hr0).
    destruct (IH n (S i) (Some e0) ltac:(lia)) as [IHv IHe].
    { intros j Hj. apply Hfail. lia. }
    replace (i + S k)%nat with (S i + k)%nat by lia.
    split.
    + intros v Hv. cbn [ocLoop].
      rewrite He0, (retryable_not_401 _ Hr0), Hr0, (IHv v Hv). done.
    + intros e He Hr. cbn [ocLoop].
      rewrite He0, (retryable_not_401 _ Hr0), Hr0, (IHe e He Hr). done.
Qed.

(** When every attempt of the budget fails retryably, the loop sleeps
    after each of them and throws the error of the last one. *)
Lemma ocLoop_exhausts remaining : ∀ i lastErr,
  (∀ j, (i ≤ j < i + remaining)%nat → failsRetryably fn j) →
  ocLoop fn remaining i lastErr
  = (backoffFrom ocWait i remaining,
     Thrown (match remaining with
             | O => lastErr
             | S n => errorOf (fn (i + n)%nat)
             end)).
Proof.
  induction remaining as [|n IH]; intros i lastErr Hfail; [done|].
  destruct (Hfail i ltac:(lia)) as (e0 & He0 & Hr0).
  cbn [ocLoop]. rewrite He0, (retryable_not_401 _ Hr0), Hr0.
  rewrite (IH (S i) (Some e0)); [|intros j Hj; apply Hfail; lia].
  rewrite backoffFrom_S. do 2 f_equal.
  destruct n as [|m].
  - by rewrite Nat.add_0_r, He0.
  - by replace (S i + m)%nat with (i + S m)%nat by lia.
Qed.

Lemma quoteLoop_stops k : ∀ remaining i lastErr,
  (k < remaining)%nat →
  (∀ j, (i ≤ j < i + k)%nat → failsRetryably fn j) →
  (∀ v, fn (i + k)%nat = Returned v →
     quoteLoop fn remaining i lastErr
     = (backoffFrom quoteWait i k ++ [Call (i + k)%nat], Returned v)) ∧
  (∀ e, fn (i + k)%nat = Thrown e → retryable (status e) = false →
     quoteLoop fn remaining i lastErr
     = (backoffFrom quoteWait i k ++ [Call (i + k)%nat], Thrown (Some e))).
Proof.
  induction k as [|k IH]; intros remaining i lastErr Hlt Hfail;
    (destruct remaining as [|n]; [lia|]).
  - rewrite Nat.add_0_r. split.
    + intros v Hv. cbn [quoteLoop]. by rewrite Hv.
    + intros e He Hr. cbn [quoteLoop]. by rewrite He, Hr.
  - destruct (Hfail i ltac:(lia)) as (e0 & He0 & Hr0).
    destruct (IH n (S i) (Some e0) ltac:(lia)) as [IHv IHe].
    { intros j Hj. apply Hfail. lia. }
    replace (i + S k)%nat with (S i + k)%nat by lia.
    split.
    + intros v Hv. cbn [quoteLoop]. rewrite He0, Hr0, (IHv v Hv). done.
    + intros e He Hr. cbn [quoteLoop]. rewrite He0, Hr0, (IHe e He Hr). done.
Qed.

Lemma quoteLoop_exhausts remaining : ∀ i lastErr,
  (∀ j, (i ≤ j < i + remaining)%nat → failsRetryably fn j) →
  quoteLoop fn remaining i lastErr
  = (backoffFrom quoteWait i remaining,
     Thrown (match remaining with
             | O => lastErr
             | S n => errorOf (fn (i + n)%nat)
             end)).
Proof.
  induction remaining as [|n IH]; intros i lastErr Hfail; [done|].
  destruct (Hfail i ltac:(lia)) as (e0 & He0 & Hr0).
  cbn [quoteLoop]. rewrite He0, Hr0.
  rewrite (IH (S i) (Some e0)); [|intros j Hj; apply Hfail; lia].
  rewrite backoffFrom_S. do 2 f_equal.
  destruct n as [|m].
  - by rewrite Nat.add_0_r, He0.
  - by replace (S i + m)%nat with (i + S m)%nat by lia.
Qed.

(** Neither loop ever issues more calls than its budget. *)
Lemma ocLoop_calls_bound remaining : ∀ i lastErr,
  (length (calls (ocLoop fn remaining i lastErr).1) ≤ remaining)%nat.
Proof.
  induction remaining as [|n IH]; intros i lastErr; [done|].
  cbn [ocLoop]. destruct (fn i) as [v|e]; [simpl; lia|].
  destruct (is401 _); [simpl; lia|].
  destruct (retryable _); [|simpl; lia].
  specialize (IH (S i) (Some e)). destruct (ocLoop _ _ _ _) as [tr out].
  simpl in *. lia.
Qed.

Lemma quoteLoop_calls_bound remaining : ∀ i lastErr,
  (length (calls (quoteLoop fn remaining i lastErr).1) ≤ remaining)%nat.
Proof.
  induction remaining as [|n IH]; intros i lastErr; [done|].
  cbn [quoteLoop]. destruct (fn i) as [v|e]; [simpl; lia|].
  destruct (retryable _); [|simpl; lia].
  specialize (IH (S i) (Some e)). destruct (quoteLoop _ _ _ _) as [tr out].
  simpl in *. lia.
Qed.
End RetryFacts.

Lemma shl1_small (i : nat) : (i ≤ 30)%nat → Retry.shl1 i = 2 ^ Z.of_nat i.
Proof.
  intros Hi. unfold Retry.shl1.
  rewrite Z.mod_small by lia. rewrite Z.shiftl_1_l.
  assert (2 ^ Z.of_nat i < 2 ^ 31) as Hlt by (apply Z.pow_lt_mono_r; lia).
  destruct (Z.ltb_spec (2 ^ Z.of_nat i) (2 ^ 31)); [done|lia].
Qed.

(** C5 (as amended).  Let the first [k] attempts of a wrapped call be
    answered with 429 or 5xx, [k] within the budget of [tries] attempts.
    Each of those attempts is followed by a sleep and the next attempt;
    the sleep after attempt [i] is [min(15000, 1000 * 2^i)] in [ocRetry]
    (exponential) and [min(8000, 1000 * (i + 1))] in [quoteRetry]
    (linear).  If attempt [k] is answered with 401, or with any other
    error that is not 429 or 5xx, both wrappers stop there and throw that
    error; if it succeeds they return its value; if it is the last
    attempt of the budget and fails retryably too, they throw its error.
    Neither wrapper ever issues more than [tries] calls. *)
Theorem retry_policy {T} (fn : nat → outcome Retry.HttpError T) (tries k : nat) :
  (k < tries)%nat →
  (∀ j, (j < k)%nat → Retry.failsRetryably fn j) →
  (∀ e, fn k = Thrown e → Retry.status e = Some 401 →
     Retry.ocRetry fn tries
       = (Retry.backoffTrace Retry.ocWait k ++ [Retry.Call k], Thrown (Some e)) ∧
     Retry.quoteRetry fn tries
       = (Retry.backoffTrace Retry.quoteWait k ++ [Retry.Call k], Thrown (Some e))) ∧
  (∀ e, fn k = Thrown e → Retry.retryable (Retry.status e) = false →
     Retry.ocRetry fn tries
       = (Retry.backoffTrace Retry.ocWait k ++ [Retry.Call k], Thrown (Some e)) ∧
     Retry.quoteRetry fn tries
       = (Retry.backoffTrace Retry.quoteWait k ++ [Retry.Call k], Thrown (Some e))) ∧
  (∀ v, fn k = Returned v →
     Retry.ocRetry fn tries
       = (Retry.backoffTrace Retry.ocWait k ++ [Retry.Call k], Returned v) ∧
     Retry.quoteRetry fn tries
       = (Retry.backoffTrace Retry.quoteWait k ++ [Retry.Call k], Returned v)) ∧
  (∀ e, fn k = Thrown e → Retry.retryable (Retry.status e) = true →
     tries = S k →
     Retry.ocRetry fn tries
       = (Retry.backoffTrace Retry.ocWait tries, Thrown (Some e)) ∧
     Retry.quoteRetry fn tries
       = (Retry.backoffTrace Retry.quoteWait tries, Thrown (Some e))) ∧
  ((k ≤ 30)%nat → Retry.ocWait k = Z.min 15000 (1000 * 2 ^ Z.of_nat k)) ∧
  Retry.quoteWait k = Z.min 8000 (1000 * (Z.of_nat k + 1)) ∧
  (length (Retry.calls (Retry.ocRetry fn tries).1) ≤ tries)%nat ∧
  (length (Retry.calls (Retry.quoteRetry fn tries).1) ≤ tries)%nat.
Proof.
  intros Hk Hfail.
  assert (∀ j, (0 ≤ j < 0 + k)%nat → Retry.failsRetryably fn j) as Hfail'
    by (intros j Hj; apply Hfail; lia).
  destruct (ocLoop_stops fn k tries 0%nat None Hk Hfail') as [Hov Hoe].
  destruct (quoteLoop_stops fn k tries 0%nat None Hk Hfail') as [Hqv Hqe].
  simpl in Hov, Hoe, Hqv, Hqe.
  assert (∀ e, fn k = Thrown e → Retry.retryable (Retry.status e) = false →
     Retry.ocRetry fn tries
       = (Retry.backoffTrace Retry.ocWait k ++ [Retry.Call k], Thrown (Some e)) ∧
     Retry.quoteRetry fn tries
       = (Retry.backoffTrace Retry.quoteWait k ++ [Retry.Call k], Thrown (Some e)))
    as Hfatal.
  { intros e He Hr. split; [by apply Hoe | by apply Hqe]. }
  split_and!.
  - intros e He H401. apply Hfatal; [done|].
    apply is401_not_retryable. unfold Retry.is401. by apply bool_decide_eq_true_2.
  - done.
  - intros v Hv. split; [by apply Hov | by apply Hqv].
  - intros e He Hr ->.
    assert (∀ j, (0 ≤ j < 0 + S k)%nat → Retry.failsRetryably fn j) as Hall.
    { intros j Hj. destruct (decide (j = k)) as [->|Hne].
      - by exists e.
      - apply Hfail. lia. }
    unfold Retry.ocRetry, Retry.quoteRetry, Retry.backoffTrace.
    rewrite (ocLoop_exhausts fn (S k) 0%nat None Hall).
    rewrite (quoteLoop_exhausts fn (S k) 0%nat None Hall).
    simpl. by rewrite He.
  - intros Hsmall. unfold Retry.ocWait. by rewrite shl1_small.
  - done.
  - apply ocLoop_calls_bound.
  - apply quoteLoop_calls_bound.
Qed.

(** A call answered 429, then 503, then 401, under a budget of four. *)
Lemma retry_policy_witness :
  let fn := λ k : nat,
    match k with
    | 0%nat => Thrown (Retry.mkHttpError (Some 429) "Too Many Requests")
    | 1%nat => Thrown (Retry.mkHttpError (Some 503) "Service Unavailable")
    | _ => Thrown (Retry.mkHttpError (Some 401) "Unauthorized")
    end : outcome Retry.HttpError () in
  Retry.ocRetry fn 4
    = ([Retry.Call 0; Retry.Sleep 1000; Retry.Call 1; Retry.Sleep 2000; Retry.Call 2],
       Thrown (Some (Retry.mkHttpError (Some 401) "Unauthorized"))) ∧
  Retry.quoteRetry fn 4
    = ([Retry.Call 0; Retry.Sleep 1000; Retry.Call 1; Retry.Sleep 2000; Retry.Call 2],
       Thrown (Some (Retry.mkHttpError (Some 401) "Unauthorized"))).
Proof.
  intros fn.
  assert (∀ j, (j < 2)%nat → Retry.failsRetryably fn j) as Hfail.
  { intros [|[|j]] Hj; [eexists; split; reflexivity ..| lia]. }
  destruct (retry_policy fn 4 2 ltac:(lia) Hfail) as (H401 & _).
  exact (H401 _ eq_refl eq_refl).
Defined.

(** C5, counterexample.  Under constant 429 answers [quoteRetry] sleeps
    1000, 2000, 3000 (and 4000 with a budget of four): the third wait is
    not the [min(8000, 1000 * 2^2) = 4000] of an exponential backoff with
    the wrapper's own cap and base, and with four attempts no cap and
    base at all fit the waits. *)
Lemma quoteRetry_backoff_is_linear :
  let always429 := λ _ : nat,
    Thrown (Retry.mkHttpError (Some 429) "Too Many Requests")
      : outcome Retry.HttpError () in
  Retry.sleeps (Retry.quoteRetry always429 3).1 = [1000; 2000; 3000] ∧
  Retry.quoteWait 2 ≠ Z.min 8000 (1000 * 2 ^ 2) ∧
  Retry.sleeps (Retry.quoteRetry always429 4).1 = [1000; 2000; 3000; 4000] ∧
  ¬ ∃ capMs baseMs, ∀ i, (i < 4)%nat →
      Retry.quoteWait i = Z.min capMs (baseMs * 2 ^ Z.of_nat i).
Proof.
  intros always429. split_and!; [reflexivity | by vm_compute | reflexivity |].
  intros (capMs & baseMs & Hfit).
  pose proof (Hfit 0%nat ltac:(lia)) as H0.
  pose proof (Hfit 2%nat ltac:(lia)) as H2.
  pose proof (Hfit 3%nat ltac:(lia)) as H3.
  unfold Retry.quoteWait in H0, H2, H3.
  change (2 ^ Z.of_nat 0) with 1 in H0.
  change (2 ^ Z.of_nat 2) with 4 in H2.
  change (2 ^ Z.of_nat 3) with 8 in H3.
  change (Z.of_nat 0) with 0 in H0.
  change (Z.of_nat 2) with 2 in H2.
  change (Z.of_nat 3) with 3 in H3.
  lia.
Qed.

(* ===================================================================== *)
(** ** Market clock                                                      *)
(* ===================================================================== *)

Lemma civil_day_range (offsetMin t : Z) :
  0 ≤ MarketClock.day (MarketClock.civil offsetMin t) < 7.
Proof. unfold MarketClock.civil. simpl. apply Z.mod_pos_bound. lia. Qed.

(** The IST test of [gexLevelsCalc.ts] and [advdecSave.ts] is the session
    window read in Asia/Kolkata, whatever the host's timezone: it holds
    exactly on Monday to Friday from 09:15 to 15:30, both minutes
    included. *)
Lemma isMarketOpenIst_window (t : Z) :
  let c := MarketClock.civil MarketClock.IST_OFFSET_MIN t in
  MarketClock.isMarketOpenIst t = true ↔
    1 ≤ MarketClock.day c ≤ 5 ∧
    9 * 60 + 15 ≤ MarketClock.hours c * 60 + MarketClock.minutes c ≤ 15 * 60 + 30.
Proof.
  intros c. unfold MarketClock.isMarketOpenIst, MarketClock.getIstParts.
  fold c. cbn [MarketClock.weekday MarketClock.hour MarketClock.minute].
  pose proof (civil_day_range MarketClock.IST_OFFSET_MIN t) as Hd. fold c in Hd.
  unfold MarketClock.MARKET_START_MIN, MarketClock.MARKET_END_MIN.
  assert (MarketClock.day c = 0 ∨ MarketClock.day c = 1 ∨ MarketClock.day c = 2 ∨
          MarketClock.day c = 3 ∨ MarketClock.day c = 4 ∨ MarketClock.day c = 5 ∨
          MarketClock.day c = 6) as Hcases by lia.
  destruct Hcases as [E|[E|[E|[E|[E|[E|E]]]]]]; rewrite E;
    cbn [MarketClock.weekdayShort Z.eqb Pos.eqb negb andb
         String.eqb Ascii.eqb Bool.eqb];
    rewrite ?andb_true_iff, ?Z.leb_le;
    intuition (try discriminate; lia).
Qed.

(** On a host that itself runs on UTC+05:30 the watcher's test agrees
    with the IST one. *)
Lemma isMarketOpen_on_ist_host (t : Z) :
  MarketClock.isMarketOpen MarketClock.IST_OFFSET_MIN t = MarketClock.isMarketOpenIst t.
Proof.
  apply eq_true_iff_eq. rewrite isMarketOpenIst_window. cbv zeta.
  unfold MarketClock.isMarketOpen.
  pose proof (civil_day_range MarketClock.IST_OFFSET_MIN t) as Hd.
  destruct (MarketClock.civil MarketClock.IST_OFFSET_MIN t) as [d h m s].
  cbn [MarketClock.day MarketClock.hours MarketClock.minutes] in *.
  destruct (Z.eqb_spec d 0) as [E0|E0]; destruct (Z.eqb_spec d 6) as [E6|E6];
    cbn [orb]; rewrite ?andb_true_iff, ?Z.leb_le;
    intuition (try discriminate; lia).
Qed.

(** C6, the failing inputs.  [isMarketOpen] of [app.ts] reads the host's
    clock.  On a host running on UTC, at 2024-01-01T04:00:00Z, a Monday
    09:30 in Asia/Kolkata, it answers closed while the IST test answers
    open; on a host eight hours behind UTC, at 2024-01-05T23:00:00Z, a
    Saturday 04:30 in Asia/Kolkata, it answers open. *)
Theorem isMarketOpen_follows_host_timezone :
  MarketClock.civil MarketClock.IST_OFFSET_MIN 1704081600000
    = MarketClock.mkCivil 1 9 30 0 ∧
  MarketClock.isMarketOpenIst 1704081600000 = true ∧
  MarketClock.isMarketOpen 0 1704081600000 = false ∧
  MarketClock.civil MarketClock.IST_OFFSET_MIN 1704495600000
    = MarketClock.mkCivil 6 4 30 0 ∧
  MarketClock.isMarketOpenIst 1704495600000 = false ∧
  MarketClock.isMarketOpen (-480) 1704495600000 = true.
Proof. by vm_compute. Qed.

(* ===================================================================== *)
(** ** Option-chain watcher tick                                         *)
(* ===================================================================== *)

Ltac unfold_tick :=
  cbv [PollLoop.after PollLoop.tickOnce PollLoop.guarded
       PollLoop.tickBody PollLoop.reanchor PollLoop.persist PollLoop.onTickError
       PollLoop.setInFlight PollLoop.setBackoffSteps PollLoop.setExpiry
       PollLoop.setLastExpiryResolveDayKey PollLoop.setLastClosedLog
       PollLoop.read PollLoop.write PollLoop.emit PollLoop.await PollLoop.throw
       PollLoop.local PollLoop.ret PollLoop.tryCatch PollLoop.tryFinally
       mbind mret PollLoop.M_bind PollLoop.M_ret];
  cbn [PollLoop.stopped PollLoop.inFlight PollLoop.backoffSteps PollLoop.expiry
       PollLoop.lastExpiryResolveDayKey PollLoop.lastClosedLog
       PollLoop.marketOpen PollLoop.now PollLoop.dayKey
       PollLoop.resolveExpiryResult PollLoop.fetchResult
       PollLoop.normalizeResult PollLoop.upsertResult PollLoop.insertResult
       PollLoop.verboseResult PollLoop.MARKET_HOURS_ONLY PollLoop.verbose] in *.

Ltac split_conds :=
  repeat match goal with
  | H : _ && _ = true |- _ => apply andb_true_iff in H; destruct H
  | H : negb ?b = true, H' : ?b = true |- _ => rewrite H' in H; discriminate
  end.

Ltac tick_cases :=
  unfold PollLoop.MAX_BACKOFF_STEPS in *;
  repeat (case_match; simplify_eq/=; split_conds; try lia; try congruence).

Lemma after_backoff_bounds cfg w st :
  0 ≤ PollLoop.backoffSteps st ≤ PollLoop.MAX_BACKOFF_STEPS →
  0 ≤ PollLoop.backoffSteps (PollLoop.after cfg w st) ≤ PollLoop.MAX_BACKOFF_STEPS.
Proof. intros Hb. destruct st, w, cfg. unfold_tick. tick_cases. Qed.

Lemma run_backoff_bounds cfg ws : ∀ st,
  0 ≤ PollLoop.backoffSteps st ≤ PollLoop.MAX_BACKOFF_STEPS →
  0 ≤ PollLoop.backoffSteps (PollLoop.run cfg ws st) ≤ PollLoop.MAX_BACKOFF_STEPS.
Proof.
  induction ws as [|w ws IH]; intros st Hb; [done|].
  simpl. apply IH. by apply after_backoff_bounds.
Qed.

Lemma after_transient_failure cfg w st e :
  PollLoop.proceeds cfg w st →
  PollLoop.truthy (PollLoop.expiry st) = true →
  PollLoop.fetchResult w = Thrown e →
  PollLoop.isTransient (PollLoop.response_status e) = true →
  PollLoop.backoffSteps (PollLoop.after cfg w st)
  = Z.min PollLoop.MAX_BACKOFF_STEPS (PollLoop.backoffSteps st + 1).
Proof.
  intros (Hs & Hf & Hopen) Hex He Htr. destruct st, w, cfg.
  cbn in Hs, Hf, Hopen, Hex, He. subst.
  unfold_tick. destruct Hopen as [->| ->]; tick_cases.
Qed.

Lemma after_success cfg w st :
  PollLoop.proceeds cfg w st →
  PollLoop.truthy (PollLoop.expiry st) = true →
  PollLoop.succeeds cfg w →
  0 ≤ PollLoop.backoffSteps st →
  PollLoop.backoffSteps (PollLoop.after cfg w st)
  = Z.max 0 (PollLoop.backoffSteps st - 1).
Proof.
  intros (Hs & Hf & Hopen) Hex ((price & Hfetch) & Hn & Hu & Hi & Hv) Hb.
  destruct st, w, cfg. cbn in Hs, Hf, Hopen, Hex, Hfetch, Hn, Hu, Hi, Hv, Hb. subst.
  unfold_tick.
  destruct Hopen as [->| ->]; tick_cases;
    try (specialize (Hv eq_refl)); simplify_eq/=; try lia.
Qed.

(** C7.  The watcher's [backoffSteps] stays within
    [0 .. MAX_BACKOFF_STEPS] across every tick and every run of ticks.  A
    tick that gets past its guards, has an expiry, and whose fetch fails
    with a 429 or 5xx raises the counter by one, clamped at the maximum;
    a tick in which nothing fails lowers it by one, floored at zero.
    From zero, three ticks answered with 503 leave it at 3 and one good
    tick after them at 2. *)
Theorem backoffSteps_stays_clamped (cfg : PollLoop.Config) (w : PollLoop.World)
    (st : PollLoop.Feed) :
  0 ≤ PollLoop.backoffSteps st ≤ PollLoop.MAX_BACKOFF_STEPS →
  0 ≤ PollLoop.backoffSteps (PollLoop.after cfg w st) ≤ PollLoop.MAX_BACKOFF_STEPS ∧
  (∀ ws, 0 ≤ PollLoop.backoffSteps (PollLoop.run cfg ws st)
           ≤ PollLoop.MAX_BACKOFF_STEPS) ∧
  (∀ e, PollLoop.proceeds cfg w st →
        PollLoop.truthy (PollLoop.expiry st) = true →
        PollLoop.fetchResult w = Thrown e →
        PollLoop.isTransient (PollLoop.response_status e) = true →
        PollLoop.backoffSteps (PollLoop.after cfg w st)
        = Z.min PollLoop.MAX_BACKOFF_STEPS (PollLoop.backoffSteps st + 1)) ∧
  (PollLoop.proceeds cfg w st →
   PollLoop.truthy (PollLoop.expiry st) = true →
   PollLoop.succeeds cfg w →
   PollLoop.backoffSteps (PollLoop.after cfg w st)
   = Z.max 0 (PollLoop.backoffSteps st - 1)) ∧
  (let start := PollLoop.mkFeed false false 0 (Some "2025-10-28") "2025-10-16" 0 in
   let bad := PollLoop.answers503 "2025-10-16" in
   let good := PollLoop.answersOk "2025-10-16" in
   PollLoop.backoffSteps (PollLoop.run cfg [bad; bad; bad] start) = 3 ∧
   PollLoop.backoffSteps (PollLoop.run cfg [bad; bad; bad; good] start) = 2).
Proof.
  intros Hb. refine (conj _ (conj _ (conj _ (conj _ _)))).
  - by apply after_backoff_bounds.
  - intros ws. by apply run_backoff_bounds.
  - intros e. apply after_transient_failure.
  - intros Hp Hex Hok. apply after_success; [done..|lia].
  - destruct cfg as [[] []]; by vm_compute.
Qed.

(** A feed at the maximum: one more 503 leaves it there, a good tick
    takes one step off. *)
Lemma backoffSteps_stays_clamped_witness :
  let cfg := PollLoop.mkConfig true true in
  let st := PollLoop.mkFeed false false 12 (Some "2025-10-28") "2025-10-16" 0 in
  PollLoop.backoffSteps (PollLoop.after cfg (PollLoop.answers503 "2025-10-16") st) = 12 ∧
  PollLoop.backoffSteps (PollLoop.after cfg (PollLoop.answersOk "2025-10-16") st) = 11.
Proof.
  intros cfg st.
  assert (0 ≤ PollLoop.backoffSteps st ≤ PollLoop.MAX_BACKOFF_STEPS) as Hb
    by (vm_compute; split; discriminate).
  assert (∀ w, PollLoop.marketOpen w = true → PollLoop.proceeds cfg w st) as Hp
    by (intros w Hw; repeat split; [right; exact Hw]).
  split.
  - destruct (backoffSteps_stays_clamped cfg (PollLoop.answers503 "2025-10-16") st Hb)
      as (_ & _ & Hfail & _).
    exact (Hfail _ (Hp (PollLoop.answers503 "2025-10-16") eq_refl)
             eq_refl eq_refl eq_refl).
  - destruct (backoffSteps_stays_clamped cfg (PollLoop.answersOk "2025-10-16") st Hb)
      as (_ & _ & _ & Hgood & _).
    refine (Hgood (Hp (PollLoop.answersOk "2025-10-16") eq_refl) eq_refl _).
    repeat split. by exists 24500.
Defined.

Lemma onTickError_returns e st : (PollLoop.onTickError e st).2 = Returned ().
Proof. unfold_tick. by destruct (PollLoop.isTransient _). Qed.

(** The guarded section swallows every error and leaves [inFlight]
    cleared, whatever the state it is entered in. *)
Lemma guarded_clears_inFlight cfg w st :
  PollLoop.inFlight (PollLoop.guarded cfg w st).1.1 = false ∧
  (PollLoop.guarded cfg w st).2 = Returned ().
Proof.
  unfold PollLoop.guarded, PollLoop.tryFinally, PollLoop.tryCatch.
  destruct (PollLoop.tickBody cfg w st) as [[st1 tr1] [[]|e]]; [done|].
  pose proof (onTickError_returns e st1) as He.
  destruct (PollLoop.onTickError e st1) as [[st2 tr2] out]. simpl in *.
  by subst.
Qed.

Lemma tickOnce_proceeds cfg w st :
  PollLoop.proceeds cfg w st →
  PollLoop.tickOnce cfg w st =
    let '(st', tr, out) :=
      PollLoop.guarded cfg w
        (PollLoop.mkFeed (PollLoop.stopped st) true (PollLoop.backoffSteps st)
           (PollLoop.expiry st) (PollLoop.lastExpiryResolveDayKey st)
           (PollLoop.lastClosedLog st)) in
    (st', tr, out).
Proof.
  intros (Hs & Hf & Hopen). destruct st as [s f b ex dk cl].
  cbn in Hs, Hf. subst s f. unfold PollLoop.tickOnce.
  cbv [mbind PollLoop.M_bind PollLoop.read].
  cbn [orb PollLoop.stopped PollLoop.inFlight PollLoop.backoffSteps PollLoop.expiry
       PollLoop.lastExpiryResolveDayKey PollLoop.lastClosedLog].
  assert (PollLoop.MARKET_HOURS_ONLY cfg && negb (PollLoop.marketOpen w) = false)
    as -> by (destruct Hopen as [->| ->]; [done | by rewrite andb_false_r]).
  fold (PollLoop.guarded cfg w). unfold PollLoop.setInFlight, PollLoop.write.
  cbn [PollLoop.stopped PollLoop.inFlight PollLoop.backoffSteps PollLoop.expiry
       PollLoop.lastExpiryResolveDayKey PollLoop.lastClosedLog].
  by destruct (PollLoop.guarded _ _ _) as [[? ?] ?].
Qed.

(** C8.  A tick that starts while [inFlight] is set does nothing: it has
    no effect on the outside world (no upstream call, no store write,
    not even a log line) and returns the feed state as it found it.  A
    tick that gets past the guards runs the guarded section with
    [inFlight] set, and whatever the world answers it ends, without
    throwing, with [inFlight] cleared. *)
Theorem tickOnce_reentrancy_guard (cfg : PollLoop.Config) (w : PollLoop.World)
    (st : PollLoop.Feed) :
  (PollLoop.inFlight st = true →
     PollLoop.tickOnce cfg w st = (st, [], Returned ())) ∧
  (PollLoop.proceeds cfg w st →
     PollLoop.inFlight (PollLoop.after cfg w st) = false ∧
     (PollLoop.tickOnce cfg w st).2 = Returned () ∧
     PollLoop.tickOnce cfg w st =
       PollLoop.guarded cfg w
         (PollLoop.mkFeed (PollLoop.stopped st) true (PollLoop.backoffSteps st)
            (PollLoop.expiry st) (PollLoop.lastExpiryResolveDayKey st)
            (PollLoop.lastClosedLog st))) ∧
  (PollLoop.inFlight st = false →
     PollLoop.inFlight (PollLoop.after cfg w st) = false).
Proof.
  split_and!.
  - intros Hf. unfold PollLoop.tickOnce. cbv [mbind PollLoop.M_bind PollLoop.read].
    rewrite Hf, orb_true_r. reflexivity.
  - intros Hp. unfold PollLoop.after. rewrite (tickOnce_proceeds _ _ _ Hp).
    destruct (guarded_clears_inFlight cfg w
      (PollLoop.mkFeed (PollLoop.stopped st) true (PollLoop.backoffSteps st)
         (PollLoop.expiry st) (PollLoop.lastExpiryResolveDayKey st)
         (PollLoop.lastClosedLog st))) as [Hclr Hret].
    by destruct (PollLoop.guarded _ _ _) as [[? ?] ?].
  - intros Hf. destruct (PollLoop.stopped st) eqn:Hs.
    { unfold PollLoop.after, PollLoop.tickOnce.
      cbv [mbind PollLoop.M_bind PollLoop.read]. by rewrite Hs. }
    destruct (PollLoop.MARKET_HOURS_ONLY cfg && negb (PollLoop.marketOpen w)) eqn:Hgate.
    { unfold PollLoop.after, PollLoop.tickOnce.
      cbv [mbind PollLoop.M_bind PollLoop.read]. rewrite Hs, Hf, Hgate. cbn [orb].
      destruct (_ <? _); by unfold_tick. }
    assert (PollLoop.proceeds cfg w st) as Hp.
    { repeat split; [done..|]. apply andb_false_iff in Hgate as [->|Hopen]; [by left|].
      right. by apply negb_false_iff. }
    unfold PollLoop.after. rewrite (tickOnce_proceeds _ _ _ Hp).
    destruct (guarded_clears_inFlight cfg w
      (PollLoop.mkFeed (PollLoop.stopped st) true (PollLoop.backoffSteps st)
         (PollLoop.expiry st) (PollLoop.lastExpiryResolveDayKey st)
         (PollLoop.lastClosedLog st))) as [Hclr Hret].
    by destruct (PollLoop.guarded _ _ _) as [[? ?] ?].
Qed.

(** A tick arriving mid-flight with three backoff steps, and the same
    feed ticking on a world that answers 503. *)
Lemma tickOnce_reentrancy_guard_witness :
  let cfg := PollLoop.mkConfig true true in
  let busy := PollLoop.mkFeed false true 3 (Some "2025-10-28") "2025-10-16" 0 in
  let free := PollLoop.mkFeed false false 3 (Some "2025-10-28") "2025-10-16" 0 in
  PollLoop.tickOnce cfg (PollLoop.answersOk "2025-10-17") busy = (busy, [], Returned ()) ∧
  PollLoop.inFlight (PollLoop.after cfg (PollLoop.answers503 "2025-10-16") free) = false.
Proof.
  intros cfg busy free. split.
  - exact (proj1 (tickOnce_reentrancy_guard cfg (PollLoop.answersOk "2025-10-17") busy)
             eq_refl).
  - exact (proj2 (proj2 (tickOnce_reentrancy_guard cfg
                           (PollLoop.answers503 "2025-10-16") free)) eq_refl).
Defined.

(* ===================================================================== *)
(** ** [Array.prototype.sort]                                            *)
(* ===================================================================== *)

Section SortFacts.
Context {A : Type} (cmp : A → A → Js.number).

Lemma insert_Permutation x (l : list A) : Js.insert cmp x l ≡ₚ x :: l.
Proof.
  induction l as [|y l IH]; [done|]. simpl.
  destruct (Js.positive _); [|done].
  rewrite IH. apply Permutation_swap.
Qed.

Lemma sort_Permutation (l : list A) : Js.sort cmp l ≡ₚ l.
Proof.
  induction l as [|x l IH]; [done|]. simpl.
  by rewrite insert_Permutation, IH.
Qed.

Lemma sort_elem_of x (l : list A) : x ∈ Js.sort cmp l ↔ x ∈ l.
Proof. by rewrite sort_Permutation. Qed.

Lemma sort_length (l : list A) : length (Js.sort cmp l) = length l.
Proof. apply Permutation_length, sort_Permutation. Qed.

(** Two comparators that agree in sign on the elements sort alike. *)
Lemma insert_ext_in cmp' x (l : list A) :
  (∀ y, y ∈ l → Js.positive (cmp x y) = Js.positive (cmp' x y)) →
  Js.insert cmp x l = Js.insert cmp' x l.
Proof.
  induction l as [|y l IH]; intros Hagree; [done|]. simpl.
  rewrite <- (Hagree y) by left.
  destruct (Js.positive _); [|done].
  f_equal. apply IH. intros z Hz. apply Hagree. by right.
Qed.

Lemma sort_ext_in cmp' (l : list A) :
  (∀ x y, x ∈ l → y ∈ l → Js.positive (cmp x y) = Js.positive (cmp' x y)) →
  Js.sort cmp l = Js.sort cmp' l.
Proof.
  induction l as [|x l IH]; intros Hagree; [done|]. simpl.
  rewrite <- IH by (intros y z Hy Hz; apply Hagree; by right).
  apply insert_ext_in. intros y Hy. apply Hagree; [by left|].
  apply elem_of_cons. right. by apply (proj1 (sort_elem_of y l)).
Qed.

(** With a comparator that is a total preorder the result is sorted,
    and it is the same for every arrangement of the input in which no
    two different elements compare as equal. *)
Section TotalPreorder.
Hypothesis cmp_trans : Transitive (Js.inOrder cmp).
Hypothesis cmp_total : ∀ a b, Js.inOrder cmp a b ∨ Js.inOrder cmp b a.

Lemma insert_StronglySorted x (l : list A) :
  StronglySorted (Js.inOrder cmp) l →
  StronglySorted (Js.inOrder cmp) (Js.insert cmp x l).
Proof.
  induction 1 as [|y l Hsorted IH Hy]; simpl.
  { repeat constructor. }
  destruct (Js.positive (cmp x y)) eqn:Hxy.
  - constructor; [done|].
    rewrite insert_Permutation. constructor; [|done].
    destruct (cmp_total x y) as [Hin|Hin]; [|done].
    unfold Js.inOrder in Hin. congruence.
  - constructor; [by constructor|].
    constructor; [done|].
    eapply Forall_impl; [exact Hy|]. intros z Hz.
    by transitivity y.
Qed.

Lemma sort_StronglySorted (l : list A) :
  StronglySorted (Js.inOrder cmp) (Js.sort cmp l).
Proof.
  induction l as [|x l IH]; simpl; [constructor|].
  by apply insert_StronglySorted.
Qed.

Lemma sort_unique (l1 l2 : list A) :
  l1 ≡ₚ l2 →
  (∀ x y, x ∈ l1 → y ∈ l1 →
     Js.inOrder cmp x y → Js.inOrder cmp y x → x = y) →
  Js.sort cmp l1 = Js.sort cmp l2.
Proof.
  intros Hperm Hanti.
  apply (StronglySorted_unique_strong (Js.inOrder cmp)).
  - intros x y Hx Hy. apply Hanti.
    + by apply (proj1 (sort_elem_of x l1)).
    + rewrite Hperm. by apply (proj1 (sort_elem_of y l2)).
  - apply sort_StronglySorted.
  - apply sort_StronglySorted.
  - by rewrite !sort_Permutation.
Qed.
End TotalPreorder.
End SortFacts.

Lemma StronglySorted_weaken {A} (R R' : relation A) (l : list A) :
  (∀ a b, a ∈ l → b ∈ l → R a b → R' a b) →
  StronglySorted R l → StronglySorted R' l.
Proof.
  intros Himpl Hsorted. induction Hsorted as [|x l Hsorted IH Hx]; constructor.
  - apply IH. intros a b Ha Hb. apply Himpl; by right.
  - apply Forall_forall. intros y Hy. apply Himpl; [by left|by right|].
    by eapply Forall_forall in Hx.
Qed.

(** In a sorted list the first element that passes a test comes before
    every other element that passes it, and the last element comes after
    all. *)
Lemma find_StronglySorted_least {A} (R : relation A) `{!Reflexive R}
    (p : A → bool) (l : list A) (e : A) :
  StronglySorted R l → List.find p l = Some e →
  ∀ y, y ∈ l → p y = true → R e y.
Proof.
  induction 1 as [|x l Hsorted IH Hx]; [done|]. simpl.
  destruct (p x) eqn:Hpx.
  - intros [= <-] y Hy _. apply elem_of_cons in Hy as [->|Hy]; [done|].
    by eapply Forall_forall in Hx.
  - intros Hfind y Hy Hpy. apply elem_of_cons in Hy as [->|Hy]; [congruence|].
    by apply IH.
Qed.

Lemma last_StronglySorted_greatest {A} (R : relation A) `{!Reflexive R}
    (l : list A) (e : A) :
  StronglySorted R l → last l = Some e → ∀ y, y ∈ l → R y e.
Proof.
  induction 1 as [|x l Hsorted IH Hx]; [done|].
  intros Hlast y Hy. destruct l as [|x' l'].
  - simpl in Hlast. apply list_elem_of_singleton in Hy. by simplify_eq.
  - rewrite last_cons_cons in Hlast.
    apply elem_of_cons in Hy as [->|Hy]; [|by apply IH].
    eapply Forall_forall in Hx; [exact Hx|].
    by apply last_Some_elem_of.
Qed.

(* ===================================================================== *)
(** ** Nearest expiry                                                    *)
(* ===================================================================== *)

Lemma lex_le_refl a : Expiry.lex_le a a.
Proof.
  unfold Expiry.lex_le.
  pose proof (proj2 (OrderedTypeEx.String_as_OT.cmp_eq a a) eq_refl) as Haa.
  unfold OrderedTypeEx.String_as_OT.cmp in Haa. by rewrite Haa.
Qed.

#[local] Instance lex_le_reflexive : Reflexive Expiry.lex_le := lex_le_refl.

Lemma lex_le_trans a b c :
  Expiry.lex_le a b → Expiry.lex_le b c → Expiry.lex_le a c.
Proof.
  unfold Expiry.lex_le. intros Hab Hbc.
  destruct (String.compare a b) eqn:Eab; [| |done].
  { apply String.compare_eq_iff in Eab. by subst. }
  destruct (String.compare b c) eqn:Ebc; [| |done].
  { apply String.compare_eq_iff in Ebc. by subst; rewrite Eab. }
  apply OrderedTypeEx.String_as_OT.cmp_lt in Eab, Ebc.
  pose proof (OrderedTypeEx.String_as_OT.lt_trans _ _ _ Eab Ebc) as Hac.
  apply OrderedTypeEx.String_as_OT.cmp_lt in Hac.
  unfold OrderedTypeEx.String_as_OT.cmp in Hac. by rewrite Hac.
Qed.

Lemma lex_le_total a b : Expiry.lex_le a b ∨ Expiry.lex_le b a.
Proof.
  unfold Expiry.lex_le. rewrite (String.compare_antisym b a).
  destruct (String.compare a b); simpl; (by left) || (by right).
Qed.

Lemma defaultCmp_inOrder a b :
  Js.inOrder Expiry.defaultCmp a b ↔ Expiry.lex_le a b.
Proof.
  unfold Js.inOrder, Expiry.defaultCmp, Expiry.lex_le.
  by destruct (String.compare a b).
Qed.

Lemma str_ge_lex_le e today :
  Expiry.str_ge e today = true ↔ Expiry.lex_le today e.
Proof.
  unfold Expiry.str_ge, Expiry.lex_le. rewrite (String.compare_antisym today e).
  by destruct (String.compare e today).
Qed.

Lemma sort_defaultCmp_sorted (l : list string) :
  StronglySorted Expiry.lex_le (Js.sort Expiry.defaultCmp l).
Proof.
  eapply StronglySorted_weaken; [|apply sort_StronglySorted].
  - intros a b _ _. apply defaultCmp_inOrder.
  - intros a b c. rewrite !defaultCmp_inOrder. apply lex_le_trans.
  - intros a b. rewrite !defaultCmp_inOrder. apply lex_le_total.
Qed.

(** C10.  [pickNearestExpiry] answers [null] exactly when the list is
    missing or empty.  For a non-empty list it answers one of the list's
    own strings: the smallest, in code-unit order, of those on or after
    today when there is one, and the largest string of the list when all
    are before today. *)
Theorem pickNearestExpiry_nearest (today : string) (expiries : option (list string)) :
  (Expiry.pickNearestExpiry today expiries = None ↔
     expiries = None ∨ expiries = Some []) ∧
  (∀ l, expiries = Some l → l ≠ [] →
     ∃ e, Expiry.pickNearestExpiry today expiries = Some e ∧ e ∈ l ∧
          ((∃ x, x ∈ l ∧ Expiry.lex_le today x) →
             Expiry.lex_le today e ∧
             ∀ y, y ∈ l → Expiry.lex_le today y → Expiry.lex_le e y) ∧
          ((∀ x, x ∈ l → ¬ Expiry.lex_le today x) →
             ∀ y, y ∈ l → Expiry.lex_le y e)).
Proof.
  assert (∀ l, l ≠ [] →
     ∃ e, Expiry.pickNearestExpiry today (Some l) = Some e ∧ e ∈ l ∧
          ((∃ x, x ∈ l ∧ Expiry.lex_le today x) →
             Expiry.lex_le today e ∧
             ∀ y, y ∈ l → Expiry.lex_le today y → Expiry.lex_le e y) ∧
          ((∀ x, x ∈ l → ¬ Expiry.lex_le today x) →
             ∀ y, y ∈ l → Expiry.lex_le y e)) as Hmain.
  { intros l Hne.
    pose proof (sort_defaultCmp_sorted l) as Hsorted.
    pose proof (sort_elem_of Expiry.defaultCmp) as Hmem.
    assert (Expiry.pickNearestExpiry today (Some l) =
            match List.find (λ e, Expiry.str_ge e today) (Js.sort Expiry.defaultCmp l) with
            | Some e => Some e
            | None => last (Js.sort Expiry.defaultCmp l)
            end) as -> by (by destruct l).
    destruct (List.find _ _) as [e|] eqn:Hfind.
    - pose proof (find_some _ _ Hfind) as [Hin Hge].
      apply (proj2 (list_elem_of_In _ _)), (proj1 (Hmem _ _)) in Hin.
      apply (proj1 (str_ge_lex_le _ _)) in Hge.
      exists e. split_and!; [done..| |].
      + intros _. split; [done|]. intros y Hy Hty.
        eapply (find_StronglySorted_least Expiry.lex_le); [exact Hsorted|exact Hfind| |].
        * by apply (proj2 (Hmem _ _)).
        * by apply (proj2 (str_ge_lex_le _ _)).
      + intros Hnone. destruct (Hnone e Hin Hge).
    - destruct (last (Js.sort Expiry.defaultCmp l)) as [e|] eqn:Hlast.
      2:{ apply last_None in Hlast. apply (f_equal length) in Hlast.
          rewrite sort_length in Hlast. by destruct l. }
      exists e. split_and!; [done| | |].
      + apply (proj1 (Hmem _ _)). by apply last_Some_elem_of.
      + intros (x & Hx & Htx). exfalso.
        apply (proj2 (Hmem _ _)), (proj1 (list_elem_of_In _ _)) in Hx.
        pose proof (find_none _ _ Hfind x Hx) as Hno. simpl in Hno.
        apply (proj2 (str_ge_lex_le _ _)) in Htx. congruence.
      + intros _ y Hy.
        eapply (last_StronglySorted_greatest Expiry.lex_le); [exact Hsorted|exact Hlast|].
        by apply (proj2 (Hmem _ _)). }
  split.
  - destruct expiries as [[|x l]|].
    + split; [by right | done].
    + split; [|by intros [?|?]].
      intros Hnone. destruct (Hmain (x :: l)) as (e & He & _); [done|].
      congruence.
    + split; [by left | done].
  - intros l -> Hne. by apply Hmain.
Qed.

(** Today between two of three expiries. *)
Lemma pickNearestExpiry_nearest_witness :
  let l := ["2025-10-28"; "2025-10-14"; "2025-10-21"]%string in
  ∃ e, Expiry.pickNearestExpiry "2025-10-16" (Some l) = Some e ∧ e ∈ l ∧
       Expiry.lex_le "2025-10-16" e ∧
       ∀ y, y ∈ l → Expiry.lex_le "2025-10-16" y → Expiry.lex_le e y.
Proof.
  intros l.
  destruct (pickNearestExpiry_nearest "2025-10-16" (Some l)) as [_ Hsome].
  destruct (Hsome l eq_refl ltac:(discriminate)) as (e & He & Hin & Hge & _).
  exists e. split; [exact He|]. split; [exact Hin|].
  apply Hge. exists "2025-10-28"%string. split; [left | vm_compute; discriminate].
Defined.

(* ===================================================================== *)
(** ** Pacing gate                                                       *)
(* ===================================================================== *)

Section PacingGateFacts.
Import PacingGate.
Variable globalMinGapMs : Z.
Variable queueGapMs : nat → Z.

Abbreviation dispatchOne := (PacingGate.dispatchOne globalMinGapMs queueGapMs).
Abbreviation dispatchAll := (PacingGate.dispatchAll globalMinGapMs queueGapMs).

Lemma dispatchOne_start g t :
  watermark g ≤ (dispatchOne g t).2 ∧ readyAt t ≤ (dispatchOne g t).2 ∧
  clock g ≤ (dispatchOne g t).2.
Proof. unfold PacingGate.dispatchOne. simpl. lia. Qed.

(** Every task comes out, once, in the order of arrival. *)
Lemma dispatchAll_tasks ts : ∀ g, (dispatchAll g ts).*1 = ts.
Proof.
  induction ts as [|t ts IH]; intros g; [done|].
  simpl. by rewrite IH.
Qed.

(** No dispatch starts before the gate's watermark or its clock, or
    before its task has arrived. *)
Lemma dispatchAll_not_early ts : ∀ g i t s,
  dispatchAll g ts !! i = Some (t, s) →
  readyAt t ≤ s ∧ (0 ≤ globalMinGapMs → watermark g ≤ s).
Proof.
  induction ts as [|t0 ts IH]; intros g i t s Hi; [done|].
  destruct i as [|i]; simpl in Hi.
  - simplify_eq. pose proof (dispatchOne_start g t) as (Hw & Hr & _).
    split; [exact Hr | intros _; exact Hw].
  - destruct (IH _ _ _ _ Hi) as [Hready Hwm]. split; [done|].
    intros Hgap. specialize (Hwm Hgap). simpl in Hwm.
    pose proof (dispatchOne_start g t0) as (? & _). simpl in *. lia.
Qed.

Lemma dispatchAll_consecutive ts : ∀ g i a b,
  (dispatchAll g ts).*2 !! i = Some a →
  (dispatchAll g ts).*2 !! S i = Some b →
  globalMinGapMs ≤ b - a.
Proof.
  induction ts as [|t0 ts IH]; intros g i a b Ha Hb; [done|].
  destruct i as [|i].
  - destruct ts as [|t1 ts]; [done|]. simpl in Ha, Hb. simplify_eq. lia.
  - simpl in Ha, Hb. by eapply IH.
Qed.

Lemma dispatchAll_any_two ts : ∀ g i j a b,
  0 ≤ globalMinGapMs → (i < j)%nat →
  (dispatchAll g ts).*2 !! i = Some a →
  (dispatchAll g ts).*2 !! j = Some b →
  globalMinGapMs ≤ b - a.
Proof.
  induction ts as [|t0 ts IH]; intros g i j a b Hgap Hij Ha Hb; [done|].
  destruct j as [|j]; [lia|]. destruct i as [|i].
  - simpl in Ha, Hb. simplify_eq.
    rewrite list_lookup_fmap in Hb.
    destruct (dispatchAll _ ts !! j) as [[t s]|] eqn:Hj; [|done].
    simpl in Hb. simplify_eq.
    apply dispatchAll_not_early in Hj as [_ Hwm]. specialize (Hwm Hgap).
    simpl in Hwm. lia.
  - simpl in Ha, Hb. eapply IH; [done| |done..]. lia.
Qed.

(** C9.  Whatever tasks are submitted, on whatever sub-queues and at
    whatever times, the gate dispatches every one of them, once and in
    arrival order (none is dropped), never before the task has reached
    the gate, and the start times of consecutive dispatches are at
    least the global minimum gap apart; with a gap that is not negative
    the same holds for any two dispatches. *)
Theorem gate_spaces_dispatches (g : Gate) (ts : list Task) :
  (dispatchAll g ts).*1 = ts ∧
  (∀ i t s, dispatchAll g ts !! i = Some (t, s) → readyAt t ≤ s) ∧
  (∀ i a b, (dispatchAll g ts).*2 !! i = Some a →
            (dispatchAll g ts).*2 !! S i = Some b →
            globalMinGapMs ≤ b - a) ∧
  (0 ≤ globalMinGapMs →
   ∀ i j a b, (i < j)%nat →
              (dispatchAll g ts).*2 !! i = Some a →
              (dispatchAll g ts).*2 !! j = Some b →
              globalMinGapMs ≤ b - a).
Proof.
  split_and!.
  - apply dispatchAll_tasks.
  - intros i t s Hi. by apply dispatchAll_not_early in Hi as [? _].
  - apply dispatchAll_consecutive.
  - intros Hgap i j a b. by apply dispatchAll_any_two.
Qed.
End PacingGateFacts.

(** Two sub-queues submitting at once under a gap of 3000 ms. *)
Lemma gate_spaces_dispatches_witness :
  let ts := [PacingGate.mkTask 0 0; PacingGate.mkTask 1 0;
             PacingGate.mkTask 0 10000; PacingGate.mkTask 1 10001] in
  let ds := PacingGate.dispatchAll 3000 (λ _, 0) (PacingGate.idle 0) ts in
  ds.*2 = [0; 3000; 10000; 13000] ∧ 3000 ≤ 13000 - 10000 ∧ 3000 ≤ 10000 - 0.
Proof.
  intros ts ds.
  destruct (gate_spaces_dispatches 3000 (λ _, 0) (PacingGate.idle 0) ts)
    as (_ & _ & Hnext & Hany).
  split; [reflexivity|]. split.
  - exact (Hnext 2%nat 10000 13000 eq_refl eq_refl).
  - exact (Hany ltac:(lia) 0%nat 2%nat 0 10000 ltac:(lia) eq_refl eq_refl).
Defined.

(* ===================================================================== *)
(** ** Level selector                                                    *)
(* ===================================================================== *)

Section LevelSelectorFacts.
Import Js LevelSelector.

(** *** Regimes *)






Lemma elem_of_posRows r rows :
  r ∈ posRows rows ↔ r ∈ rows ∧ valid r = true ∧ isPos r = true.
Proof.
  unfold posRows. rewrite !list_elem_of_filter, !Is_true_true. tauto.
Qed.

Lemma elem_of_negRows r rows :
  r ∈ negRows rows ↔ r ∈ rows ∧ valid r = true ∧ isNeg r = true.
Proof.
  unfold negRows. rewrite !list_elem_of_filter, !Is_true_true. tauto.
Qed.

(** *** Rank maps *)

Lemma setRanks_lookup_other (l : list GexRow) : ∀ i m k,
  k ∉ strike <$> l → setRanks l i m !! k = m !! k.
Proof.
  induction l as [|x l IH]; intros i m k Hk; [done|]. simpl.
  rewrite fmap_cons, not_elem_of_cons in Hk. destruct Hk as [Hne Hk].
  rewrite IH by done. by rewrite lookup_insert_ne.
Qed.

Lemma setRanks_lookup (l : list GexRow) : ∀ i m r,
  NoDup (strike <$> l) → r ∈ l →
  setRanks l i m !! strike r = Some (i + placeIn l r).
Proof.
  induction l as [|x l IH]; intros i m r Hnd Hr; [by apply elem_of_nil in Hr|].
  rewrite fmap_cons in Hnd. apply NoDup_cons in Hnd as [Hx Hnd]. simpl.
  destruct (decide (x = r)) as [->|Hne].
  - rewrite setRanks_lookup_other by done. by rewrite lookup_insert_eq.
  - apply elem_of_cons in Hr as [->|Hr]; [done|].
    rewrite (IH _ _ _ Hnd Hr). f_equal. lia.
Qed.

Lemma rankMap_place regime key desc r :
  NoDup (strike <$> regime) → r ∈ regime →
  rankMap regime key desc !! strike r
  = Some (placeIn (rankedBy key desc regime) r).
Proof.
  intros Hnd Hr. unfold rankMap, rankedBy.
  rewrite setRanks_lookup.
  - done.
  - by rewrite sort_Permutation.
  - by apply (proj2 (sort_elem_of _ _ _)).
Qed.


Lemma topTwo_guard (regime : list GexRow) (scored : list Scored) l1 l2 c1 c2 sd :
  length scored = length regime →
  match regime with [] => [] | _ => topTwo scored l1 l2 c1 c2 sd end
  = topTwo scored l1 l2 c1 c2 sd.
Proof. destruct regime, scored; done. Qed.

Lemma scoredSorted_length regime desc :
  length (scoredSorted regime desc) = length regime.
Proof. unfold scoredSorted. by rewrite sort_length, length_fmap. Qed.


(** *** The two orders *)

Lemma scoredCmp_inOrder a b : inOrder scoredCmp a b ↔ scoredLe a b.
Proof.
  unfold inOrder, scoredCmp, scoredLe, or_else, positive.
  destruct (score a - score b) as [|p|p] eqn:Es;
    [destruct (oiR a - oiR b) as [|q|q] eqn:Eo|..];
    rewrite ?Z.ltb_ge; split; intros Hle; try discriminate; try done; lia.
Qed.

Lemma scoredLe_trans : Transitive (inOrder scoredCmp).
Proof.
  intros a b c. rewrite !scoredCmp_inOrder. unfold scoredLe. lia.
Qed.

Lemma scoredLe_total a b : inOrder scoredCmp a b ∨ inOrder scoredCmp b a.
Proof. rewrite !scoredCmp_inOrder. unfold scoredLe. lia. Qed.


Lemma rankCmp_valueCmp key desc a b :
  finite (get key a) = true → finite (get key b) = true →
  positive (rankCmp key desc a b) = positive (valueCmp key desc a b).
Proof.
  unfold rankCmp, valueCmp, valueOf.
  by destruct (get key a) as [x| | |], (get key b) as [y| | |], desc.
Qed.

Lemma valueCmp_inOrder key desc a b :
  inOrder (valueCmp key desc) a b ↔
  if desc then valueOf key b ≤ valueOf key a else valueOf key a ≤ valueOf key b.
Proof.
  unfold inOrder, valueCmp, positive. destruct desc; rewrite Z.ltb_ge; lia.
Qed.

Lemma valueCmp_trans key desc : Transitive (inOrder (valueCmp key desc)).
Proof. intros a b c. rewrite !valueCmp_inOrder. destruct desc; lia. Qed.

Lemma valueCmp_total key desc a b :
  inOrder (valueCmp key desc) a b ∨ inOrder (valueCmp key desc) b a.
Proof. rewrite !valueCmp_inOrder. destruct desc; lia. Qed.

(** On rows with finite values [rankMap]'s sort is the sort by value. *)
Lemma sort_rankCmp_valueCmp key desc (l : list GexRow) :
  (∀ r, r ∈ l → finite (get key r) = true) →
  sort (rankCmp key desc) l = sort (valueCmp key desc) l.
Proof.
  intros Hfin. apply sort_ext_in. intros a b Ha Hb.
  apply rankCmp_valueCmp; by apply Hfin.
Qed.


Lemma valid_finite r key : valid r = true → finite (get key r) = true.
Proof.
  unfold valid. rewrite !andb_true_iff. intros [[[_ Hoi] Hvol] _].
  by destruct key.
Qed.

Lemma posRows_finite rows key r : r ∈ posRows rows → finite (get key r) = true.
Proof. rewrite elem_of_posRows. intros (_ & Hv & _). by apply valid_finite. Qed.

Lemma negRows_finite rows key r : r ∈ negRows rows → finite (get key r) = true.
Proof. rewrite elem_of_negRows. intros (_ & Hv & _). by apply valid_finite. Qed.
End LevelSelectorFacts.




(** In a list whose images under [f] are pairwise distinct, [f] is
    injective on the members. *)
Lemma NoDup_fmap_member_inj {A B} (f : A → B) (l : list A) x y :
  NoDup (f <$> l) → x ∈ l → y ∈ l → f x = f y → x = y.
Proof.
  induction l as [|z l IH]; intros Hnd Hx Hy Hf; [by apply elem_of_nil in Hx|].
  rewrite fmap_cons in Hnd. apply NoDup_cons in Hnd as [Hz Hnd].
  apply elem_of_cons in Hx as [->|Hx]; apply elem_of_cons in Hy as [->|Hy].
  - done.
  - destruct Hz. rewrite Hf. by apply list_elem_of_fmap_2.
  - destruct Hz. rewrite <- Hf. by apply list_elem_of_fmap_2.
  - by apply IH.
Qed.

Section LevelFacts.
Import Js LevelSelector.

Lemma topTwo_elem mk scored l1 l2 c1 c2 sd :
  mk ∈ topTwo scored l1 l2 c1 c2 sd →
  (label mk = l1 ∨ label mk = l2) ∧
  ∃ sc, sc ∈ scored ∧ mark_strike mk = sc_strike sc.
Proof.
  destruct scored as [|a [|b rest]]; simpl; intros Hmk.
  - by apply elem_of_nil in Hmk.
  - apply list_elem_of_singleton in Hmk as ->. split; [by left|].
    exists a. split; [by left|done].
  - apply elem_of_cons in Hmk as [->|Hmk].
    + split; [by left|]. exists a. split; [by left|done].
    + apply list_elem_of_singleton in Hmk as ->. split; [by right|].
      exists b. split; [by right; left|done].
Qed.

Lemma scoredSorted_elem sc regime desc :
  sc ∈ scoredSorted regime desc → ∃ r, r ∈ regime ∧ sc_strike sc = strike r.
Proof.
  unfold scoredSorted. intros Hsc.
  apply (proj1 (sort_elem_of _ _ _)) in Hsc.
  apply list_elem_of_fmap in Hsc as (r & -> & Hr). by exists r.
Qed.

Lemma red_elem mk rows :
  mk ∈ red (pickLinesByRaw rows) →
  (label mk = R1 ∨ label mk = R2) ∧
  ∃ r, r ∈ posRows rows ∧ strike r = mark_strike mk.
Proof.
  unfold pickLinesByRaw. cbn [red].
  rewrite topTwo_guard by apply scoredSorted_length.
  intros Hmk. apply topTwo_elem in Hmk as [Hl (sc & Hsc & ->)].
  split; [done|]. apply scoredSorted_elem in Hsc as (r & Hr & ->). by exists r.
Qed.

Lemma green_elem mk rows :
  mk ∈ green (pickLinesByRaw rows) →
  (label mk = S1 ∨ label mk = S2) ∧
  ∃ r, r ∈ negRows rows ∧ strike r = mark_strike mk.
Proof.
  unfold pickLinesByRaw. cbn [green].
  rewrite topTwo_guard by apply scoredSorted_length.
  intros Hmk. apply topTwo_elem in Hmk as [Hl (sc & Hsc & ->)].
  split; [done|]. apply scoredSorted_elem in Hsc as (r & Hr & ->). by exists r.
Qed.

Lemma strikeOf_Some marks nm s :
  strikeOf marks nm = Some s →
  ∃ mk, mk ∈ marks ∧ mark_strike mk = s ∧ label mk = nm.
Proof.
  unfold strikeOf. destruct (List.find _ marks) as [mk|] eqn:Hfind; [|done].
  intros [= <-]. apply find_some in Hfind as [Hin Hlabel].
  exists mk. split; [by apply list_elem_of_In|]. split; [done|].
  by apply bool_decide_eq_true in Hlabel.
Qed.

Lemma elem_of_pushLevel lv rows nm s0 sd :
  lv ∈ pushLevel rows nm s0 sd →
  name lv = nm ∧ s0 = Some (level_strike lv) ∧
  level_gex_oi_raw lv = gex_oi_raw <$> getRow rows s0 ∧
  level_gex_vol_raw lv = gex_vol_raw <$> getRow rows s0 ∧
  side lv = sd.
Proof.
  unfold pushLevel. destruct s0 as [[s| | |]|]; intros Hlv;
    try by apply elem_of_nil in Hlv.
  by apply list_elem_of_singleton in Hlv as ->.
Qed.

(** With distinct strikes [getRow] finds the one row of a strike. *)
Lemma find_strike_unique rows r s :
  NoDup (strike <$> rows) → r ∈ rows → strike r = Fin s →
  List.find (λ x, strict_eq (strike x) (Fin s)) rows = Some r.
Proof.
  induction rows as [|x rows IH]; intros Hnd Hr Hs; [by apply elem_of_nil in Hr|].
  rewrite fmap_cons in Hnd. apply NoDup_cons in Hnd as [Hx Hnd]. simpl.
  destruct (strict_eq (strike x) (Fin s)) eqn:Hxs.
  - assert (strike x = Fin s) as Hxs'.
    { destruct (strike x) as [z| | |]; try done. simpl in Hxs.
      apply Z.eqb_eq in Hxs. by subst. }
    apply elem_of_cons in Hr as [->|Hr]; [done|].
    destruct Hx. rewrite Hxs', <- Hs. by apply list_elem_of_fmap_2.
  - apply elem_of_cons in Hr as [->|Hr]; [|by apply IH].
    rewrite Hs in Hxs. simpl in Hxs. by rewrite Z.eqb_refl in Hxs.
Qed.

Lemma getRow_exact rows r s :
  NoDup (strike <$> rows) → r ∈ rows → strike r = Fin s →
  getRow rows (Some (Fin s)) = Some r.
Proof.
  intros Hnd Hr Hs. unfold getRow. by rewrite (find_strike_unique _ r).
Qed.

Lemma valid_not_both_zero r :
  valid r = true → ¬ (gex_oi_raw r = Fin 0 ∧ gex_vol_raw r = Fin 0).
Proof.
  unfold valid. rewrite !andb_true_iff, negb_true_iff.
  intros [_ Hz] [Hoi Hvol]. by rewrite Hoi, Hvol in Hz.
Qed.

(** A level other than Flip sits on the strike of a row of its regime. *)
Lemma level_from_regime rows lv :
  lv ∈ computeLevels rows → name lv ≠ Flip →
  ∃ r, r ∈ rows ∧ strike r = level_strike lv ∧ valid r = true ∧
       (((name lv = R1 ∨ name lv = R2) ∧ isPos r = true) ∨
        ((name lv = S1 ∨ name lv = S2) ∧ isNeg r = true)).
Proof.
  unfold computeLevels. rewrite !elem_of_app.
  intros [Hlv|[Hlv|[Hlv|[Hlv|Hlv]]]] Hflip;
    apply elem_of_pushLevel in Hlv as (Hname & Hs & _); [..|done];
    apply strikeOf_Some in Hs as (mk & Hmk & Hstrike & _).
  1,2: apply red_elem in Hmk as [_ (r & Hr & Hrs)];
       apply elem_of_posRows in Hr as (Hin & Hv & Hp);
       exists r; split_and!; [done|congruence|done|];
       left; split; [|done]; rewrite Hname; ((by left) || (by right)).
  1,2: apply green_elem in Hmk as [_ (r & Hr & Hrs)];
       apply elem_of_negRows in Hr as (Hin & Hv & Hp);
       exists r; split_and!; [done|congruence|done|];
       right; split; [|done]; rewrite Hname; ((by left) || (by right)).
Qed.
End LevelFacts.

(** What the filter of [pickLinesByRaw] achieves.  Each of R1, R2, S1
    and S2 sits on the strike of a row that passed the filter and
    belongs to the level's regime, so both exposures of that row are
    non-zero and of one sign.  When the strikes of the input are
    pairwise distinct, no zero-exposure row has the strike of such a
    level, and the exposures attached to the level are not both zero. *)
Theorem zero_rows_not_support_or_resistance (rows : list LevelSelector.GexRow)
    (lv : LevelSelector.Level) :
  lv ∈ LevelSelector.computeLevels rows →
  LevelSelector.name lv ≠ LevelSelector.Flip →
  (∃ r, r ∈ rows ∧ LevelSelector.strike r = LevelSelector.level_strike lv ∧
        ¬ (LevelSelector.gex_oi_raw r = Js.Fin 0 ∧
           LevelSelector.gex_vol_raw r = Js.Fin 0) ∧
        (((LevelSelector.name lv = LevelSelector.R1 ∨
           LevelSelector.name lv = LevelSelector.R2) ∧
          LevelSelector.isPos r = true) ∨
         ((LevelSelector.name lv = LevelSelector.S1 ∨
           LevelSelector.name lv = LevelSelector.S2) ∧
          LevelSelector.isNeg r = true))) ∧
  (NoDup (LevelSelector.strike <$> rows) →
     (∀ z, z ∈ rows →
           LevelSelector.gex_oi_raw z = Js.Fin 0 →
           LevelSelector.gex_vol_raw z = Js.Fin 0 →
           LevelSelector.strike z ≠ LevelSelector.level_strike lv) ∧
     ¬ (LevelSelector.level_gex_oi_raw lv = Some (Js.Fin 0) ∧
        LevelSelector.level_gex_vol_raw lv = Some (Js.Fin 0))).
Proof.
  intros Hlv Hflip.
  destruct (level_from_regime rows lv Hlv Hflip) as (r & Hr & Hs & Hv & Hregime).
  pose proof (valid_not_both_zero r Hv) as Hnz.
  split; [by exists r|]. intros Hnd. split.
  - intros z Hz Hoi Hvol Hzs. apply Hnz.
    assert (z = r) as <-; [|done].
    eapply (NoDup_fmap_member_inj LevelSelector.strike); [exact Hnd|done..|congruence].
  - assert (LevelSelector.level_gex_oi_raw lv = Some (LevelSelector.gex_oi_raw r) ∧
            LevelSelector.level_gex_vol_raw lv = Some (LevelSelector.gex_vol_raw r))
      as [-> ->]; [|by intros [[= ?] [= ?]]; apply Hnz].
    assert (∃ s, LevelSelector.level_strike lv = Js.Fin s) as [s Hfin].
    { unfold LevelSelector.valid in Hv. rewrite !andb_true_iff in Hv.
      destruct Hv as [[[Hf _] _] _]. rewrite Hs in Hf.
      destruct (LevelSelector.level_strike lv) as [s| | |]; try done. by exists s. }
    rewrite Hfin in Hs.
    unfold LevelSelector.computeLevels in Hlv. rewrite !elem_of_app in Hlv.
    destruct Hlv as [Hlv|[Hlv|[Hlv|[Hlv|Hlv]]]];
      apply elem_of_pushLevel in Hlv as (_ & Hs0 & -> & -> & _);
      rewrite Hs0, Hfin, (getRow_exact rows r s Hnd Hr Hs); done.
Qed.

Ltac by_decision := refine (bool_decide_unpack _ _); vm_compute; exact I.

(** A zero-exposure row next to one positive and one negative row. *)
Lemma zero_rows_not_support_or_resistance_witness :
  let zero := LevelSelector.row 2050 0 0 in
  let rows := [LevelSelector.row 2000 100 50; zero; LevelSelector.row 1900 (-80) (-40)] in
  let lv := LevelSelector.mkLevel LevelSelector.R1 (Js.Fin 2000)
              (Some (Js.Fin 100)) (Some (Js.Fin 50)) (Some LevelSelector.ce) in
  lv ∈ LevelSelector.computeLevels rows ∧
  LevelSelector.strike zero ≠ LevelSelector.level_strike lv.
Proof.
  intros zero rows lv.
  assert (lv ∈ LevelSelector.computeLevels rows) as Hlv by by_decision.
  split; [exact Hlv|].
  destruct (zero_rows_not_support_or_resistance rows lv Hlv ltac:(discriminate))
    as [_ Hdistinct].
  destruct (Hdistinct ltac:(by_decision)) as [Hzero _].
  apply (Hzero zero); [by_decision | reflexivity | reflexivity].
Defined.

(** C2, the failing inputs.  The selector does return rows whose two
    exposures are both exactly zero.

    Flip: [pickZeroGammaStrike] filters on finiteness and on the strike
    window only; it has no counterpart of the
    [!(gex_oi_raw === 0 && gex_vol_raw === 0)] test of [pickLinesByRaw].
    Between R1 = 2000 and S1 = 1900 lies a row at 1950 whose exposures
    are both zero.  It ranks first on absolute open-interest exposure
    and second on volume, the lowest total, and is returned as the Flip
    level, with exposures 0 and 0 attached.

    R1: [getRow] looks a level's row up by strike and takes the first
    row of the input with that strike.  When a zero-exposure row stands
    before a positive row of the same strike, R1 is put on that strike
    and carries the exposures of the zero-exposure row. *)
Theorem zero_exposure_row_becomes_level :
  let zero := LevelSelector.row 1950 0 0 in
  let rows := [LevelSelector.row 2000 100 50; LevelSelector.row 1900 (-80) (-40); zero] in
  let twin := LevelSelector.row 2000 0 0 in
  let rows2 := [twin; LevelSelector.row 2000 100 50] in
  (zero ∈ rows ∧
   LevelSelector.gex_oi_raw zero = Js.Fin 0 ∧
   LevelSelector.gex_vol_raw zero = Js.Fin 0 ∧
   NoDup (LevelSelector.strike <$> rows) ∧
   LevelSelector.computeLevels rows =
     [LevelSelector.mkLevel LevelSelector.R1 (Js.Fin 2000)
        (Some (Js.Fin 100)) (Some (Js.Fin 50)) (Some LevelSelector.ce);
      LevelSelector.mkLevel LevelSelector.S1 (Js.Fin 1900)
        (Some (Js.Fin (-80))) (Some (Js.Fin (-40))) (Some LevelSelector.pe);
      LevelSelector.mkLevel LevelSelector.Flip (LevelSelector.strike zero)
        (Some (Js.Fin 0)) (Some (Js.Fin 0)) None]) ∧
  (twin ∈ rows2 ∧
   LevelSelector.gex_oi_raw twin = Js.Fin 0 ∧
   LevelSelector.gex_vol_raw twin = Js.Fin 0 ∧
   LevelSelector.computeLevels rows2 =
     [LevelSelector.mkLevel LevelSelector.R1 (LevelSelector.strike twin)
        (Some (LevelSelector.gex_oi_raw twin)) (Some (LevelSelector.gex_vol_raw twin))
        (Some LevelSelector.ce)]).
Proof.
  intros zero rows twin rows2. split.
  - split_and!; [by_decision | reflexivity | reflexivity | by_decision | reflexivity].
  - split_and!; [by_decision | reflexivity..].
Qed.

(* ===================================================================== *)
(** ** Row order                                                         *)
(* ===================================================================== *)

Section RowOrderFacts.
Import Js LevelSelector.

Lemma placeIn_member (l : list GexRow) r : r ∈ l → 1 ≤ placeIn l r.
Proof.
  induction l as [|x l IH]; intros Hr; [by apply elem_of_nil in Hr|]. simpl.
  destruct (decide (x = r)) as [->|Hne]; [lia|].
  apply elem_of_cons in Hr as [->|Hr]; [done|]. specialize (IH Hr). lia.
Qed.

Lemma placeIn_inj (l : list GexRow) r1 r2 :
  r1 ∈ l → r2 ∈ l → placeIn l r1 = placeIn l r2 → r1 = r2.
Proof.
  induction l as [|x l IH]; intros H1 H2 Heq; [by apply elem_of_nil in H1|].
  simpl in Heq.
  destruct (decide (x = r1)) as [E1|Hne1], (decide (x = r2)) as [E2|Hne2];
    [congruence|..].
  - apply elem_of_cons in H2 as [->|H2]; [done|].
    pose proof (placeIn_member l r2 H2). lia.
  - apply elem_of_cons in H1 as [->|H1]; [done|].
    pose proof (placeIn_member l r1 H1). lia.
  - apply elem_of_cons in H1 as [->|H1]; [done|].
    apply elem_of_cons in H2 as [->|H2]; [done|].
    apply IH; [done..|lia].
Qed.

Lemma NoDup_fmap_filter {B} (f : GexRow → B) (p : GexRow → bool) (l : list GexRow) :
  NoDup (f <$> l) → NoDup (f <$> filter (λ r, p r) l).
Proof.
  intros Hnd. eapply sublist_NoDup; [exact Hnd|].
  apply fmap_sublist, sublist_filter.
Qed.

Lemma NoDup_strike_posRows rows :
  NoDup (strike <$> rows) → NoDup (strike <$> posRows rows).
Proof. intros Hnd. unfold posRows. by do 2 apply NoDup_fmap_filter. Qed.

Lemma NoDup_strike_negRows rows :
  NoDup (strike <$> rows) → NoDup (strike <$> negRows rows).
Proof. intros Hnd. unfold negRows. by do 2 apply NoDup_fmap_filter. Qed.

(** The value order does not depend on the arrangement of the rows
    when no two of them share the value. *)
Lemma sort_rankCmp_perm key desc (l1 l2 : list GexRow) :
  l1 ≡ₚ l2 →
  (∀ r, r ∈ l1 → finite (get key r) = true) →
  NoDup (get key <$> l1) →
  sort (rankCmp key desc) l1 = sort (rankCmp key desc) l2.
Proof.
  intros Hperm Hfin Hnd.
  rewrite !sort_rankCmp_valueCmp;
    [|intros r Hr; apply Hfin; by rewrite Hperm|done].
  apply sort_unique; [apply valueCmp_trans|apply valueCmp_total|done|].
  intros x y Hx Hy. rewrite !valueCmp_inOrder. intros Hxy Hyx.
  apply (NoDup_fmap_member_inj (get key) l1); [done..|].
  pose proof (Hfin x Hx) as Hfx. pose proof (Hfin y Hy) as Hfy.
  unfold valueOf in Hxy, Hyx.
  destruct (get key x) as [a| | |], (get key y) as [b| | |]; try done.
  f_equal. destruct desc; lia.
Qed.

Lemma rankMap_perm key desc (l1 l2 : list GexRow) :
  l1 ≡ₚ l2 →
  (∀ r, r ∈ l1 → finite (get key r) = true) →
  NoDup (get key <$> l1) →
  rankMap l1 key desc = rankMap l2 key desc.
Proof. intros. unfold rankMap. by rewrite (sort_rankCmp_perm key desc l1 l2). Qed.

Lemma scoreOf_inj regime desc r1 r2 :
  NoDup (strike <$> regime) → r1 ∈ regime → r2 ∈ regime →
  oiR (scoreOf (rankMap regime key_gex_oi_raw desc)
         (rankMap regime key_gex_vol_raw desc) r1)
  = oiR (scoreOf (rankMap regime key_gex_oi_raw desc)
           (rankMap regime key_gex_vol_raw desc) r2) →
  r1 = r2.
Proof.
  intros Hnd H1 H2. unfold scoreOf. cbn [oiR].
  rewrite !rankMap_place by done. simpl. intros Heq.
  eapply placeIn_inj; [| |exact Heq]; by apply (proj2 (sort_elem_of _ _ _)).
Qed.

Lemma scoredLe_antisym a b :
  scoredLe a b → scoredLe b a →
  score a = score b ∧ oiR a = oiR b ∧ volR a = volR b.
Proof. unfold scoredLe. lia. Qed.

Lemma scoredSorted_perm desc (l1 l2 : list GexRow) :
  l1 ≡ₚ l2 →
  NoDup (strike <$> l1) →
  (∀ r key, r ∈ l1 → finite (get key r) = true) →
  NoDup (gex_oi_raw <$> l1) → NoDup (gex_vol_raw <$> l1) →
  scoredSorted l1 desc = scoredSorted l2 desc.
Proof.
  intros Hperm Hnd Hfin Hoi Hvol. unfold scoredSorted. cbv zeta.
  rewrite <- (rankMap_perm key_gex_oi_raw desc l1 l2) by (try done; intros; by apply Hfin).
  rewrite <- (rankMap_perm key_gex_vol_raw desc l1 l2) by (try done; intros; by apply Hfin).
  apply sort_unique;
    [apply scoredLe_trans|apply scoredLe_total|by apply fmap_Permutation|].
  intros x y Hx Hy. rewrite !scoredCmp_inOrder. intros Hxy Hyx.
  destruct (scoredLe_antisym _ _ Hxy Hyx) as (_ & Hrank & _).
  apply list_elem_of_fmap in Hx as (r1 & -> & Hr1).
  apply list_elem_of_fmap in Hy as (r2 & -> & Hr2).
  f_equal. by eapply scoreOf_inj.
Qed.

Lemma pickLinesByRaw_perm rows rows' :
  rows ≡ₚ rows' → tieFree rows → pickLinesByRaw rows = pickLinesByRaw rows'.
Proof.
  intros Hperm (Hs & Hpo & Hpv & Hno & Hnv). unfold pickLinesByRaw.
  rewrite !topTwo_guard by apply scoredSorted_length.
  assert (posRows rows ≡ₚ posRows rows') as Hpos by (unfold posRows; by rewrite Hperm).
  assert (negRows rows ≡ₚ negRows rows') as Hneg by (unfold negRows; by rewrite Hperm).
  rewrite (scoredSorted_perm true _ _ Hpos), (scoredSorted_perm false _ _ Hneg);
    first done; try done.
  - by apply NoDup_strike_negRows.
  - intros r key Hr. by eapply negRows_finite.
  - by apply NoDup_strike_posRows.
  - intros r key Hr. by eapply posRows_finite.
Qed.
End RowOrderFacts.

Section FlipOrderFacts.
Import Js LevelSelector.

Lemma absCmp_absValueCmp a b :
  finite (gex_oi_raw a) = true → finite (gex_oi_raw b) = true →
  positive (absCmp a b) = positive (absValueCmp a b).
Proof.
  unfold absCmp, absValueCmp, valueOf. simpl.
  by destruct (gex_oi_raw a) as [x| | |], (gex_oi_raw b) as [y| | |].
Qed.

Lemma absValueCmp_inOrder a b :
  inOrder absValueCmp a b ↔
  Z.abs (valueOf key_gex_oi_raw a) ≤ Z.abs (valueOf key_gex_oi_raw b).
Proof. unfold inOrder, absValueCmp, positive. rewrite Z.ltb_ge. lia. Qed.

Lemma sort_absCmp_perm (l1 l2 : list GexRow) :
  l1 ≡ₚ l2 →
  (∀ r, r ∈ l1 → finite (gex_oi_raw r) = true) →
  NoDup ((λ r, abs (gex_oi_raw r)) <$> l1) →
  sort absCmp l1 = sort absCmp l2.
Proof.
  intros Hperm Hfin Hnd.
  rewrite (sort_ext_in absCmp absValueCmp l1), (sort_ext_in absCmp absValueCmp l2).
  2: intros a b Ha Hb; apply absCmp_absValueCmp; apply Hfin; by rewrite Hperm.
  2: intros a b Ha Hb; apply absCmp_absValueCmp; by apply Hfin.
  apply sort_unique; [| |done|].
  - intros a b c. rewrite !absValueCmp_inOrder. lia.
  - intros a b. rewrite !absValueCmp_inOrder. lia.
  - intros x y Hx Hy. rewrite !absValueCmp_inOrder. intros Hxy Hyx.
    apply (NoDup_fmap_member_inj (λ r, abs (gex_oi_raw r)) l1); [done..|].
    pose proof (Hfin x Hx) as Hfx. pose proof (Hfin y Hy) as Hfy.
    unfold valueOf in Hxy, Hyx. simpl in Hxy, Hyx.
    destruct (gex_oi_raw x) as [a| | |], (gex_oi_raw y) as [b| | |]; try done.
    simpl. f_equal. lia.
Qed.

Lemma flipCmp_inOrder a b : inOrder flipCmp a b ↔ fs_score a ≤ fs_score b.
Proof. unfold inOrder, flipCmp, positive. rewrite Z.ltb_ge. lia. Qed.

Lemma flipScored_perm (w1 w2 : list GexRow) :
  w1 ≡ₚ w2 →
  (∀ r, r ∈ w1 → finite (gex_oi_raw r) = true ∧ finite (gex_vol_raw r) = true) →
  NoDup ((λ r, abs (gex_oi_raw r)) <$> w1) →
  NoDup (gex_vol_raw <$> w1) →
  NoDup (fs_score <$>
           (flipScoreOf (rankMapAbs w1) (rankMap w1 key_gex_vol_raw true) <$> w1)) →
  flipScored w1 = flipScored w2.
Proof.
  intros Hperm Hfin Habs Hvol Hscore. unfold flipScored, rankMapAbs. cbv zeta.
  rewrite <- (sort_absCmp_perm w1 w2) by (try done; intros r Hr; by apply Hfin).
  rewrite <- (rankMap_perm key_gex_vol_raw true w1 w2)
    by (try done; intros r Hr; by apply Hfin).
  apply sort_unique; [| |by apply fmap_Permutation|].
  - intros a b c. rewrite !flipCmp_inOrder. lia.
  - intros a b. rewrite !flipCmp_inOrder. lia.
  - intros x y Hx Hy. rewrite !flipCmp_inOrder. intros Hxy Hyx.
    eapply (NoDup_fmap_member_inj fs_score); [exact Hscore|done..|lia].
Qed.

Lemma inWindow_finite lo hi r :
  inWindow lo hi r = true →
  finite (strike r) = true ∧ finite (gex_oi_raw r) = true ∧
  finite (gex_vol_raw r) = true.
Proof. unfold inWindow. rewrite !andb_true_iff. tauto. Qed.

Lemma flipScored_elem sc (w : list GexRow) :
  sc ∈ flipScored w → ∃ r, r ∈ w ∧ fs_strike sc = strike r.
Proof.
  unfold flipScored. intros Hsc. apply (proj1 (sort_elem_of _ _ _)) in Hsc.
  apply list_elem_of_fmap in Hsc as (r & -> & Hr). by exists r.
Qed.

(** The flip strike, when there is one, is the finite strike of a row
    of the input. *)
Lemma pickZeroGammaStrike_from_rows rows r1 s1 s :
  pickZeroGammaStrike rows r1 s1 = Some s →
  ∃ r z, r ∈ rows ∧ strike r = s ∧ s = Fin z.
Proof.
  unfold pickZeroGammaStrike.
  destruct r1 as [[a| | |]|], s1 as [[b| | |]|]; try done.
  destruct (filter _ rows) as [|x w] eqn:Hw; [done|].
  destruct (head (flipScored (x :: w))) as [sc|] eqn:Hhead; [|done].
  simpl. intros [= <-].
  apply head_Some_elem_of, flipScored_elem in Hhead as (r & Hr & ->).
  rewrite <- Hw in Hr. apply list_elem_of_filter in Hr as [Hin Hr].
  apply Is_true_true, inWindow_finite in Hin as (Hf & _).
  destruct (strike r) as [z| | |] eqn:Hz; try done. by exists r, z.
Qed.

Lemma pickZeroGammaStrike_perm rows rows' a b :
  rows ≡ₚ rows' →
  let w := filter (λ r, inWindow (Fin (Z.min a b)) (Fin (Z.max a b)) r) rows in
  NoDup ((λ r, abs (gex_oi_raw r)) <$> w) →
  NoDup (gex_vol_raw <$> w) →
  NoDup (fs_score <$>
           (flipScoreOf (rankMapAbs w) (rankMap w key_gex_vol_raw true) <$> w)) →
  pickZeroGammaStrike rows (Some (Fin a)) (Some (Fin b))
  = pickZeroGammaStrike rows' (Some (Fin a)) (Some (Fin b)).
Proof.
  intros Hperm w Habs Hvol Hscore. unfold pickZeroGammaStrike. fold w.
  set (w' := filter (λ r, inWindow (Fin (Z.min a b)) (Fin (Z.max a b)) r) rows').
  assert (w ≡ₚ w') as Hw by (unfold w, w'; by rewrite Hperm).
  assert (flipScored w = flipScored w') as Hflip.
  { apply flipScored_perm; [done| |done..].
    intros r Hr. apply list_elem_of_filter in Hr as [Hin _].
    apply Is_true_true, inWindow_finite in Hin. tauto. }
  destruct w as [|x w0], w' as [|x' w0'].
  - done.
  - by apply Permutation_nil_cons in Hw.
  - symmetry in Hw. by apply Permutation_nil_cons in Hw.
  - by rewrite Hflip.
Qed.
End FlipOrderFacts.

Section LevelOrderFacts.
Import Js LevelSelector.

Lemma red_strike_from_rows rows nm s :
  strikeOf (red (pickLinesByRaw rows)) nm = Some s →
  ∃ r z, r ∈ rows ∧ strike r = s ∧ s = Fin z.
Proof.
  intros Hs. apply strikeOf_Some in Hs as (mk & Hmk & <- & _).
  apply red_elem in Hmk as [_ (r & Hr & <-)].
  apply elem_of_posRows in Hr as (Hin & Hv & _).
  unfold valid in Hv. rewrite !andb_true_iff in Hv. destruct Hv as [[[Hf _] _] _].
  destruct (strike r) as [z| | |] eqn:Hz; try done. by exists r, z.
Qed.

Lemma green_strike_from_rows rows nm s :
  strikeOf (green (pickLinesByRaw rows)) nm = Some s →
  ∃ r z, r ∈ rows ∧ strike r = s ∧ s = Fin z.
Proof.
  intros Hs. apply strikeOf_Some in Hs as (mk & Hmk & <- & _).
  apply green_elem in Hmk as [_ (r & Hr & <-)].
  apply elem_of_negRows in Hr as (Hin & Hv & _).
  unfold valid in Hv. rewrite !andb_true_iff in Hv. destruct Hv as [[[Hf _] _] _].
  destruct (strike r) as [z| | |] eqn:Hz; try done. by exists r, z.
Qed.

Lemma pushLevel_perm rows rows' nm s0 sd :
  rows ≡ₚ rows' → NoDup (strike <$> rows) →
  (∀ s, s0 = Some s → ∃ r z, r ∈ rows ∧ strike r = s ∧ s = Fin z) →
  pushLevel rows nm s0 sd = pushLevel rows' nm s0 sd.
Proof.
  intros Hperm Hnd Hfrom. destruct s0 as [s|]; [|done].
  destruct (Hfrom s eq_refl) as (r & z & Hr & Hs & ->).
  unfold pushLevel.
  rewrite (getRow_exact rows r z), (getRow_exact rows' r z); try done.
  - by rewrite <- Hperm.
  - by rewrite <- Hperm.
Qed.

Lemma withoutFlip_pushLevel rows nm s0 sd :
  withoutFlip (pushLevel rows nm s0 sd)
  = if decide (nm = Flip) then [] else pushLevel rows nm s0 sd.
Proof.
  unfold withoutFlip, pushLevel.
  destruct s0 as [[s| | |]|]; try by destruct (decide (nm = Flip)).
  rewrite filter_cons, filter_nil. simpl.
  by destruct (decide (nm ≠ Flip)), (decide (nm = Flip)).
Qed.

Lemma withoutFlip_computeLevels rows :
  withoutFlip (computeLevels rows) =
    let lines := pickLinesByRaw rows in
    pushLevel rows R1 (strikeOf (red lines) R1) (Some ce) ++
    pushLevel rows R2 (strikeOf (red lines) R2) (Some ce) ++
    pushLevel rows S1 (strikeOf (green lines) S1) (Some pe) ++
    pushLevel rows S2 (strikeOf (green lines) S2) (Some pe).
Proof.
  unfold computeLevels, withoutFlip. cbv zeta. rewrite !filter_app.
  fold (withoutFlip (pushLevel rows R1 (strikeOf (red (pickLinesByRaw rows)) R1) (Some ce))).
  fold (withoutFlip (pushLevel rows R2 (strikeOf (red (pickLinesByRaw rows)) R2) (Some ce))).
  fold (withoutFlip (pushLevel rows S1 (strikeOf (green (pickLinesByRaw rows)) S1) (Some pe))).
  fold (withoutFlip (pushLevel rows S2 (strikeOf (green (pickLinesByRaw rows)) S2) (Some pe))).
  match goal with |- context [filter _ (pushLevel rows Flip ?s None)] =>
    fold (withoutFlip (pushLevel rows Flip s None)) end.
  rewrite !withoutFlip_pushLevel. simpl. by rewrite app_nil_r.
Qed.

Lemma edge_levels_perm rows rows' :
  rows ≡ₚ rows' → tieFree rows →
  withoutFlip (computeLevels rows) = withoutFlip (computeLevels rows').
Proof.
  intros Hperm Htie. rewrite !withoutFlip_computeLevels. cbv zeta.
  rewrite <- (pickLinesByRaw_perm rows rows' Hperm Htie).
  destruct Htie as (Hnd & _).
  repeat (apply (f_equal2 app)); apply pushLevel_perm; try done; intros s Hs;
    ((by eapply red_strike_from_rows) || (by eapply green_strike_from_rows)).
Qed.

Lemma computeLevels_perm rows rows' :
  rows ≡ₚ rows' → tieFree rows → flipTieFree rows →
  computeLevels rows = computeLevels rows'.
Proof.
  intros Hperm Htie Hflip. unfold computeLevels. cbv zeta.
  rewrite <- (pickLinesByRaw_perm rows rows' Hperm Htie).
  pose proof Htie as (Hnd & _).
  assert (pickZeroGammaStrike rows (strikeOf (red (pickLinesByRaw rows)) R1)
            (strikeOf (green (pickLinesByRaw rows)) S1)
          = pickZeroGammaStrike rows' (strikeOf (red (pickLinesByRaw rows)) R1)
              (strikeOf (green (pickLinesByRaw rows)) S1)) as Hsame.
  { unfold flipTieFree, flipWindow in Hflip. cbv zeta in Hflip.
    destruct (strikeOf (red (pickLinesByRaw rows)) R1) as [[a| | |]|]; try done.
    destruct (strikeOf (green (pickLinesByRaw rows)) S1) as [[b| | |]|]; try done.
    destruct Hflip as (Habs & Hvol & Hscore).
    by apply pickZeroGammaStrike_perm. }
  rewrite <- Hsame.
  repeat (apply (f_equal2 app)); apply pushLevel_perm; try done; intros s Hs;
    ((by eapply red_strike_from_rows) || (by eapply green_strike_from_rows)
     || (by eapply pickZeroGammaStrike_from_rows)).
Qed.
End LevelOrderFacts.

(** Where the order of the rows does not matter.  For a row set
    without ties (strikes pairwise distinct and, within each regime,
    open-interest exposures pairwise distinct and volume exposures
    pairwise distinct) every arrangement of the rows yields the same R1,
    R2, S1 and S2, with the same strikes, sides and attached exposures.
    The Flip level is the same as well when no two rows of the flip
    window share an absolute open-interest exposure, a volume exposure
    or a flip score. *)
Theorem levels_independent_of_row_order (rows rows' : list LevelSelector.GexRow) :
  rows ≡ₚ rows' →
  LevelSelector.tieFree rows →
  LevelSelector.pickLinesByRaw rows = LevelSelector.pickLinesByRaw rows' ∧
  LevelSelector.withoutFlip (LevelSelector.computeLevels rows)
    = LevelSelector.withoutFlip (LevelSelector.computeLevels rows') ∧
  (LevelSelector.flipTieFree rows →
     LevelSelector.computeLevels rows = LevelSelector.computeLevels rows').
Proof.
  intros Hperm Htie. split_and!.
  - by apply pickLinesByRaw_perm.
  - by apply edge_levels_perm.
  - intros Hflip. by apply computeLevels_perm.
Qed.

(** The scenario rows and the same rows in reverse order. *)
Lemma levels_independent_of_row_order_witness :
  LevelSelector.computeLevels LevelSelector.scenarioRows
  = LevelSelector.computeLevels (reverse LevelSelector.scenarioRows).
Proof.
  assert (LevelSelector.scenarioRows ≡ₚ reverse LevelSelector.scenarioRows) as Hperm
    by (symmetry; apply reverse_Permutation).
  assert (LevelSelector.tieFree LevelSelector.scenarioRows) as Htie
    by (repeat split; by_decision).
  assert (LevelSelector.flipTieFree LevelSelector.scenarioRows) as Hflip
    by (repeat split; by_decision).
  exact (proj2 (proj2 (levels_independent_of_row_order _ _ Hperm Htie)) Hflip).
Defined.

(** C3, the failing inputs.  The level assignment depends on the order
    of the rows.

    Flip: the two rows below have distinct strikes and distinct
    exposures.  In the flip window the row at 2000 ranks second on
    absolute open-interest exposure and first on volume, the row at 1900
    first and second: both score 3.  [scored.sort((a, b) => a.score -
    b.score)] has no tie-break (the sort of [pickLinesByRaw] goes on
    with [oiR] and [volR]), the sort is stable, and the row that comes
    first in the input becomes the Flip level: 2000 for one arrangement,
    1900 for the other.

    R1 and R2: two positive rows with the same exposures are ranked by
    [rankMap] in input order, and whichever comes first becomes R1. *)
Theorem levels_depend_on_row_order :
  let rows := [LevelSelector.row 2000 100 50; LevelSelector.row 1900 (-80) (-40)] in
  let rows' := [LevelSelector.row 1900 (-80) (-40); LevelSelector.row 2000 100 50] in
  let tied := [LevelSelector.row 2000 100 50; LevelSelector.row 2100 100 50] in
  let tied' := [LevelSelector.row 2100 100 50; LevelSelector.row 2000 100 50] in
  (rows ≡ₚ rows' ∧
   LevelSelector.tieFree rows ∧
   LevelSelector.computeLevels rows =
     [LevelSelector.mkLevel LevelSelector.R1 (Js.Fin 2000)
        (Some (Js.Fin 100)) (Some (Js.Fin 50)) (Some LevelSelector.ce);
      LevelSelector.mkLevel LevelSelector.S1 (Js.Fin 1900)
        (Some (Js.Fin (-80))) (Some (Js.Fin (-40))) (Some LevelSelector.pe);
      LevelSelector.mkLevel LevelSelector.Flip (Js.Fin 2000)
        (Some (Js.Fin 100)) (Some (Js.Fin 50)) None] ∧
   LevelSelector.computeLevels rows' =
     [LevelSelector.mkLevel LevelSelector.R1 (Js.Fin 2000)
        (Some (Js.Fin 100)) (Some (Js.Fin 50)) (Some LevelSelector.ce);
      LevelSelector.mkLevel LevelSelector.S1 (Js.Fin 1900)
        (Some (Js.Fin (-80))) (Some (Js.Fin (-40))) (Some LevelSelector.pe);
      LevelSelector.mkLevel LevelSelector.Flip (Js.Fin 1900)
        (Some (Js.Fin (-80))) (Some (Js.Fin (-40))) None]) ∧
  (tied ≡ₚ tied' ∧
   NoDup (LevelSelector.strike <$> tied) ∧
   LevelSelector.computeLevels tied =
     [LevelSelector.mkLevel LevelSelector.R1 (Js.Fin 2000)
        (Some (Js.Fin 100)) (Some (Js.Fin 50)) (Some LevelSelector.ce);
      LevelSelector.mkLevel LevelSelector.R2 (Js.Fin 2100)
        (Some (Js.Fin 100)) (Some (Js.Fin 50)) (Some LevelSelector.ce)] ∧
   LevelSelector.computeLevels tied' =
     [LevelSelector.mkLevel LevelSelector.R1 (Js.Fin 2100)
        (Some (Js.Fin 100)) (Some (Js.Fin 50)) (Some LevelSelector.ce);
      LevelSelector.mkLevel LevelSelector.R2 (Js.Fin 2000)
        (Some (Js.Fin 100)) (Some (Js.Fin 50)) (Some LevelSelector.ce)]).
Proof.
  intros rows rows' tied tied'. split.
  - split_and!; [apply Permutation_swap | repeat split; by_decision | reflexivity..].
  - split_and!; [apply Permutation_swap | by_decision | reflexivity..].
Qed.

(* ===================================================================== *)
(** * Further properties of the code                                     *)
(* ===================================================================== *)

(* ===================================================================== *)
(** ** Level selector: what the level list looks like                    *)
(* ===================================================================== *)

Section LevelShapeFacts.
Import Js LevelSelector.

Lemma find_strike_hit rows r s :
  r ∈ rows → strike r = Fin s →
  ∃ r', List.find (λ x, strict_eq (strike x) (Fin s)) rows = Some r' ∧
        r' ∈ rows ∧ strike r' = Fin s.
Proof.
  intros Hr Hs.
  destruct (List.find (λ x, strict_eq (strike x) (Fin s)) rows) as [r'|] eqn:Hfind.
  - apply find_some in Hfind as [Hin Heq]. exists r'. split; [done|].
    split; [by apply list_elem_of_In|].
    destruct (strike r') as [z| | |]; try done. simpl in Heq.
    apply Z.eqb_eq in Heq. by subst.
  - apply list_elem_of_In in Hr.
    pose proof (find_none _ _ Hfind r Hr) as Hno. simpl in Hno.
    rewrite Hs in Hno. simpl in Hno. by rewrite Z.eqb_refl in Hno.
Qed.

(** Where each level's strike comes from. *)
Lemma level_strike_from_rows rows lv :
  lv ∈ computeLevels rows →
  ∃ r z, r ∈ rows ∧ strike r = level_strike lv ∧ level_strike lv = Fin z ∧
         level_gex_oi_raw lv = gex_oi_raw <$> getRow rows (Some (Fin z)) ∧
         level_gex_vol_raw lv = gex_vol_raw <$> getRow rows (Some (Fin z)).
Proof.
  unfold computeLevels. rewrite !elem_of_app.
  intros [Hlv|[Hlv|[Hlv|[Hlv|Hlv]]]];
    apply elem_of_pushLevel in Hlv as (_ & Hs & Hoi & Hvol & _);
    rewrite Hs in Hoi, Hvol.
  1,2: apply red_strike_from_rows in Hs as (r & z & Hr & Hrs & Hz).
  3,4: apply green_strike_from_rows in Hs as (r & z & Hr & Hrs & Hz).
  5: apply pickZeroGammaStrike_from_rows in Hs as (r & z & Hr & Hrs & Hz).
  all: exists r, z; rewrite Hz in Hoi, Hvol; by split_and!.
Qed.
End LevelShapeFacts.

(** X1.  Every level of the list, Flip included, sits on the finite
    strike of an input row, so no strike is made up; and the exposures
    attached to it are never null: they are those of the first input row
    that has exactly the level's strike. *)
Theorem levels_carry_input_rows (rows : list LevelSelector.GexRow)
    (lv : LevelSelector.Level) :
  lv ∈ LevelSelector.computeLevels rows →
  ∃ r z,
    List.find (λ x, Js.strict_eq (LevelSelector.strike x) (Js.Fin z)) rows = Some r ∧
    r ∈ rows ∧
    LevelSelector.level_strike lv = Js.Fin z ∧
    LevelSelector.strike r = Js.Fin z ∧
    LevelSelector.level_gex_oi_raw lv = Some (LevelSelector.gex_oi_raw r) ∧
    LevelSelector.level_gex_vol_raw lv = Some (LevelSelector.gex_vol_raw r).
Proof.
  intros Hlv.
  destruct (level_strike_from_rows rows lv Hlv) as (r0 & z & Hr0 & Hs0 & Hz & Hoi & Hvol).
  rewrite Hz in Hs0.
  destruct (find_strike_hit rows r0 z Hr0 Hs0) as (r & Hfind & Hr & Hs).
  exists r, z. unfold LevelSelector.getRow in Hoi, Hvol. rewrite Hfind in Hoi, Hvol.
  by split_and!.
Qed.

(** The scenario rows: the Flip level at 2000 carries the exposures of
    the row at 2000. *)
Lemma levels_carry_input_rows_witness :
  ∃ r z,
    List.find (λ x, Js.strict_eq (LevelSelector.strike x) (Js.Fin z))
      LevelSelector.scenarioRows = Some r ∧
    r ∈ LevelSelector.scenarioRows ∧
    Js.Fin 2000 = Js.Fin z ∧
    LevelSelector.strike r = Js.Fin z ∧
    Some (Js.Fin 100) = Some (LevelSelector.gex_oi_raw r) ∧
    Some (Js.Fin 50) = Some (LevelSelector.gex_vol_raw r).
Proof.
  apply (levels_carry_input_rows LevelSelector.scenarioRows
           (LevelSelector.mkLevel LevelSelector.Flip (Js.Fin 2000)
              (Some (Js.Fin 100)) (Some (Js.Fin 50)) None)).
  by_decision.
Defined.

Section LevelNamesFacts.
Import Js LevelSelector.

Lemma scoredSorted_strike_finite sc regime desc :
  (∀ r, r ∈ regime → finite (strike r) = true) →
  sc ∈ scoredSorted regime desc → ∃ z, sc_strike sc = Fin z.
Proof.
  intros Hfin Hsc. apply scoredSorted_elem in Hsc as (r & Hr & ->).
  specialize (Hfin r Hr). destruct (strike r) as [z| | |]; try done. by exists z.
Qed.

Lemma valid_strike_finite r : valid r = true → finite (strike r) = true.
Proof. unfold valid. rewrite !andb_true_iff. tauto. Qed.

Lemma posRows_strike_finite rows r : r ∈ posRows rows → finite (strike r) = true.
Proof. rewrite elem_of_posRows. intros (_ & Hv & _). by apply valid_strike_finite. Qed.

Lemma negRows_strike_finite rows r : r ∈ negRows rows → finite (strike r) = true.
Proof. rewrite elem_of_negRows. intros (_ & Hv & _). by apply valid_strike_finite. Qed.

(** The names pushed for one regime, by the number of its rows. *)
Lemma regime_levels_names rows regime desc l1 l2 c1 c2 sd :
  l1 ≠ l2 →
  (∀ r, r ∈ regime → finite (strike r) = true) →
  let marks := topTwo (scoredSorted regime desc) l1 l2 c1 c2 sd in
  name <$> (pushLevel rows l1 (strikeOf marks l1) (Some sd) ++
            pushLevel rows l2 (strikeOf marks l2) (Some sd))
  = (if decide (1 ≤ length regime)%nat then [l1] else []) ++
    (if decide (2 ≤ length regime)%nat then [l2] else []).
Proof.
  intros Hne Hfin marks. subst marks.
  pose proof (scoredSorted_length regime desc) as Hlen.
  pose proof (λ sc, scoredSorted_strike_finite sc regime desc Hfin) as Hsc.
  destruct (scoredSorted regime desc) as [|a [|b rest]]; simpl in Hlen.
  - rewrite <- Hlen. simpl. done.
  - rewrite <- Hlen. destruct (Hsc a ltac:(left)) as [za Hza].
    unfold strikeOf. simpl.
    rewrite bool_decide_eq_true_2 by done. rewrite bool_decide_eq_false_2 by done.
    simpl. by rewrite Hza.
  - rewrite <- Hlen. destruct (Hsc a ltac:(left)) as [za Hza].
    destruct (Hsc b ltac:(right; left)) as [zb Hzb].
    unfold strikeOf. simpl.
    rewrite (bool_decide_eq_true_2 (l1 = l1)) by done.
    rewrite (bool_decide_eq_false_2 (l1 = l2)) by done.
    rewrite (bool_decide_eq_true_2 (l2 = l2)) by done.
    simpl. by rewrite Hza, Hzb.
Qed.

Lemma strikeOf_first rows :
  strikeOf (red (pickLinesByRaw rows)) R1
  = sc_strike <$> head (scoredSorted (posRows rows) true) ∧
  strikeOf (green (pickLinesByRaw rows)) S1
  = sc_strike <$> head (scoredSorted (negRows rows) false).
Proof.
  unfold pickLinesByRaw. cbn [red green].
  rewrite !topTwo_guard by apply scoredSorted_length.
  split.
  - by destruct (scoredSorted (posRows rows) true) as [|a [|b rest]].
  - by destruct (scoredSorted (negRows rows) false) as [|a [|b rest]].
Qed.

(** With R1 at [a] and S1 at [b] the flip window holds R1's row, so the
    flip selection has a result. *)
Lemma flip_exists rows a b :
  strikeOf (red (pickLinesByRaw rows)) R1 = Some (Fin a) →
  ∃ f, pickZeroGammaStrike rows (Some (Fin a)) (Some (Fin b)) = Some (Fin f).
Proof.
  intros Ha.
  apply strikeOf_Some in Ha as (mk & Hmk & Hstrike & _).
  apply red_elem in Hmk as [_ (r & Hr & Hrs)].
  apply elem_of_posRows in Hr as (Hin & Hv & _).
  assert (r ∈ filter (λ x, inWindow (Fin (Z.min a b)) (Fin (Z.max a b)) x) rows) as Hw.
  { apply list_elem_of_filter. split; [|done]. apply Is_true_true.
    unfold inWindow. unfold valid in Hv. rewrite !andb_true_iff in Hv.
    destruct Hv as [[[_ Hoi] Hvol] _]. rewrite Hrs, Hstrike, Hoi, Hvol.
    unfold ge, le, lt. simpl. rewrite !andb_true_r.
    apply andb_true_iff. split; apply orb_true_iff.
    - destruct (Z.eq_dec a (Z.min a b)) as [<-|Hne];
        [right; apply Z.eqb_refl | left; apply Z.ltb_lt; lia].
    - destruct (Z.eq_dec a (Z.max a b)) as [<-|Hne];
        [right; apply Z.eqb_refl | left; apply Z.ltb_lt; lia]. }
  unfold pickZeroGammaStrike.
  destruct (filter _ rows) as [|x w] eqn:Hfilter; [by apply elem_of_nil in Hw|].
  destruct (head (flipScored (x :: w))) as [sc|] eqn:Hhead.
  - simpl. apply head_Some_elem_of, flipScored_elem in Hhead as (r' & Hr' & ->).
    rewrite <- Hfilter in Hr'. apply list_elem_of_filter in Hr' as [Hwin _].
    apply Is_true_true, inWindow_finite in Hwin as (Hf & _).
    destruct (strike r') as [f| | |]; try done. by exists f.
  - apply head_None in Hhead. apply (f_equal length) in Hhead.
    unfold flipScored in Hhead. rewrite sort_length, length_fmap in Hhead. done.
Qed.
End LevelNamesFacts.

(** X2.  Which levels the selector produces depends only on how many
    rows each regime has: R1 needs one positive-regime row and R2 two,
    S1 one negative-regime row and S2 two, and Flip exists exactly when
    both R1 and S1 do.  The levels always come in the order R1, R2, S1,
    S2, Flip, so there are never more than five and no name repeats. *)
Theorem level_names_by_regime_size (rows : list LevelSelector.GexRow) :
  let p := length (LevelSelector.posRows rows) in
  let n := length (LevelSelector.negRows rows) in
  LevelSelector.name <$> LevelSelector.computeLevels rows =
    (if decide (1 ≤ p)%nat then [LevelSelector.R1] else []) ++
    (if decide (2 ≤ p)%nat then [LevelSelector.R2] else []) ++
    (if decide (1 ≤ n)%nat then [LevelSelector.S1] else []) ++
    (if decide (2 ≤ n)%nat then [LevelSelector.S2] else []) ++
    (if decide (1 ≤ p ∧ 1 ≤ n)%nat then [LevelSelector.Flip] else []).
Proof.
  intros p n. unfold LevelSelector.computeLevels. cbv zeta.
  pose proof (regime_levels_names rows (LevelSelector.posRows rows) true
                LevelSelector.R1 LevelSelector.R2 "#ef4444" "#fca5a5" LevelSelector.ce
                ltac:(discriminate) (posRows_strike_finite rows)) as Hred.
  pose proof (regime_levels_names rows (LevelSelector.negRows rows) false
                LevelSelector.S1 LevelSelector.S2 "#10b981" "#86efac" LevelSelector.pe
                ltac:(discriminate) (negRows_strike_finite rows)) as Hgreen.
  cbv zeta in Hred, Hgreen.
  assert (LevelSelector.red (LevelSelector.pickLinesByRaw rows)
          = LevelSelector.topTwo (LevelSelector.scoredSorted (LevelSelector.posRows rows) true)
              LevelSelector.R1 LevelSelector.R2 "#ef4444" "#fca5a5" LevelSelector.ce) as Hr.
  { unfold LevelSelector.pickLinesByRaw. cbn [LevelSelector.red].
    by rewrite topTwo_guard by apply scoredSorted_length. }
  assert (LevelSelector.green (LevelSelector.pickLinesByRaw rows)
          = LevelSelector.topTwo (LevelSelector.scoredSorted (LevelSelector.negRows rows) false)
              LevelSelector.S1 LevelSelector.S2 "#10b981" "#86efac" LevelSelector.pe) as Hg.
  { unfold LevelSelector.pickLinesByRaw. cbn [LevelSelector.green].
    by rewrite topTwo_guard by apply scoredSorted_length. }
  rewrite <- Hr in Hred. rewrite <- Hg in Hgreen.
  rewrite !fmap_app in *.
  set (nR1 := LevelSelector.name <$> LevelSelector.pushLevel rows LevelSelector.R1 _ _) in *.
  set (nR2 := LevelSelector.name <$> LevelSelector.pushLevel rows LevelSelector.R2 _ _) in *.
  set (nS1 := LevelSelector.name <$> LevelSelector.pushLevel rows LevelSelector.S1 _ _) in *.
  set (nS2 := LevelSelector.name <$> LevelSelector.pushLevel rows LevelSelector.S2 _ _) in *.
  transitivity ((nR1 ++ nR2) ++ (nS1 ++ nS2) ++
                (LevelSelector.name <$> LevelSelector.pushLevel rows LevelSelector.Flip
                   (LevelSelector.pickZeroGammaStrike rows
                      (LevelSelector.strikeOf
                         (LevelSelector.red (LevelSelector.pickLinesByRaw rows))
                         LevelSelector.R1)
                      (LevelSelector.strikeOf
                         (LevelSelector.green (LevelSelector.pickLinesByRaw rows))
                         LevelSelector.S1)) None));
    [by rewrite <- !app_assoc|].
  rewrite Hred, Hgreen. fold p n. rewrite <- !app_assoc. do 4 f_equal.
  clear nR1 nR2 nS1 nS2 Hred Hgreen Hr Hg.
  (* the Flip level *)
  destruct (strikeOf_first rows) as [Hr1 Hs1].
  pose proof (scoredSorted_length (LevelSelector.posRows rows) true) as Hlp.
  pose proof (scoredSorted_length (LevelSelector.negRows rows) false) as Hln.
  fold p in Hlp. fold n in Hln.
  destruct (LevelSelector.scoredSorted (LevelSelector.posRows rows) true) as [|a ra] eqn:Ha.
  { rewrite Hr1. simpl in Hlp. rewrite <- Hlp. simpl. done. }
  destruct (LevelSelector.scoredSorted (LevelSelector.negRows rows) false) as [|b rb] eqn:Hb.
  { rewrite Hr1, Hs1. simpl in Hln. rewrite <- Hln. simpl.
    rewrite decide_False by lia.
    destruct (LevelSelector.sc_strike a) as [z| | |]; done. }
  rewrite decide_True by (simpl in Hlp, Hln; lia).
  destruct (scoredSorted_strike_finite a (LevelSelector.posRows rows) true
              (posRows_strike_finite rows)) as [za Hza]; [rewrite Ha; left|].
  destruct (scoredSorted_strike_finite b (LevelSelector.negRows rows) false
              (negRows_strike_finite rows)) as [zb Hzb]; [rewrite Hb; left|].
  assert (LevelSelector.strikeOf (LevelSelector.red (LevelSelector.pickLinesByRaw rows))
            LevelSelector.R1 = Some (Js.Fin za)) as Hr1' by (rewrite Hr1; simpl; by rewrite Hza).
  assert (LevelSelector.strikeOf (LevelSelector.green (LevelSelector.pickLinesByRaw rows))
            LevelSelector.S1 = Some (Js.Fin zb)) as Hs1' by (rewrite Hs1; simpl; by rewrite Hzb).
  destruct (flip_exists rows za zb Hr1') as [f Hf].
  by rewrite Hr1', Hs1', Hf.
Qed.

(** The scenario rows: two rows in each regime give all five levels. *)
Lemma level_names_by_regime_size_witness :
  LevelSelector.name <$> LevelSelector.computeLevels LevelSelector.scenarioRows
  = [LevelSelector.R1; LevelSelector.R2; LevelSelector.S1; LevelSelector.S2;
     LevelSelector.Flip].
Proof. exact (level_names_by_regime_size LevelSelector.scenarioRows). Defined.

Section FlipWindowFacts.
Import Js LevelSelector.

Lemma inWindow_bounds a b r :
  inWindow (Fin a) (Fin b) r = true → ∃ z, strike r = Fin z ∧ a ≤ z ≤ b.
Proof.
  unfold inWindow, ge, le, lt. rewrite !andb_true_iff, !orb_true_iff.
  intros [[[[Hf Hge] Hle] _] _].
  destruct (strike r) as [z| | |]; try done. exists z. split; [done|].
  simpl in Hge, Hle. rewrite !Z.ltb_lt, !Z.eqb_eq in *. lia.
Qed.

Lemma pickZeroGammaStrike_Some rows r1 s1 s :
  pickZeroGammaStrike rows r1 s1 = Some s →
  ∃ a b f, r1 = Some (Fin a) ∧ s1 = Some (Fin b) ∧ s = Fin f ∧
           Z.min a b ≤ f ≤ Z.max a b.
Proof.
  unfold pickZeroGammaStrike.
  destruct r1 as [[a| | |]|], s1 as [[b| | |]|]; try done.
  destruct (filter _ rows) as [|x w] eqn:Hw; [done|].
  destruct (head (flipScored (x :: w))) as [sc|] eqn:Hhead; [|done].
  simpl. intros [= <-].
  apply head_Some_elem_of, flipScored_elem in Hhead as (r & Hr & ->).
  rewrite <- Hw in Hr. apply list_elem_of_filter in Hr as [Hin _].
  apply Is_true_true, inWindow_bounds in Hin as (f & Hf & Hbounds).
  exists a, b, f. by rewrite Hf.
Qed.
End FlipWindowFacts.

(** X3.  A Flip level is never produced alone and never outside the
    R1-S1 window: when the list holds a Flip level it also holds R1 and
    S1, and the Flip strike lies in the closed interval between their
    strikes.  Flip carries no side. *)
Theorem flip_lies_between_R1_and_S1 (rows : list LevelSelector.GexRow)
    (lv : LevelSelector.Level) :
  lv ∈ LevelSelector.computeLevels rows →
  LevelSelector.name lv = LevelSelector.Flip →
  ∃ l1 l2 a b f,
    l1 ∈ LevelSelector.computeLevels rows ∧ l2 ∈ LevelSelector.computeLevels rows ∧
    LevelSelector.name l1 = LevelSelector.R1 ∧ LevelSelector.name l2 = LevelSelector.S1 ∧
    LevelSelector.level_strike l1 = Js.Fin a ∧
    LevelSelector.level_strike l2 = Js.Fin b ∧
    LevelSelector.level_strike lv = Js.Fin f ∧
    Z.min a b ≤ f ≤ Z.max a b ∧
    LevelSelector.side lv = None.
Proof.
  intros Hlv Hname. unfold LevelSelector.computeLevels in *. cbv zeta in *.
  rewrite !elem_of_app in Hlv.
  destruct Hlv as [Hlv|[Hlv|[Hlv|[Hlv|Hlv]]]];
    apply elem_of_pushLevel in Hlv as (Hn & Hs & _ & _ & Hside); try congruence.
  apply pickZeroGammaStrike_Some in Hs as (a & b & f & Hr1 & Hs1 & Hf & Hbounds).
  rewrite Hr1, Hs1.
  eexists _, _, a, b, f.
  refine (conj _ (conj _ (conj _ (conj _ (conj _ (conj _ (conj Hf (conj Hbounds Hside)))))))).
  - apply elem_of_app. left. simpl. left.
  - do 2 (apply elem_of_app; right). apply elem_of_app. left. simpl. left.
  - reflexivity.
  - reflexivity.
  - reflexivity.
  - reflexivity.
Qed.

(** The scenario rows: Flip at 2000, R1 at 2000, S1 at 1900. *)
Lemma flip_lies_between_R1_and_S1_witness :
  ∃ l1 l2 a b f,
    l1 ∈ LevelSelector.computeLevels LevelSelector.scenarioRows ∧
    l2 ∈ LevelSelector.computeLevels LevelSelector.scenarioRows ∧
    LevelSelector.name l1 = LevelSelector.R1 ∧ LevelSelector.name l2 = LevelSelector.S1 ∧
    LevelSelector.level_strike l1 = Js.Fin a ∧
    LevelSelector.level_strike l2 = Js.Fin b ∧
    Js.Fin 2000 = Js.Fin f ∧
    Z.min a b ≤ f ≤ Z.max a b ∧
    (None : option LevelSelector.Side) = None.
Proof.
  apply (flip_lies_between_R1_and_S1 LevelSelector.scenarioRows
           (LevelSelector.mkLevel LevelSelector.Flip (Js.Fin 2000)
              (Some (Js.Fin 100)) (Some (Js.Fin 50)) None)).
  - by_decision.
  - reflexivity.
Defined.

Section RankRangeFacts.
Import Js LevelSelector.

(** Every strike of the ranked list gets a rank between 1 and the number
    of ranked rows (counted from the entry index). *)
Lemma setRanks_range (l : list GexRow) : ∀ i m k,
  k ∈ strike <$> l →
  ∃ v, setRanks l i m !! k = Some v ∧ i + 1 ≤ v ≤ i + Z.of_nat (length l).
Proof.
  induction l as [|x l IH]; intros i m k Hk; [by apply elem_of_nil in Hk|].
  simpl setRanks. destruct (decide (k ∈ strike <$> l)) as [Hin|Hout].
  - destruct (IH (i + 1) (<[strike x := i + 1]> m) k Hin) as (v & Hv & Hrange).
    exists v. split; [done|]. simpl length. lia.
  - rewrite fmap_cons in Hk. apply elem_of_cons in Hk as [->|Hk]; [|done].
    exists (i + 1). rewrite setRanks_lookup_other by done.
    rewrite lookup_insert_eq. split; [done|]. simpl length. lia.
Qed.

Lemma rankMap_range regime key desc r :
  r ∈ regime →
  ∃ v, rankMap regime key desc !! strike r = Some v ∧
       1 ≤ v ≤ Z.of_nat (length regime).
Proof.
  intros Hr. unfold rankMap.
  destruct (setRanks_range (sort (rankCmp key desc) regime) 0 ∅ (strike r))
    as (v & Hv & Hrange).
  { apply list_elem_of_fmap_2. by apply (proj2 (sort_elem_of _ _ _)). }
  exists v. rewrite sort_length in Hrange. split; [done|lia].
Qed.

Lemma rankMapAbs_range between r :
  r ∈ between →
  ∃ v, rankMapAbs between !! strike r = Some v ∧
       1 ≤ v ≤ Z.of_nat (length between).
Proof.
  intros Hr. unfold rankMapAbs.
  destruct (setRanks_range (sort absCmp between) 0 ∅ (strike r))
    as (v & Hv & Hrange).
  { apply list_elem_of_fmap_2. by apply (proj2 (sort_elem_of _ _ _)). }
  exists v. rewrite sort_length in Hrange. split; [done|lia].
Qed.

Lemma getOr9999_range m k v n :
  m !! k = Some v → 1 ≤ v ≤ n → getOr9999 m k = v.
Proof.
  intros Hm Hv. unfold getOr9999. rewrite Hm. destruct v; [lia|done..].
Qed.
End RankRangeFacts.

(** X4.  In the regime scoring of [pickLinesByRaw] the [?? 9999]
    fallback is never taken: every scored row has an open-interest rank
    and a volume rank between 1 and the number of rows of its regime,
    whatever the rows (repeated strikes included), so its score lies
    between 3 and three times that number. *)
Theorem regime_ranks_stay_in_range (regime : list LevelSelector.GexRow)
    (desc : bool) (sc : LevelSelector.Scored) :
  sc ∈ LevelSelector.scoredSorted regime desc →
  let n := Z.of_nat (length regime) in
  1 ≤ LevelSelector.oiR sc ≤ n ∧
  1 ≤ LevelSelector.volR sc ≤ n ∧
  LevelSelector.score sc = 2 * LevelSelector.oiR sc + LevelSelector.volR sc ∧
  3 ≤ LevelSelector.score sc ≤ 3 * n.
Proof.
  intros Hsc n. unfold LevelSelector.scoredSorted in Hsc.
  apply (proj1 (sort_elem_of _ _ _)) in Hsc.
  apply list_elem_of_fmap in Hsc as (r & -> & Hr).
  destruct (rankMap_range regime LevelSelector.key_gex_oi_raw desc r Hr)
    as (oi & Hoi & Hoir).
  destruct (rankMap_range regime LevelSelector.key_gex_vol_raw desc r Hr)
    as (vol & Hvol & Hvolr).
  unfold LevelSelector.scoreOf. cbv zeta. rewrite Hoi, Hvol.
  cbn [LevelSelector.oiR LevelSelector.volR LevelSelector.score default from_option].
  unfold LevelSelector.OI_WEIGHT, LevelSelector.VOL_WEIGHT. fold n in Hoir, Hvolr.
  refine (conj Hoir (conj Hvolr (conj _ _))); unfold id; lia.
Qed.

(** The positive rows of the scenario: 2000 ranks first on open interest
    and second on volume. *)
Lemma regime_ranks_stay_in_range_witness :
  1 ≤ 1 ≤ 2 ∧ 1 ≤ 2 ≤ 2 ∧ 4 = 2 * 1 + 2 ∧ 3 ≤ 4 ≤ 3 * 2.
Proof.
  apply (regime_ranks_stay_in_range
           (LevelSelector.posRows LevelSelector.scenarioRows) true
           (LevelSelector.mkScored (Js.Fin 2000) 1 2 4)).
  by_decision.
Defined.

(** X5.  In the flip scoring of [pickZeroGammaStrike] the [|| 9999]
    fallback is never taken either: ranks start at 1, so no stored rank
    is 0, and every row of the window is ranked; each flip score lies
    between 2 and twice the number of rows in the window. *)
Theorem flip_scores_stay_in_range (between : list LevelSelector.GexRow)
    (fs : LevelSelector.FlipScored) :
  fs ∈ LevelSelector.flipScored between →
  2 ≤ LevelSelector.fs_score fs ≤ 2 * Z.of_nat (length between).
Proof.
  intros Hfs. unfold LevelSelector.flipScored in Hfs.
  apply (proj1 (sort_elem_of _ _ _)) in Hfs.
  apply list_elem_of_fmap in Hfs as (r & -> & Hr).
  destruct (rankMapAbs_range between r Hr) as (a & Ha & Har).
  destruct (rankMap_range between LevelSelector.key_gex_vol_raw true r Hr)
    as (v & Hv & Hvr).
  unfold LevelSelector.flipScoreOf. cbn [LevelSelector.fs_score].
  rewrite (getOr9999_range _ _ _ _ Ha Har), (getOr9999_range _ _ _ _ Hv Hvr). lia.
Qed.

Lemma flip_scores_stay_in_range_witness :
  2 ≤ 4 ≤ 2 * Z.of_nat (length [LevelSelector.row 2000 100 50;
                                 LevelSelector.row 1900 (-120) (-40)]).
Proof.
  apply (flip_scores_stay_in_range
           [LevelSelector.row 2000 100 50; LevelSelector.row 1900 (-120) (-40)]
           (LevelSelector.mkFlipScored (Js.Fin 1900) 4)).
  by_decision.
Defined.

Section DistinctStrikeFacts.
Import Js LevelSelector.

Lemma scoredSorted_strikes regime desc :
  sc_strike <$> scoredSorted regime desc ≡ₚ strike <$> regime.
Proof.
  unfold scoredSorted. cbv zeta. rewrite sort_Permutation.
  rewrite <- list_fmap_compose. done.
Qed.

(** The strikes pushed for one regime are those of its first two scored
    rows. *)
Lemma regime_levels_strikes rows regime desc l1 l2 c1 c2 sd :
  l1 ≠ l2 →
  (∀ r, r ∈ regime → finite (strike r) = true) →
  let marks := topTwo (scoredSorted regime desc) l1 l2 c1 c2 sd in
  level_strike <$> (pushLevel rows l1 (strikeOf marks l1) (Some sd) ++
                    pushLevel rows l2 (strikeOf marks l2) (Some sd))
  = take 2 (sc_strike <$> scoredSorted regime desc).
Proof.
  intros Hne Hfin marks. subst marks.
  pose proof (λ sc, scoredSorted_strike_finite sc regime desc Hfin) as Hsc.
  destruct (scoredSorted regime desc) as [|a [|b rest]].
  - done.
  - destruct (Hsc a ltac:(left)) as [za Hza].
    unfold strikeOf. simpl.
    rewrite bool_decide_eq_true_2 by done. rewrite bool_decide_eq_false_2 by done.
    simpl. by rewrite Hza.
  - destruct (Hsc a ltac:(left)) as [za Hza].
    destruct (Hsc b ltac:(right; left)) as [zb Hzb].
    unfold strikeOf. simpl.
    rewrite (bool_decide_eq_true_2 (l1 = l1)) by done.
    rewrite (bool_decide_eq_false_2 (l1 = l2)) by done.
    rewrite (bool_decide_eq_true_2 (l2 = l2)) by done.
    simpl. by rewrite Hza, Hzb.
Qed.

Lemma isPos_not_isNeg r : isPos r = true → isNeg r = true → False.
Proof.
  unfold isPos, isNeg, lt, gt. rewrite !andb_true_iff. intros [Hp _] [Hn _].
  destruct (gex_oi_raw r) as [z| | |]; simpl in *; try done.
  apply Z.ltb_lt in Hp, Hn. lia.
Qed.

Lemma NoDup_regime_strikes rows :
  NoDup (strike <$> rows) →
  NoDup ((sc_strike <$> scoredSorted (posRows rows) true) ++
         (sc_strike <$> scoredSorted (negRows rows) false)).
Proof.
  intros Hnd. rewrite !scoredSorted_strikes. apply NoDup_app. split_and!.
  - by apply NoDup_strike_posRows.
  - intros s Hp Hn.
    apply list_elem_of_fmap in Hp as (rp & -> & Hrp).
    apply list_elem_of_fmap in Hn as (rn & Heq & Hrn).
    apply elem_of_posRows in Hrp as (Hinp & _ & Hpos).
    apply elem_of_negRows in Hrn as (Hinn & _ & Hneg).
    pose proof (NoDup_fmap_member_inj strike rows rp rn Hnd Hinp Hinn Heq) as ->.
    by apply (isPos_not_isNeg rn).
  - by apply NoDup_strike_negRows.
Qed.
End DistinctStrikeFacts.

(** X6.  When no two input rows share a strike, the levels R1, R2, S1
    and S2 sit on pairwise different strikes: a strike is never reported
    as two resistance levels, as two support levels, or as both support
    and resistance.  (Flip is left out: it may coincide with R1 or S1.) *)
Theorem edge_levels_on_distinct_strikes (rows : list LevelSelector.GexRow) :
  NoDup (LevelSelector.strike <$> rows) →
  NoDup (LevelSelector.level_strike <$>
           LevelSelector.withoutFlip (LevelSelector.computeLevels rows)).
Proof.
  intros Hnd. rewrite withoutFlip_computeLevels. cbv zeta.
  pose proof (regime_levels_strikes rows (LevelSelector.posRows rows) true
                LevelSelector.R1 LevelSelector.R2 "#ef4444" "#fca5a5" LevelSelector.ce
                ltac:(discriminate) (posRows_strike_finite rows)) as Hred.
  pose proof (regime_levels_strikes rows (LevelSelector.negRows rows) false
                LevelSelector.S1 LevelSelector.S2 "#10b981" "#86efac" LevelSelector.pe
                ltac:(discriminate) (negRows_strike_finite rows)) as Hgreen.
  cbv zeta in Hred, Hgreen.
  assert (LevelSelector.red (LevelSelector.pickLinesByRaw rows)
          = LevelSelector.topTwo (LevelSelector.scoredSorted (LevelSelector.posRows rows) true)
              LevelSelector.R1 LevelSelector.R2 "#ef4444" "#fca5a5" LevelSelector.ce) as Hr.
  { unfold LevelSelector.pickLinesByRaw. cbn [LevelSelector.red].
    by rewrite topTwo_guard by apply scoredSorted_length. }
  assert (LevelSelector.green (LevelSelector.pickLinesByRaw rows)
          = LevelSelector.topTwo (LevelSelector.scoredSorted (LevelSelector.negRows rows) false)
              LevelSelector.S1 LevelSelector.S2 "#10b981" "#86efac" LevelSelector.pe) as Hg.
  { unfold LevelSelector.pickLinesByRaw. cbn [LevelSelector.green].
    by rewrite topTwo_guard by apply scoredSorted_length. }
  rewrite <- Hr in Hred. rewrite <- Hg in Hgreen.
  rewrite (app_assoc (LevelSelector.pushLevel rows LevelSelector.R1 _ _)).
  rewrite fmap_app, Hred, Hgreen.
  eapply sublist_NoDup; [exact (NoDup_regime_strikes rows Hnd)|].
  apply sublist_app; apply sublist_take.
Qed.

(** The scenario rows: R1 2000, R2 2100, S1 1900, S2 1800. *)
Lemma edge_levels_on_distinct_strikes_witness :
  NoDup (LevelSelector.level_strike <$>
           LevelSelector.withoutFlip
             (LevelSelector.computeLevels LevelSelector.scenarioRows)).
Proof.
  apply (edge_levels_on_distinct_strikes LevelSelector.scenarioRows).
  by_decision.
Defined.

(* ===================================================================== *)
(** ** Market clock: the host-clock gate against the IST gate            *)
(* ===================================================================== *)

Lemma civil_shift (offsetMin offsetMin' t : Z) :
  MarketClock.civil offsetMin t
  = MarketClock.civil offsetMin' (t + (offsetMin - offsetMin') * 60000).
Proof.
  unfold MarketClock.civil.
  by replace (t + (offsetMin - offsetMin') * 60000 + offsetMin' * 60000)
    with (t + offsetMin * 60000) by lia.
Qed.

(** X7.  The host-clock gate of [app.ts] and of the quote service is the
    IST gate read at another instant: on a host whose clock runs
    [hostOffsetMin] minutes ahead of UTC it answers, at every instant,
    what the IST gate answers [hostOffsetMin - 330] minutes later.  So
    the watcher's session window is the right one shifted by exactly the
    host's distance from Asia/Kolkata, and right on a host set to
    UTC+05:30. *)
Theorem isMarketOpen_is_shifted_ist_gate (hostOffsetMin now : Z) :
  MarketClock.isMarketOpen hostOffsetMin now
  = MarketClock.isMarketOpenIst
      (now + (hostOffsetMin - MarketClock.IST_OFFSET_MIN) * 60000).
Proof.
  rewrite <- isMarketOpen_on_ist_host. unfold MarketClock.isMarketOpen.
  by rewrite (civil_shift hostOffsetMin MarketClock.IST_OFFSET_MIN now).
Qed.

(** A host on UTC at 2024-01-01T04:00:00Z: the watcher's gate answers
    what the IST gate answers five and a half hours earlier, at 04:00 in
    Asia/Kolkata. *)
Lemma isMarketOpen_is_shifted_ist_gate_witness :
  MarketClock.isMarketOpen 0 1704081600000
  = MarketClock.isMarketOpenIst (1704081600000 - 330 * 60000).
Proof. exact (isMarketOpen_is_shifted_ist_gate 0 1704081600000). Defined.

(* ===================================================================== *)
(** ** Minute jobs                                                       *)
(* ===================================================================== *)

Lemma msUntilNextMinute_boundary (start : Z) :
  0 ≤ start →
  start + MinuteJob.msUntilNextMinute start = 60000 * (start / 60000 + 1).
Proof.
  intros Hs. unfold MinuteJob.msUntilNextMinute, MinuteJob.ONE_MIN_MS.
  rewrite Z.rem_mod_nonneg by lia.
  pose proof (Z.div_mod start 60000 ltac:(lia)). lia.
Qed.

Lemma firing_sum (start : Z) (late : nat → Z) (k : nat) :
  MinuteJob.firing start late k
  = start + MinuteJob.msUntilNextMinute start + Z.of_nat k * 60000 + MinuteJob.lateness late k.
Proof.
  induction k as [|k IH]; cbn [MinuteJob.firing MinuteJob.lateness]; [lia|].
  rewrite IH. unfold MinuteJob.ONE_MIN_MS. lia.
Qed.

Lemma lateness_nonneg (late : nat → Z) (k : nat) :
  (∀ i, 0 ≤ late i) → 0 ≤ MinuteJob.lateness late k.
Proof.
  intros Hl. induction k as [|k IH]; cbn [MinuteJob.lateness]; [done|].
  pose proof (Hl (S k)). lia.
Qed.

(** X8.  The timers of a minute job started at any instant at or after
    the epoch.  The job waits more than 0 and at most 60000 ms for its
    first firing, a full minute when started exactly on a boundary, and
    that firing is due on a minute boundary, in the bucket after the
    start's.  The interval is armed in the first firing and a timer
    never fires early, so firing [k] happens 60000 ms per round plus
    the accumulated lateness after that boundary, in bucket
    [start's + 1 + k + floor(lateness / 60000)]: every firing falls in a
    later bucket than the one before it, so no two share a bucket; it
    falls in the [k+1]-th bucket after the start's as long as the
    accumulated lateness stays under a minute, and in a later one from
    then on, so a bucket is skipped. *)
Theorem minute_job_runs_once_per_bucket (start : Z) (late : nat → Z) (k : nat) :
  0 ≤ start →
  (∀ i, 0 ≤ late i) →
  0 < MinuteJob.msUntilNextMinute start ≤ 60000 ∧
  (start mod 60000 = 0 → MinuteJob.msUntilNextMinute start = 60000) ∧
  (start + MinuteJob.msUntilNextMinute start) mod 60000 = 0 ∧
  MinuteJob.minuteBucket (start + MinuteJob.msUntilNextMinute start)
  = MinuteJob.minuteBucket start + 1 ∧
  MinuteJob.firing start late k
  = start + MinuteJob.msUntilNextMinute start + Z.of_nat k * 60000
    + MinuteJob.lateness late k ∧
  MinuteJob.minuteBucket (MinuteJob.firing start late k)
  = MinuteJob.minuteBucket start + 1 + Z.of_nat k + MinuteJob.lateness late k / 60000 ∧
  MinuteJob.minuteBucket (MinuteJob.firing start late k)
  < MinuteJob.minuteBucket (MinuteJob.firing start late (S k)) ∧
  (MinuteJob.lateness late k < 60000 →
     MinuteJob.minuteBucket (MinuteJob.firing start late k)
     = MinuteJob.minuteBucket start + 1 + Z.of_nat k) ∧
  (60000 ≤ MinuteJob.lateness late k →
     MinuteJob.minuteBucket start + 1 + Z.of_nat k
     < MinuteJob.minuteBucket (MinuteJob.firing start late k)).
Proof.
  intros Hs Hlate. pose proof (msUntilNextMinute_boundary start Hs) as Hb.
  pose proof (lateness_nonneg late k Hlate) as Hnn.
  assert (MinuteJob.minuteBucket (MinuteJob.firing start late k)
          = MinuteJob.minuteBucket start + 1 + Z.of_nat k + MinuteJob.lateness late k / 60000)
    as Hbucket.
  { rewrite firing_sum. unfold MinuteJob.minuteBucket.
    replace (start + MinuteJob.msUntilNextMinute start + Z.of_nat k * 60000
             + MinuteJob.lateness late k)
      with ((start / 60000 + 1 + Z.of_nat k) * 60000 + MinuteJob.lateness late k) by lia.
    rewrite Z.div_add_l by lia. reflexivity. }
  refine (conj _ (conj _ (conj _ (conj _ (conj (firing_sum _ _ _)
            (conj Hbucket (conj _ (conj _ _)))))))).
  - unfold MinuteJob.msUntilNextMinute, MinuteJob.ONE_MIN_MS.
    rewrite Z.rem_mod_nonneg by lia.
    pose proof (Z.mod_pos_bound start 60000 ltac:(lia)). lia.
  - intros Hz. unfold MinuteJob.msUntilNextMinute, MinuteJob.ONE_MIN_MS.
    rewrite Z.rem_mod_nonneg by lia. lia.
  - rewrite Hb, Z.mul_comm. apply Z.mod_mul. lia.
  - unfold MinuteJob.minuteBucket. rewrite Hb, Z.mul_comm, Z.div_mul by lia. reflexivity.
  - unfold MinuteJob.minuteBucket. cbn [MinuteJob.firing]. unfold MinuteJob.ONE_MIN_MS.
    pose proof (Hlate (S k)) as Hl.
    apply Z.lt_le_trans with ((MinuteJob.firing start late k + 1 * 60000) / 60000).
    + rewrite Z.div_add by lia. lia.
    + apply Z.div_le_mono; lia.
  - intros Hlt. rewrite Hbucket, Z.div_small by lia. lia.
  - intros Hge. rewrite Hbucket.
    pose proof (Z.div_le_mono 60000 (MinuteJob.lateness late k) 60000 ltac:(lia) Hge) as Hd.
    rewrite Z.div_same in Hd by lia. lia.
Qed.

(** Started at 2024-01-01T04:00:12.345Z, the first firing 5 ms late,
    every later one 2 ms: firing 3 is 11 ms after a boundary and in the
    fourth bucket after the start's.  *)
Lemma minute_job_runs_once_per_bucket_witness :
  let late := λ i : nat, match i with O => 5 | _ => 2 end in
  MinuteJob.msUntilNextMinute 1704081612345 = 47655 ∧
  MinuteJob.firing 1704081612345 late 3 = 1704081612345 + 47655 + 3 * 60000 + 11 ∧
  MinuteJob.minuteBucket (MinuteJob.firing 1704081612345 late 3)
  = MinuteJob.minuteBucket 1704081612345 + 1 + 3.
Proof.
  intros late.
  assert (∀ i, 0 ≤ late i) as Hlate by (intros [|i]; cbn; lia).
  destruct (minute_job_runs_once_per_bucket 1704081612345 late 3 ltac:(lia) Hlate)
    as (_ & _ & _ & _ & _ & _ & _ & Hbucket & _).
  refine (conj _ (conj _ _)); [reflexivity | reflexivity |].
  apply Hbucket. vm_compute. reflexivity.
Defined.

Lemma sod_split s : s mod 86400 = s mod 60 + 60 * ((s / 60) mod 1440).
Proof. change 86400 with (60 * 1440). apply Z.rem_mul_r; lia. Qed.

Lemma sod_hours s : (s mod 86400) / 3600 = ((s / 60) mod 1440) / 60.
Proof.
  rewrite sod_split. pose proof (Z.mod_pos_bound s 60 ltac:(lia)).
  pose proof (Z.mod_pos_bound (s / 60) 1440 ltac:(lia)).
  set (r := s mod 60) in *. set (a := (s / 60) mod 1440) in *.
  change 3600 with (60 * 60). rewrite <- Z.div_div by lia.
  rewrite (Z.mul_comm 60 a), Z.div_add, (Z.div_small r) by lia. reflexivity.
Qed.

Lemma sod_minutes s : (s mod 86400) mod 3600 / 60 = ((s / 60) mod 1440) mod 60.
Proof.
  rewrite sod_split. pose proof (Z.mod_pos_bound s 60 ltac:(lia)).
  pose proof (Z.mod_pos_bound (s / 60) 1440 ltac:(lia)).
  set (r := s mod 60) in *. set (a := (s / 60) mod 1440) in *.
  change 3600 with (60 * 60). rewrite Z.rem_mul_r by lia.
  rewrite (Z.mul_comm 60 a), Z.div_add, (Z.div_small r), Z.add_0_l by lia.
  rewrite Z.mod_add, (Z.mod_small r) by lia.
  pose proof (Z.mod_pos_bound a 60 ltac:(lia)).
  rewrite (Z.mul_comm 60), Z.div_add, (Z.div_small r) by lia. reflexivity.
Qed.

(** Weekday, hour and minute of an instant are those of its minute. *)
Lemma civil_by_minute (offsetMin t : Z) :
  let m := t / 60000 + offsetMin in
  let c := MarketClock.civil offsetMin t in
  MarketClock.day c = (m / 1440 + 4) mod 7 ∧
  MarketClock.hours c = (m mod 1440) / 60 ∧
  MarketClock.minutes c = (m mod 1440) mod 60.
Proof.
  intros m c. subst c. unfold MarketClock.civil.
  cbn [MarketClock.day MarketClock.hours MarketClock.minutes].
  set (secs := (t + offsetMin * 60000) / 1000).
  assert (secs / 60 = m) as Hm.
  { subst secs m. rewrite Z.div_div by lia. change (1000 * 60) with 60000.
    by rewrite Z.div_add by lia. }
  rewrite sod_hours, sod_minutes, Hm. split; [|done].
  by rewrite <- Hm, Z.div_div by lia.
Qed.

Lemma isMarketOpenIst_by_minute (t t' : Z) :
  t / 60000 = t' / 60000 →
  MarketClock.isMarketOpenIst t = MarketClock.isMarketOpenIst t'.
Proof.
  intros Heq. apply eq_true_iff_eq. rewrite !isMarketOpenIst_window. cbv zeta.
  destruct (civil_by_minute MarketClock.IST_OFFSET_MIN t) as (-> & -> & ->).
  destruct (civil_by_minute MarketClock.IST_OFFSET_MIN t') as (-> & -> & ->).
  by rewrite Heq.
Qed.

(** X9.  The IST gate of the minute jobs answers per minute bucket: two
    instants that [minuteBucket] puts in one bucket get the same answer,
    and the ticks of both jobs do the same at either instant.  The gex
    job computes a snapshot exactly when no earlier run is in flight and
    the instant is on Monday to Friday between 09:15 and 15:30 in
    Asia/Kolkata; the breadth job saves under the same window, without
    the in-flight guard; and a gex tick leaves the [running] flag as it
    found it. *)
Theorem minute_jobs_gated_per_bucket {E} (t t' : Z) (answer : outcome E ())
    (running : bool) :
  MinuteJob.minuteBucket t = MinuteJob.minuteBucket t' →
  let c := MarketClock.civil MarketClock.IST_OFFSET_MIN t in
  let inSession :=
    1 ≤ MarketClock.day c ≤ 5 ∧
    9 * 60 + 15 ≤ MarketClock.hours c * 60 + MarketClock.minutes c ≤ 15 * 60 + 30 in
  MarketClock.isMarketOpenIst t = MarketClock.isMarketOpenIst t' ∧
  (MinuteJob.ComputeAndSave ∈ (MinuteJob.gexTick t answer running).2 ↔
     running = false ∧ inSession) ∧
  (MinuteJob.gexTick t answer running).2 = (MinuteJob.gexTick t' answer running).2 ∧
  (MinuteJob.gexTick t answer running).1 = running ∧
  (MinuteJob.SaveAdvDec ∈ MinuteJob.advTick t answer ↔ inSession) ∧
  MinuteJob.advTick t answer = MinuteJob.advTick t' answer.
Proof.
  intros Hb c inSession. subst inSession.
  pose proof (isMarketOpenIst_by_minute t t' Hb) as Hgate.
  pose proof (isMarketOpenIst_window t) as Hwin. cbv zeta in Hwin. fold c in Hwin.
  unfold MinuteJob.gexTick, MinuteJob.advTick. rewrite <- Hgate.
  refine (conj eq_refl (conj _ (conj eq_refl (conj _ (conj _ eq_refl))))).
  - destruct running; [split; [intros Hin; by apply elem_of_nil in Hin | by intros [? _]]|].
    destruct (MarketClock.isMarketOpenIst t); cbn [snd].
    + split; [intros _; split; [done|by apply Hwin] | intros _].
      destruct answer; left.
    + split; [intros Hin; by apply elem_of_nil in Hin|].
      intros [_ Hs]. apply Hwin in Hs. done.
  - destruct running; [done|].
    by destruct (MarketClock.isMarketOpenIst t), answer.
  - destruct (MarketClock.isMarketOpenIst t).
    + split; [intros _; by apply Hwin | intros _].
      destruct answer; left.
    + split; [intros Hin; by apply elem_of_nil in Hin|].
      intros Hs. apply Hwin in Hs. done.
Qed.

(** Monday 2024-01-01, 09:30:00 and 09:30:59.999 in Asia/Kolkata. *)
Lemma minute_jobs_gated_per_bucket_witness :
  MarketClock.isMarketOpenIst 1704081600000 = MarketClock.isMarketOpenIst 1704081659999 ∧
  MinuteJob.ComputeAndSave ∈
    (MinuteJob.gexTick 1704081600000 (Returned () : outcome string ()) false).2.
Proof.
  pose proof (minute_jobs_gated_per_bucket 1704081600000 1704081659999
                (Returned () : outcome string ()) false eq_refl) as (Hgate & Hgex & _).
  split; [exact Hgate|]. apply Hgex. vm_compute. repeat split; discriminate.
Defined.

(* ===================================================================== *)
(** ** Time spent in the retry wrappers                                  *)
(* ===================================================================== *)

Section RetryBudgetFacts.
Import Retry RetryBudget.
Context {T : Type}.
Variable fn : nat → outcome HttpError T.

Lemma totalSleep_cons_call k tr : totalSleep (Call k :: tr) = totalSleep tr.
Proof. done. Qed.

Lemma totalSleep_cons_sleep ms tr : totalSleep (Sleep ms :: tr) = ms + totalSleep tr.
Proof. done. Qed.

Lemma sumWaits_S wait i n : sumWaits wait i (S n) = wait i + sumWaits wait (S i) n.
Proof. done. Qed.

Lemma sumWaits_nonneg wait i n :
  (∀ j, (i ≤ j < i + n)%nat → 0 ≤ wait j) → 0 ≤ sumWaits wait i n.
Proof.
  revert i. induction n as [|n IH]; intros i Hw; [done|].
  rewrite sumWaits_S. pose proof (Hw i ltac:(lia)).
  pose proof (IH (S i) ltac:(intros j Hj; apply Hw; lia)). lia.
Qed.

Lemma ocLoop_sleep_bound remaining : ∀ i lastErr,
  (∀ j, (i ≤ j < i + remaining)%nat → 0 ≤ ocWait j) →
  0 ≤ totalSleep (ocLoop fn remaining i lastErr).1 ≤ sumWaits ocWait i remaining.
Proof.
  induction remaining as [|n IH]; intros i lastErr Hw; [done|].
  pose proof (Hw i ltac:(lia)) as Hi.
  pose proof (sumWaits_nonneg ocWait (S i) n ltac:(intros j Hj; apply Hw; lia)) as Hrest.
  rewrite sumWaits_S. cbn [ocLoop].
  destruct (fn i) as [v|e]; [cbn; lia|].
  destruct (is401 _); [cbn; lia|].
  destruct (retryable _); [|cbn; lia].
  specialize (IH (S i) (Some e) ltac:(intros j Hj; apply Hw; lia)).
  destruct (ocLoop _ _ _ _) as [tr out]. cbn [fst] in *.
  rewrite totalSleep_cons_call, totalSleep_cons_sleep. lia.
Qed.

Lemma quoteLoop_sleep_bound remaining : ∀ i lastErr,
  0 ≤ totalSleep (quoteLoop fn remaining i lastErr).1 ≤ sumWaits quoteWait i remaining.
Proof.
  assert (∀ j, 0 ≤ quoteWait j) as Hw by (intros j; unfold quoteWait; lia).
  induction remaining as [|n IH]; intros i lastErr; [done|].
  pose proof (Hw i) as Hi.
  pose proof (sumWaits_nonneg quoteWait (S i) n ltac:(intros j _; apply Hw)) as Hrest.
  rewrite sumWaits_S. cbn [quoteLoop].
  destruct (fn i) as [v|e]; [cbn; lia|].
  destruct (retryable _); [|cbn; lia].
  specialize (IH (S i) (Some e)).
  destruct (quoteLoop _ _ _ _) as [tr out]. cbn [fst] in *.
  rewrite totalSleep_cons_call, totalSleep_cons_sleep. lia.
Qed.

Lemma totalSleep_backoffFrom wait i n :
  totalSleep (backoffFrom wait i n) = sumWaits wait i n.
Proof.
  revert i. induction n as [|n IH]; intros i; [done|].
  rewrite backoffFrom_S, totalSleep_cons_call, totalSleep_cons_sleep, sumWaits_S.
  by rewrite IH.
Qed.

Lemma ocWait_nonneg j : (j ≤ 30)%nat → 0 ≤ ocWait j.
Proof.
  intros Hj. unfold ocWait. rewrite shl1_small by done.
  pose proof (Z.pow_pos_nonneg 2 (Z.of_nat j) ltac:(lia) ltac:(lia)). lia.
Qed.
End RetryBudgetFacts.

(** X10.  How long the retry wrappers can sleep, whatever the upstream
    answers.  With a budget of [tries <= 4] attempts, [ocRetry] sleeps at
    most [1000 * (2^tries - 1)] ms in all (7 s for the expiry list, 15 s
    for the option chain) and [quoteRetry] at most
    [500 * tries * (tries + 1)] ms (6 s for its budget of three).  The
    bounds are met when every attempt is answered with 429 or 5xx: the
    wrappers sleep after the last failed attempt too, before throwing
    its error. *)
Theorem retry_sleep_budget {T} (fn : nat → outcome Retry.HttpError T) (tries : nat) :
  (tries ≤ 4)%nat →
  0 ≤ RetryBudget.totalSleep (Retry.ocRetry fn tries).1
    ≤ 1000 * (2 ^ Z.of_nat tries - 1) ∧
  0 ≤ RetryBudget.totalSleep (Retry.quoteRetry fn tries).1
    ≤ 500 * Z.of_nat tries * (Z.of_nat tries + 1) ∧
  ((∀ j, (j < tries)%nat → Retry.failsRetryably fn j) →
     RetryBudget.totalSleep (Retry.ocRetry fn tries).1
       = 1000 * (2 ^ Z.of_nat tries - 1) ∧
     RetryBudget.totalSleep (Retry.quoteRetry fn tries).1
       = 500 * Z.of_nat tries * (Z.of_nat tries + 1)).
Proof.
  intros Htries.
  assert (RetryBudget.sumWaits Retry.ocWait 0 tries = 1000 * (2 ^ Z.of_nat tries - 1)) as Hoc.
  { destruct tries as [|[|[|[|[|n]]]]]; [reflexivity..|lia]. }
  assert (RetryBudget.sumWaits Retry.quoteWait 0 tries
          = 500 * Z.of_nat tries * (Z.of_nat tries + 1)) as Hq.
  { destruct tries as [|[|[|[|[|n]]]]]; [reflexivity..|lia]. }
  rewrite <- Hoc, <- Hq. split_and!.
  - apply ocLoop_sleep_bound. intros j Hj. apply ocWait_nonneg. lia.
  - apply ocLoop_sleep_bound. intros j Hj. apply ocWait_nonneg. lia.
  - apply quoteLoop_sleep_bound.
  - apply quoteLoop_sleep_bound.
  - intros Hall. unfold Retry.ocRetry, Retry.quoteRetry.
    rewrite (ocLoop_exhausts fn tries 0%nat None), (quoteLoop_exhausts fn tries 0%nat None)
      by (intros j Hj; apply Hall; lia).
    cbn [fst]. by rewrite !totalSleep_backoffFrom.
Qed.

(** Four attempts, all answered 429. *)
Lemma retry_sleep_budget_witness :
  let always429 := λ _ : nat,
    Thrown (Retry.mkHttpError (Some 429) "Too Many Requests")
      : outcome Retry.HttpError () in
  RetryBudget.totalSleep (Retry.ocRetry always429 4).1 = 15000 ∧
  RetryBudget.totalSleep (Retry.quoteRetry always429 4).1 = 10000.
Proof.
  intros always429.
  destruct (retry_sleep_budget always429 4 ltac:(lia)) as (_ & _ & Hmet).
  apply Hmet. intros j _. eexists. split; reflexivity.
Defined.

(* ===================================================================== *)
(** ** Sorting by a finite key                                           *)
(* ===================================================================== *)

Section FiniteKeyFacts.
Import Js JsOrder.
Context {A : Type} (key : A → number).

Lemma keyCmp_inOrder a b :
  inOrder (keyCmp key) a b ↔ value (key a) ≤ value (key b).
Proof.
  unfold inOrder, keyCmp, positive. rewrite Z.ltb_ge. lia.
Qed.

Lemma sort_finite_key (l : list A) :
  (∀ x, x ∈ l → finite (key x) = true) →
  sort (λ a b, sub (key a) (key b)) l = sort (keyCmp key) l.
Proof.
  intros Hfin. apply sort_ext_in. intros x y Hx Hy.
  pose proof (Hfin x Hx) as Hfx. pose proof (Hfin y Hy) as Hfy.
  unfold keyCmp. by destruct (key x), (key y).
Qed.

(** [sort((a, b) => key(a) - key(b))] on finite keys: ascending. *)
Lemma sort_finite_key_sorted (l : list A) :
  (∀ x, x ∈ l → finite (key x) = true) →
  StronglySorted (λ a b, le_fin (key a) (key b))
    (sort (λ a b, sub (key a) (key b)) l).
Proof.
  intros Hfin. rewrite sort_finite_key by done.
  eapply StronglySorted_weaken; [|apply sort_StronglySorted].
  - intros a b Ha Hb. rewrite keyCmp_inOrder.
    apply (proj1 (sort_elem_of _ _ _)) in Ha, Hb.
    pose proof (Hfin a Ha). pose proof (Hfin b Hb).
    unfold le_fin. by destruct (key a), (key b).
  - intros a b c. rewrite !keyCmp_inOrder. lia.
  - intros a b. rewrite !keyCmp_inOrder. lia.
Qed.
End FiniteKeyFacts.

(* ===================================================================== *)
(** ** Option-chain service                                              *)
(* ===================================================================== *)

(** X11.  [toNormalizedArray] keeps exactly the entries whose key reads
    as a finite number, each once and with its legs, and returns them in
    ascending order of strike; entries whose key does not read as a
    finite number are dropped without an error. *)
Theorem toNormalizedArray_ascending {Leg : Type} (Number : string → Js.number)
    (oc : list (string * Leg)) :
  let rows := OptionChain.toNormalizedArray Number oc in
  rows ≡ₚ filter (λ r, Js.finite r.1) ((λ kv, (Number kv.1, kv.2)) <$> oc) ∧
  (∀ s leg, (s, leg) ∈ rows ↔
     Js.finite s = true ∧ ∃ k, (k, leg) ∈ oc ∧ Number k = s) ∧
  StronglySorted (λ a b, JsOrder.le_fin a.1 b.1) rows ∧
  (length rows ≤ length oc)%nat.
Proof.
  intros rows. subst rows. unfold OptionChain.toNormalizedArray.
  set (l := filter _ _).
  assert (∀ x, x ∈ l → Js.finite x.1 = true) as Hfin.
  { intros x Hx. apply list_elem_of_filter in Hx as [Hx _]. by apply Is_true_true. }
  split_and!.
  - apply sort_Permutation.
  - intros s leg. rewrite sort_elem_of. subst l.
    rewrite list_elem_of_filter, list_elem_of_fmap. cbn [fst].
    rewrite Is_true_true. split.
    + intros [Hf ([k v] & [= -> ->] & Hin)]. split; [done|]. by exists k.
    + intros [Hf (k & Hin & <-)]. split; [done|]. by exists (k, leg).
  - apply (sort_finite_key_sorted fst). exact Hfin.
  - rewrite sort_length. subst l.
    etransitivity; [apply length_filter|]. by rewrite length_fmap.
Qed.

(** Three entries, one of them not a strike: the two strikes come out in
    ascending order. *)
Lemma toNormalizedArray_ascending_witness :
  let Number := λ k : string,
    if String.eqb k "24500.000000" then Js.Fin 24500
    else if String.eqb k "24600.000000" then Js.Fin 24600
    else Js.NaN in
  let oc := [("24600.000000", 1%nat); ("underlying", 2%nat);
             ("24500.000000", 3%nat)]%string in
  OptionChain.toNormalizedArray Number oc = [(Js.Fin 24500, 3%nat); (Js.Fin 24600, 1%nat)] ∧
  StronglySorted (λ a b, JsOrder.le_fin a.1 b.1) (OptionChain.toNormalizedArray Number oc).
Proof.
  intros Number oc. split; [reflexivity|].
  exact (proj1 (proj2 (proj2 (toNormalizedArray_ascending Number oc)))).
Defined.

Section RetryOutcomeFacts.
Import Retry.
Context {T : Type}.
Variable fn : nat → outcome HttpError T.

(** A value the loop returns is the value of one of its attempts. *)
Lemma ocLoop_returned remaining : ∀ i lastErr v,
  (ocLoop fn remaining i lastErr).2 = Returned v →
  ∃ k, (i ≤ k < i + remaining)%nat ∧ fn k = Returned v.
Proof.
  induction remaining as [|n IH]; intros i lastErr v; [done|].
  cbn [ocLoop]. destruct (fn i) as [v'|e] eqn:Hi.
  - intros [= <-]. exists i. split; [lia|done].
  - destruct (is401 _); [done|]. destruct (retryable _); [|done].
    specialize (IH (S i) (Some e) v).
    destruct (ocLoop _ _ _ _) as [tr out]. cbn [snd] in *.
    intros Hout. destruct (IH Hout) as (k & Hk & Hfk). exists k. split; [lia|done].
Qed.

Lemma quoteLoop_returned remaining : ∀ i lastErr v,
  (quoteLoop fn remaining i lastErr).2 = Returned v →
  ∃ k, (i ≤ k < i + remaining)%nat ∧ fn k = Returned v.
Proof.
  induction remaining as [|n IH]; intros i lastErr v; [done|].
  cbn [quoteLoop]. destruct (fn i) as [v'|e] eqn:Hi.
  - intros [= <-]. exists i. split; [lia|done].
  - destruct (retryable _); [|done].
    specialize (IH (S i) (Some e) v).
    destruct (quoteLoop _ _ _ _) as [tr out]. cbn [snd] in *.
    intros Hout. destruct (IH Hout) as (k & Hk & Hfk). exists k. split; [lia|done].
Qed.

(** A loop with attempts left issues a call. *)
Lemma ocLoop_calls_first remaining i lastErr :
  ∃ tr, (ocLoop fn (S remaining) i lastErr).1 = Call i :: tr.
Proof.
  cbn [ocLoop]. destruct (fn i) as [v|e]; [by eexists|].
  destruct (is401 _); [by eexists|]. destruct (retryable _); [|by eexists].
  destruct (ocLoop _ _ _ _) as [tr out]. by eexists.
Qed.
End RetryOutcomeFacts.

Section ServiceTraceFacts.
Import OptionChain.

Lemma upstreamCalls_app tr1 tr2 :
  upstreamCalls (tr1 ++ tr2) = upstreamCalls tr1 ++ upstreamCalls tr2.
Proof. apply filter_app. Qed.

Lemma chainCalls_app tr1 tr2 : chainCalls (tr1 ++ tr2) = chainCalls tr1 ++ chainCalls tr2.
Proof. apply filter_app. Qed.

Lemma upstreamCalls_cons ev tr :
  upstreamCalls (ev :: tr) = if isCall ev then ev :: upstreamCalls tr else upstreamCalls tr.
Proof. unfold upstreamCalls. rewrite filter_cons. by destruct (isCall ev). Qed.

Lemma chainCalls_cons ev tr :
  chainCalls (ev :: tr) = if isChainCall ev then ev :: chainCalls tr else chainCalls tr.
Proof. unfold chainCalls. rewrite filter_cons. by destruct (isChainCall ev). Qed.

Lemma upstreamCalls_through ep (tr : list Retry.Event) :
  length (upstreamCalls (through ep <$> tr)) = length (Retry.calls tr).
Proof.
  induction tr as [|[k|ms] tr IH]; [done| |];
    rewrite fmap_cons, upstreamCalls_cons; cbn; by rewrite IH.
Qed.

Lemma chainCalls_through_list (tr : list Retry.Event) :
  chainCalls (through ExpiryList <$> tr) = [].
Proof.
  induction tr as [|[k|ms] tr IH]; [done| |];
    by rewrite fmap_cons, chainCalls_cons.
Qed.

Lemma chainCalls_through_chain e (tr : list Retry.Event) :
  ∀ ev, ev ∈ chainCalls (through (Chain e) <$> tr) → ∃ k, ev = Call (Chain e) k.
Proof.
  induction tr as [|[k|ms] tr IH]; intros ev.
  - intros Hin. by apply elem_of_nil in Hin.
  - rewrite fmap_cons, chainCalls_cons. cbn.
    intros Hin. apply elem_of_cons in Hin as [->|Hin]; [by exists k | by apply IH].
  - rewrite fmap_cons, chainCalls_cons. cbn. apply IH.
Qed.

Lemma chainCalls_le_upstreamCalls tr :
  (length (chainCalls tr) ≤ length (upstreamCalls tr))%nat.
Proof.
  induction tr as [|[[|e] k|ms|line] tr IH]; [done|..];
    rewrite chainCalls_cons, upstreamCalls_cons; cbn; lia.
Qed.

(** What [fetchExpiryList] does with credentials. *)
Lemma fetchExpiryList_with_credentials fn :
  ∃ tr l, fetchExpiryList true fn = (tr, Returned l) ∧
    (length (upstreamCalls tr) ≤ 3)%nat ∧ chainCalls tr = [] ∧
    (l = [] ∨ ∃ k, (k < 3)%nat ∧ fn k = Returned (Some l)).
Proof.
  unfold fetchExpiryList, requireEnv.
  pose proof (ocLoop_calls_bound fn 3 0%nat None) as Hcalls.
  pose proof (ocLoop_returned fn 3 0%nat None) as Hret.
  fold (Retry.ocRetry fn 3) in Hcalls, Hret.
  destruct (Retry.ocRetry fn 3) as [tr [res|e]]; cbn [fst snd] in *.
  - eexists _, _. split; [done|]. split_and!.
    + by rewrite upstreamCalls_through.
    + apply chainCalls_through_list.
    + destruct res as [l|]; [|by left]. right.
      destruct (Hret (Some l) eq_refl) as (k & Hk & Hfk). exists k. split; [lia|done].
  - eexists _, _. split; [done|]. split_and!.
    + rewrite upstreamCalls_app, length_app, upstreamCalls_through, upstreamCalls_cons.
      cbn. lia.
    + by rewrite chainCalls_app, chainCalls_through_list.
    + by left.
Qed.

Section WithLegs.
Context {Leg : Type}.

(** What [fetchOptionChainRaw] does with credentials. *)
Lemma fetchOptionChainRaw_with_credentials ex
    (fn : nat → outcome Retry.HttpError (option (@ChainData Leg))) :
  ∃ tr out, fetchOptionChainRaw true ex fn = (tr, out) ∧
    (length (upstreamCalls tr) ≤ 4)%nat ∧
    (∀ ev, ev ∈ chainCalls tr → ∃ k, ev = Call (Chain ex) k) ∧
    chainCalls tr ≠ [] ∧
    (∀ err, out = Thrown err → ∃ e, err = Upstream e).
Proof.
  unfold fetchOptionChainRaw, requireEnv.
  pose proof (ocLoop_calls_bound fn 4 0%nat None) as Hcalls.
  destruct (ocLoop_calls_first fn 3 0%nat None) as [tr0 Hfirst].
  fold (Retry.ocRetry fn 4) in Hcalls, Hfirst.
  destruct (Retry.ocRetry fn 4) as [tr [res|e]]; cbn [fst snd] in *; subst tr;
    eexists _, _; (split; [done|]); split_and!.
  all: try by rewrite upstreamCalls_through.
  all: try apply chainCalls_through_chain.
  all: try (by rewrite fmap_cons, chainCalls_cons).
  - done.
  - intros err [= <-]. by eexists.
Qed.
End WithLegs.
End ServiceTraceFacts.

(** X12.  [fetchExpiryList] turns every upstream failure into an empty
    list: with credentials set it never throws, issues at most three
    POSTs to the expiry-list endpoint and none to the chain endpoint,
    and returns either the empty list or the array one of those POSTs
    answered with.  The credentials test stands before the [try]:
    without credentials the call throws, and it does so before any
    request is made. *)
Theorem fetchExpiryList_swallows_upstream_errors
    (fn : nat → outcome Retry.HttpError (option (list string))) :
  OptionChain.fetchExpiryList false fn = ([], Thrown OptionChain.MissingEnv) ∧
  ∃ tr l, OptionChain.fetchExpiryList true fn = (tr, Returned l) ∧
    (length (OptionChain.upstreamCalls tr) ≤ 3)%nat ∧
    OptionChain.chainCalls tr = [] ∧
    (l = [] ∨ ∃ k, (k < 3)%nat ∧ fn k = Returned (Some l)).
Proof. split; [done|]. apply fetchExpiryList_with_credentials. Qed.

Section LiveChainFacts.
Import OptionChain.
Context {Leg : Type}.
Variable today : string.
Variable trim : string → string.
Variable OC_EXPIRY FUTSTK_REFRESH_EXPIRY : option string.

Lemma truthy_Some p :
  PollLoop.truthy p = true → ∃ s, p = Some s ∧ s ≠ ""%string.
Proof.
  destruct p as [s|]; [|done]. simpl. intros Hs. exists s. split; [done|].
  apply negb_true_iff, String.eqb_neq in Hs. done.
Qed.

(** Two 503 answers, then the list. *)
Lemma fetchExpiryList_swallows_upstream_errors_witness :
  let fn := λ k : nat,
    match k with
    | 0%nat | 1%nat => Thrown (Retry.mkHttpError (Some 503) "Service Unavailable")
    | _ => Returned (Some ["2025-10-28"%string])
    end in
  OptionChain.fetchExpiryList false fn = ([], Thrown OptionChain.MissingEnv) ∧
  ∃ tr l, OptionChain.fetchExpiryList true fn = (tr, Returned l) ∧
    (length (OptionChain.upstreamCalls tr) ≤ 3)%nat ∧
    OptionChain.chainCalls tr = [] ∧
    (l = [] ∨ ∃ k, (k < 3)%nat ∧ fn k = Returned (Some l)).
Proof. intros fn. exact (fetchExpiryList_swallows_upstream_errors fn). Defined.

Lemma eqb_empty_false s : String.eqb s "" = false → s ≠ ""%string.
Proof. apply String.eqb_neq. Qed.

(** What the tail of [getLiveOptionChain] adds to a trace. *)
Lemma fetchLive_with_credentials tr0 ex
    (chainFn : string → nat → outcome Retry.HttpError (option (@ChainData Leg))) :
  ∃ tr' out, fetchLive true tr0 ex chainFn = (tr0 ++ tr', out) ∧
    (length (upstreamCalls tr') ≤ 4)%nat ∧
    (∀ ev, ev ∈ chainCalls tr' → ∃ k, ev = Call (Chain ex) k) ∧
    chainCalls tr' ≠ [] ∧
    match out with
    | Returned res => live_expiry res = Some ex
    | Thrown err => ∃ e, err = Upstream e
    end.
Proof.
  unfold fetchLive.
  destruct (fetchOptionChainRaw_with_credentials ex (chainFn ex))
    as (tr' & out & -> & Hcalls & Hchain & Hne & Herr).
  destruct out as [data|err]; eexists _, _; (split; [done|]); split_and!; try done.
  by apply Herr.
Qed.

Lemma fetchLive_shape n base ex
    (chainFn : string → nat → outcome Retry.HttpError (option (@ChainData Leg))) :
  (length (upstreamCalls base) ≤ n)%nat → chainCalls base = [] → ex ≠ ""%string →
  ∃ tr out, fetchLive true base ex chainFn = (tr, out) ∧ liveShape n tr out.
Proof.
  intros Hbase Hnochain Hex.
  destruct (fetchLive_with_credentials base ex chainFn)
    as (tr' & out & -> & Hcalls & Hchain & Hne & Hout).
  eexists _, _. split; [done|]. unfold liveShape.
  rewrite upstreamCalls_app, chainCalls_app, Hnochain, length_app. cbn [app].
  pose proof (chainCalls_le_upstreamCalls tr'). split_and!; [lia..|].
  destruct out as [res|err]; [|done]. by rewrite Hout.
Qed.

Lemma getLiveOptionChain_shape Expiry listFn
    (chainFn : string → nat → outcome Retry.HttpError (option (@ChainData Leg))) :
  ∃ tr out,
    getLiveOptionChain true today trim OC_EXPIRY FUTSTK_REFRESH_EXPIRY
      Expiry listFn chainFn = (tr, out) ∧
    liveShape 3 tr out.
Proof.
  unfold getLiveOptionChain. cbv zeta.
  destruct (String.eqb (trim (orStr Expiry "")) "") eqn:Hblank; cbn [negb].
  2:{ apply fetchLive_shape; [cbn; lia|done|by apply eqb_empty_false]. }
  destruct (fetchExpiryList_with_credentials listFn)
    as (tr & l & -> & Hcalls & Hnochain & _).
  destruct (PollLoop.truthy (Expiry.pickNearestExpiry today (Some l))) eqn:Hpick;
    cbn [negb].
  - apply truthy_Some in Hpick as (s & -> & Hs). cbn [default from_option].
    apply fetchLive_shape; [|by rewrite chainCalls_app, Hnochain|done].
    rewrite upstreamCalls_app, length_app, upstreamCalls_cons. cbn. lia.
  - destruct (String.eqb (trim (orStr OC_EXPIRY (orStr FUTSTK_REFRESH_EXPIRY ""))) "")
      eqn:Hfb; cbn [negb].
    + eexists _, _. split; [done|]. unfold liveShape. cbn [live_expiry live_data].
      rewrite Hnochain. cbn [length]. split; [lia|]. split; [lia|done].
    + apply fetchLive_shape; [|by rewrite chainCalls_app, Hnochain|by apply eqb_empty_false].
      rewrite upstreamCalls_app, length_app, upstreamCalls_cons. cbn. lia.
Qed.

Lemma getLiveOptionChain_without_credentials Expiry listFn
    (chainFn : string → nat → outcome Retry.HttpError (option (@ChainData Leg))) :
  getLiveOptionChain false today trim OC_EXPIRY FUTSTK_REFRESH_EXPIRY
    Expiry listFn chainFn = ([], Thrown MissingEnv).
Proof.
  unfold getLiveOptionChain. cbv zeta.
  by destruct (String.eqb (trim (orStr Expiry "")) "").
Qed.
End LiveChainFacts.

(** X13.  [getLiveOptionChain] with credentials issues at most seven
    upstream calls, at most four of them to the chain endpoint.  When it
    returns no expiry it has made no chain call and returns the empty
    chain; when it returns an expiry, that expiry is not empty and every
    chain call was made for it; and the only errors it throws are those
    of the chain fetch, after at least one chain call.  Without
    credentials it throws before any request, whatever its arguments. *)
Theorem getLiveOptionChain_outcomes {Leg : Type} (today : string)
    (trim : string → string) (OC_EXPIRY FUTSTK_REFRESH_EXPIRY Expiry : option string)
    (listFn : nat → outcome Retry.HttpError (option (list string)))
    (chainFn : string → nat →
               outcome Retry.HttpError (option (@OptionChain.ChainData Leg))) :
  OptionChain.getLiveOptionChain false today trim OC_EXPIRY FUTSTK_REFRESH_EXPIRY
    Expiry listFn chainFn = ([], Thrown OptionChain.MissingEnv) ∧
  ∃ tr out,
    OptionChain.getLiveOptionChain true today trim OC_EXPIRY FUTSTK_REFRESH_EXPIRY
      Expiry listFn chainFn = (tr, out) ∧
    (length (OptionChain.upstreamCalls tr) ≤ 7)%nat ∧
    (length (OptionChain.chainCalls tr) ≤ 4)%nat ∧
    match out with
    | Returned res =>
        match OptionChain.live_expiry res with
        | None =>
            OptionChain.chainCalls tr = [] ∧
            OptionChain.live_data res = OptionChain.emptyChain
        | Some e =>
            e ≠ ""%string ∧ OptionChain.chainCalls tr ≠ [] ∧
            ∀ ev, ev ∈ OptionChain.chainCalls tr →
                  ∃ k, ev = OptionChain.Call (OptionChain.Chain e) k
        end
    | Thrown err =>
        (∃ e, err = OptionChain.Upstream e) ∧ OptionChain.chainCalls tr ≠ []
    end.
Proof.
  split; [apply getLiveOptionChain_without_credentials|].
  destruct (getLiveOptionChain_shape today trim OC_EXPIRY FUTSTK_REFRESH_EXPIRY
              Expiry listFn chainFn) as (tr & out & Heq & Hshape).
  exists tr, out. split; [exact Heq|]. exact Hshape.
Qed.

(** No expiry given, the list answers one expiry, the chain answers. *)
Lemma getLiveOptionChain_outcomes_witness :
  let listFn := λ _ : nat, Returned (Some ["2025-10-28"%string]) in
  let chainFn := λ (_ : string) (_ : nat),
    Returned (Some (OptionChain.mkChain (Js.Fin 24500) [("24500.000000"%string, ())])) in
  OptionChain.getLiveOptionChain true "2025-10-16" (λ s, s) None None None listFn chainFn
  = ([OptionChain.Call OptionChain.ExpiryList 0; OptionChain.Sleep 3100;
      OptionChain.Call (OptionChain.Chain "2025-10-28") 0],
     Returned (OptionChain.mkLive (Some "2025-10-28"%string)
                 (OptionChain.mkChain (Js.Fin 24500) [("24500.000000"%string, ())]))) ∧
  ∃ tr out,
    OptionChain.getLiveOptionChain true "2025-10-16" (λ s, s) None None None listFn chainFn
      = (tr, out) ∧
    (length (OptionChain.upstreamCalls tr) ≤ 7)%nat.
Proof.
  intros listFn chainFn. split; [reflexivity|].
  destruct (getLiveOptionChain_outcomes "2025-10-16" (λ s, s) None None None listFn chainFn)
    as (_ & tr & out & Heq & Hcalls & _).
  exists tr, out. split; [exact Heq | exact Hcalls].
Defined.

Section ResolveExpiryFacts.
Import OptionChain.
Context {Leg : Type}.
Variable today : string.
Variable trim : string → string.
Variable OC_EXPIRY FUTSTK_REFRESH_EXPIRY : option string.

Lemma resolveExpiry_shape listFn1 listFn2
    (chainFn : string → nat → outcome Retry.HttpError (option (@ChainData Leg))) :
  ∃ tr out,
    Watcher.resolveExpiry true today trim OC_EXPIRY FUTSTK_REFRESH_EXPIRY
      listFn1 listFn2 chainFn = (tr, out) ∧
    (length (upstreamCalls tr) ≤ 10)%nat ∧
    (length (chainCalls tr) ≤ 4)%nat ∧
    match out with
    | Returned (Some e) => e ≠ ""%string
    | Returned None => chainCalls tr = []
    | Thrown err => (∃ e, err = Upstream e) ∧ chainCalls tr ≠ []
    end.
Proof.
  unfold Watcher.resolveExpiry. cbv zeta.
  destruct (fetchExpiryList_with_credentials listFn1)
    as (tr1 & l & -> & Hcalls & Hnochain & _).
  destruct (PollLoop.truthy (Expiry.pickNearestExpiry today (Some l))) eqn:Hpick.
  - apply truthy_Some in Hpick as (s & -> & Hs).
    eexists _, _. split; [done|].
    rewrite upstreamCalls_app, chainCalls_app, Hnochain, length_app, upstreamCalls_cons.
    cbn [isCall app]. rewrite chainCalls_cons. cbn [isChainCall].
    change (upstreamCalls []) with (@nil Event).
    change (chainCalls []) with (@nil Event). cbn [length].
    split_and!; [lia|lia|done].
  - destruct (getLiveOptionChain_shape today trim OC_EXPIRY FUTSTK_REFRESH_EXPIRY
                None listFn2 chainFn) as (tr2 & out & -> & Hup & Hch & Hout).
    destruct out as [res|err]; eexists _, _; (split; [done|]);
      rewrite upstreamCalls_app, chainCalls_app, Hnochain, length_app; cbn [app];
      (split; [lia|]); (split; [done|]).
    + destruct (live_expiry res) as [e|]; [by destruct Hout | by destruct Hout].
    + done.
Qed.

Lemma resolveExpiry_without_credentials listFn1 listFn2
    (chainFn : string → nat → outcome Retry.HttpError (option (@ChainData Leg))) :
  Watcher.resolveExpiry false today trim OC_EXPIRY FUTSTK_REFRESH_EXPIRY
    listFn1 listFn2 chainFn = ([], Thrown MissingEnv).
Proof.
  unfold Watcher.resolveExpiry. cbv zeta. cbn [fetchExpiryList requireEnv].
  by rewrite getLiveOptionChain_without_credentials.
Qed.
End ResolveExpiryFacts.

(** X14.  The watcher's [resolveExpiry] with credentials issues at most
    ten upstream calls (two rounds of up to three expiry-list POSTs and
    up to four chain POSTs).  An expiry it returns is never the empty
    string; [null] is returned only without any chain call; and in spite
    of its [catch] it can throw: the error of a failed chain fetch
    escapes it.  Without credentials it throws before any request. *)
Theorem resolveExpiry_outcomes {Leg : Type} (today : string)
    (trim : string → string) (OC_EXPIRY FUTSTK_REFRESH_EXPIRY : option string)
    (listFn1 listFn2 : nat → outcome Retry.HttpError (option (list string)))
    (chainFn : string → nat →
               outcome Retry.HttpError (option (@OptionChain.ChainData Leg))) :
  Watcher.resolveExpiry false today trim OC_EXPIRY FUTSTK_REFRESH_EXPIRY
    listFn1 listFn2 chainFn = ([], Thrown OptionChain.MissingEnv) ∧
  (∃ tr out,
    Watcher.resolveExpiry true today trim OC_EXPIRY FUTSTK_REFRESH_EXPIRY
      listFn1 listFn2 chainFn = (tr, out) ∧
    (length (OptionChain.upstreamCalls tr) ≤ 10)%nat ∧
    (length (OptionChain.chainCalls tr) ≤ 4)%nat ∧
    match out with
    | Returned (Some e) => e ≠ ""%string
    | Returned None => OptionChain.chainCalls tr = []
    | Thrown err =>
        (∃ e, err = OptionChain.Upstream e) ∧ OptionChain.chainCalls tr ≠ []
    end) ∧
  (trim "" = ""%string →
   ∀ e err, e ≠ ""%string →
     listFn1 0%nat = Returned (Some []) →
     listFn2 0%nat = Returned (Some [e]) →
     chainFn e 0%nat = Thrown err → Retry.status err = Some 401 →
     Watcher.resolveExpiry true today trim OC_EXPIRY FUTSTK_REFRESH_EXPIRY
       listFn1 listFn2 chainFn
     = ([OptionChain.Call OptionChain.ExpiryList 0;
         OptionChain.Call OptionChain.ExpiryList 0;
         OptionChain.Sleep 3100;
         OptionChain.Call (OptionChain.Chain e) 0],
        Thrown (OptionChain.Upstream (Some err)))).
Proof.
  split; [apply resolveExpiry_without_credentials|].
  split; [apply resolveExpiry_shape|].
  intros Htrim e err He Hl1 Hl2 Hchain H401.
  assert (Expiry.pickNearestExpiry today (Some [e]) = Some e) as Hpick.
  { unfold Expiry.pickNearestExpiry. cbn [Js.sort Js.insert List.find].
    by destruct (Expiry.str_ge _ _). }
  assert (PollLoop.truthy (Some e) = true) as Htruthy.
  { cbn. apply negb_true_iff. by apply String.eqb_neq. }
  unfold Watcher.resolveExpiry, OptionChain.getLiveOptionChain. cbv zeta.
  unfold OptionChain.fetchExpiryList, OptionChain.requireEnv, Retry.ocRetry.
  cbn [Retry.ocLoop]. rewrite Hl1, Hl2.
  cbn [default from_option id OptionChain.orStr]. rewrite Htrim, Hpick, Htruthy.
  cbn [Expiry.pickNearestExpiry PollLoop.truthy String.eqb negb].
  unfold OptionChain.fetchLive, OptionChain.fetchOptionChainRaw,
    OptionChain.requireEnv, Retry.ocRetry.
  cbn [Retry.ocLoop default from_option id]. rewrite Hchain. unfold Retry.is401.
  rewrite bool_decide_eq_true_2 by done. reflexivity.
Qed.

(** The first expiry list is empty, the second holds one expiry, and the
    chain fetch is answered 401. *)
Lemma resolveExpiry_outcomes_witness :
  let err := Retry.mkHttpError (Some 401) "Unauthorized" in
  Watcher.resolveExpiry (Leg := ()) true "2025-10-16" (λ s, s) None None
    (λ _, Returned (Some [])) (λ _, Returned (Some ["2025-10-28"%string]))
    (λ _ _, Thrown err)
  = ([OptionChain.Call OptionChain.ExpiryList 0;
      OptionChain.Call OptionChain.ExpiryList 0;
      OptionChain.Sleep 3100;
      OptionChain.Call (OptionChain.Chain "2025-10-28") 0],
     Thrown (OptionChain.Upstream (Some err))).
Proof.
  intros err.
  destruct (resolveExpiry_outcomes (Leg := ()) "2025-10-16" (λ s, s) None None
              (λ _, Returned (Some [])) (λ _, Returned (Some ["2025-10-28"%string]))
              (λ _ _, Thrown err)) as (_ & _ & Hthrows).
  apply Hthrows; [reflexivity | discriminate | reflexivity..].
Defined.

(* ===================================================================== *)
(** ** Watcher startup                                                   *)
(* ===================================================================== *)

Section StartupFacts.
Import Watcher.
Context {E : Type}.
Variable resolve : nat → outcome E (option string).

Lemma startup_wait_step (i : nat) :
  Z.min (Z.min (15000 * 2 ^ Z.of_nat i) 300000 * 2) (5 * 60000)
  = Z.min (15000 * 2 ^ Z.of_nat (S i)) 300000.
Proof.
  rewrite Nat2Z.inj_succ, Z.pow_succ_r by lia.
  pose proof (Z.pow_pos_nonneg 2 (Z.of_nat i) ltac:(lia) ltac:(lia)). lia.
Qed.

Lemma startupLoop_ends k : ∀ fuel i,
  (k < fuel)%nat →
  (∀ j, (i ≤ j < i + k)%nat →
     ∃ ex, resolve j = Returned ex ∧ PollLoop.truthy ex = false) →
  ∀ out,
    match resolve (i + k)%nat with
    | Returned ex => PollLoop.truthy ex = true ∧ out = Returned (default "" ex)
    | Thrown err => out = Thrown err
    end →
    startupLoop resolve fuel i (Z.min (15000 * 2 ^ Z.of_nat i) 300000)
    = Some (flat_map (λ j, [Resolve j; Warn "[OC] No expiry yet.";
                            Wait (Z.min (15000 * 2 ^ Z.of_nat j) 300000)])
              (seq i k) ++ [Resolve (i + k)%nat],
            out).
Proof.
  induction k as [|k IH]; intros fuel i Hfuel Hfalsy out Hout;
    (destruct fuel as [|fuel]; [lia|]); cbn [startupLoop].
  - rewrite Nat.add_0_r in *. destruct (resolve i) as [ex|err].
    + destruct Hout as [-> ->]. done.
    + by subst out.
  - destruct (Hfalsy i ltac:(lia)) as (ex & -> & ->).
    rewrite startup_wait_step.
    rewrite (IH fuel (S i) ltac:(lia)
               ltac:(intros j Hj; apply Hfalsy; lia) out).
    + cbn [seq flat_map app]. by replace (S i + k)%nat with (i + S k)%nat by lia.
    + by replace (S i + k)%nat with (i + S k)%nat by lia.
Qed.
End StartupFacts.

Lemma waits_of_rounds (i k n : nat) :
  Watcher.waits
    (flat_map (λ j, [Watcher.Resolve j; Watcher.Warn "[OC] No expiry yet.";
                     Watcher.Wait (Z.min (15000 * 2 ^ Z.of_nat j) 300000)])
       (seq i k) ++ [Watcher.Resolve n])
  = (λ j, Z.min (15000 * 2 ^ Z.of_nat j) 300000) <$> seq i k.
Proof.
  unfold Watcher.waits. rewrite omap_app. cbn [omap]. rewrite app_nil_r.
  revert i. induction k as [|k IH]; intros i; [done|].
  cbn [seq flat_map app fmap list_fmap]. rewrite <- (IH (S i)). reflexivity.
Qed.

(** X15.  The watcher's startup.  With [OC_EXPIRY] set to something
    other than blanks nothing is resolved; otherwise the loop runs.
    While [resolveExpiry] answers
    [null] (or an empty string) the loop warns, sleeps and asks again;
    the sleep after round [j] is [min(15000 * 2^j, 300000)] ms: 15 s
    doubling up to five minutes.  The first non-empty expiry ends the
    loop and is its result.  An error thrown by [resolveExpiry] is not
    retried: it ends the loop, and with it the watcher's start. *)
Theorem startup_waits_double_up_to_cap {E : Type}
    (resolve : nat → outcome E (option string)) (k fuel : nat) :
  (k < fuel)%nat →
  (∀ j, (j < k)%nat →
     ∃ ex, resolve j = Returned ex ∧ PollLoop.truthy ex = false) →
  let rounds :=
    flat_map (λ j, [Watcher.Resolve j; Watcher.Warn "[OC] No expiry yet.";
                    Watcher.Wait (Z.min (15000 * 2 ^ Z.of_nat j) 300000)])
      (seq 0 k) ++ [Watcher.Resolve k] in
  (∀ e, resolve k = Returned (Some e) → e ≠ ""%string →
     Watcher.startupLoop resolve fuel 0 15000 = Some (rounds, Returned e)) ∧
  (∀ err, resolve k = Thrown err →
     Watcher.startupLoop resolve fuel 0 15000 = Some (rounds, Thrown err)) ∧
  Watcher.waits rounds
  = (λ j, Z.min (15000 * 2 ^ Z.of_nat j) 300000) <$> seq 0 k ∧
  (∀ ms, ms ∈ Watcher.waits rounds → 15000 ≤ ms ≤ 300000) ∧
  (∀ trim OC_EXPIRY,
     Watcher.startupExpiry resolve trim OC_EXPIRY fuel
     = if String.eqb (trim (OptionChain.orStr OC_EXPIRY "")) ""
       then Watcher.startupLoop resolve fuel 0 15000
       else Some ([], Returned (trim (OptionChain.orStr OC_EXPIRY "")))).
Proof.
  intros Hfuel Hfalsy rounds.
  assert (∀ j, (0 ≤ j < 0 + k)%nat →
            ∃ ex, resolve j = Returned ex ∧ PollLoop.truthy ex = false) as Hfalsy'
    by (intros j Hj; apply Hfalsy; lia).
  pose proof (startupLoop_ends resolve k fuel 0%nat Hfuel Hfalsy') as Hends.
  change (Z.min (15000 * 2 ^ Z.of_nat 0) 300000) with 15000 in Hends.
  cbn [Nat.add] in Hends. fold rounds in Hends.
  pose proof (waits_of_rounds 0 k k) as Hwaits. fold rounds in Hwaits.
  split_and!.
  - intros e He Hne. apply Hends. rewrite He. split; [|done].
    cbn. apply negb_true_iff. by apply String.eqb_neq.
  - intros err He. apply Hends. by rewrite He.
  - exact Hwaits.
  - intros ms. rewrite Hwaits. intros Hin.
    apply list_elem_of_fmap in Hin as (j & -> & _).
    pose proof (Z.pow_pos_nonneg 2 (Z.of_nat j) ltac:(lia) ltac:(lia)). lia.
  - intros trim OC_EXPIRY. unfold Watcher.startupExpiry. cbv zeta.
    by destruct (String.eqb _ _).
Qed.

(** Two rounds without an expiry, then one with: the loop has slept 15 s
    and 30 s. *)
Lemma startup_waits_double_up_to_cap_witness :
  let resolve := λ j : nat,
    match j with
    | 0%nat | 1%nat => Returned None
    | _ => Returned (Some "2025-10-28"%string)
    end : outcome string (option string) in
  Watcher.startupLoop resolve 5 0 15000
  = Some ([Watcher.Resolve 0; Watcher.Warn "[OC] No expiry yet."; Watcher.Wait 15000;
           Watcher.Resolve 1; Watcher.Warn "[OC] No expiry yet."; Watcher.Wait 30000;
           Watcher.Resolve 2],
          Returned "2025-10-28"%string).
Proof.
  intros resolve.
  assert (∀ j, (j < 2)%nat →
            ∃ ex, resolve j = Returned ex ∧ PollLoop.truthy ex = false) as Hfalsy.
  { intros [|[|j]] Hj; [by exists None..|lia]. }
  destruct (startup_waits_double_up_to_cap resolve 2 5 ltac:(lia) Hfalsy)
    as (Hgood & _).
  apply Hgood; [reflexivity | discriminate].
Defined.

(* ===================================================================== *)
(** ** Strike step                                                       *)
(* ===================================================================== *)

Section RoundingFacts.
Import Js Watcher.

Lemma roundDouble_exact z : Z.abs z < 2 ^ 53 → roundDouble z = Fin z.
Proof.
  intros Hz. unfold roundDouble. cbv zeta.
  by rewrite (proj2 (Z.ltb_lt _ _) Hz).
Qed.

(** Rounding keeps the sign: a non-zero result never rounds to zero. *)
Lemma roundDouble_sign z :
  match roundDouble z with
  | Fin v => (0 < v ↔ 0 < z) ∧ (v < 0 ↔ z < 0)
  | PInf => 0 < z
  | NInf => z < 0
  | NaN => False
  end.
Proof.
  unfold roundDouble. cbv zeta.
  destruct (Z.ltb_spec (Z.abs z) (2 ^ 53)) as [Hsmall|Hbig]; [lia|].
  set (m := Z.abs z) in *. set (e := Z.log2 m - 52).
  assert (0 < m) as Hm by lia.
  assert (53 ≤ Z.log2 m) as Hlog by (by apply Z.log2_le_pow2).
  assert (0 < 2 ^ e) as Hpow by (apply Z.pow_pos_nonneg; lia).
  assert (2 ^ e ≤ m) as Hle.
  { transitivity (2 ^ Z.log2 m); [apply Z.pow_le_mono_r; lia|].
    by apply Z.log2_spec. }
  assert (1 ≤ m / 2 ^ e) as Hq.
  { apply Z.div_le_lower_bound; lia. }
  set (q' := if _ : bool then m / 2 ^ e + 1 else m / 2 ^ e).
  assert (1 ≤ q') as Hq' by (unfold q'; case_match; lia).
  assert (0 < q' * 2 ^ e) as Hv by nia.
  destruct (Z.leb_spec (2 ^ 1024) (q' * 2 ^ e)).
  - destruct (Z.ltb_spec 0 z); lia.
  - destruct (Z.sgn_spec z) as [[? ->]|[[? ->]|[? ->]]]; lia.
Qed.

Lemma roundDouble_positive z : positive (roundDouble z) = (0 <? z).
Proof.
  pose proof (roundDouble_sign z) as Hs.
  destruct (roundDouble z) as [v| | |]; cbn; try done.
  - destruct (Z.ltb_spec 0 v), (Z.ltb_spec 0 z); lia.
  - symmetry. by apply Z.ltb_lt.
  - symmetry. apply Z.ltb_ge. lia.
Qed.

(** A positive exact result gives a positive number or [Infinity]. *)
Lemma roundDouble_gt_zero z : 0 < z → gt (roundDouble z) (Fin 0) = true.
Proof.
  intros Hz. pose proof (roundDouble_sign z) as Hs.
  destruct (roundDouble z) as [v| | |]; cbn; try done; [|lia].
  apply Z.ltb_lt. by apply Hs.
Qed.
End RoundingFacts.


Section StrikeStepFacts.
Import Js JsOrder Watcher.

Lemma sort_minus (l : list number) :
  (∀ x, x ∈ l → finite x = true) →
  sort minus l = sort (keyCmp id) l.
Proof.
  intros Hfin. apply sort_ext_in. intros x y Hx Hy.
  pose proof (Hfin x Hx) as Hfx. pose proof (Hfin y Hy) as Hfy.
  unfold keyCmp, id. destruct x as [x| | |], y as [y| | |]; try done.
  cbn [minus value positive]. apply roundDouble_positive.
Qed.

Lemma sort_minus_sorted (l : list number) :
  (∀ x, x ∈ l → finite x = true) →
  StronglySorted le_fin (sort minus l).
Proof.
  intros Hfin. rewrite sort_minus by done.
  pose proof (sort_finite_key_sorted id l Hfin) as Hsorted.
  rewrite (sort_finite_key id l Hfin) in Hsorted. exact Hsorted.
Qed.

Lemma firstGap_step a b rest :
  firstGap (a :: b :: rest)
  = if gt (abs (minus b a)) (Fin 0) then Some (abs (minus b a)) else firstGap (b :: rest).
Proof. done. Qed.

Lemma abs_roundDouble z : 0 < z → abs (roundDouble z) = roundDouble z.
Proof.
  intros Hz. pose proof (roundDouble_sign z) as Hs.
  destruct (roundDouble z) as [v| | |]; cbn; try done; [|lia].
  f_equal. lia.
Qed.

Lemma firstGap_ascending (l : list number) :
  StronglySorted le_fin l →
  match firstGap l with
  | None => ∀ x y, x ∈ l → y ∈ l → x = y
  | Some d =>
      ∃ a b, head l = Some (Fin a) ∧ Fin b ∈ l ∧ a < b ∧ d = roundDouble (b - a) ∧
             ∀ x, Fin x ∈ l → a < x → b ≤ x
  end.
Proof.
  induction 1 as [|a l Hsorted IH Ha]; [by intros x y Hx; apply elem_of_nil in Hx|].
  destruct l as [|b rest].
  { cbn. intros x y Hx Hy.
    apply list_elem_of_singleton in Hx, Hy. by subst. }
  rewrite firstGap_step.
  pose proof (Forall_inv Ha) as Hab. unfold le_fin in Hab.
  destruct a as [za| | |]; try done. destruct b as [zb| | |]; try done.
  cbn [minus].
  destruct (Z.eq_dec zb za) as [->|Hne].
  - rewrite Z.sub_diag. change (roundDouble 0) with (Fin 0). cbn [abs Z.abs gt Z.ltb Z.compare].
    destruct (firstGap (Fin za :: rest)) as [d|]; cbv beta iota.
    + destruct IH as (a & b & [= <-] & Hb & Hlt & -> & Hleast).
      exists za, b. split_and!; [done|by right|done|done|].
      intros x Hx Hax. apply elem_of_cons in Hx as [[= ->]|Hx]; [lia|by apply Hleast].
    + intros x y Hx Hy.
      apply elem_of_cons in Hx as [->|Hx]; apply elem_of_cons in Hy as [->|Hy].
      * done.
      * apply IH; [left|done].
      * apply IH; [done|left].
      * by apply IH.
  - assert (0 < zb - za) as Hpos by lia.
    rewrite (abs_roundDouble _ Hpos), (roundDouble_gt_zero _ Hpos).
    exists za, zb. split_and!; [done|right; left|lia|done|].
    intros x Hx Hlt. apply elem_of_cons in Hx as [[= ->]|Hx]; [lia|].
    apply elem_of_cons in Hx as [[= ->]|Hx]; [lia|].
    apply StronglySorted_inv in Hsorted as [_ Hb].
    eapply Forall_forall in Hb; [|exact Hx]. cbn in Hb. lia.
Qed.
Lemma head_sorted_least (l : list number) a :
  StronglySorted le_fin l → head l = Some (Fin a) →
  ∀ x, Fin x ∈ l → a ≤ x.
Proof.
  intros Hsorted Hhead x Hx. destruct l as [|h t]; [done|].
  cbn in Hhead. simplify_eq. apply elem_of_cons in Hx as [[= ->]|Hx]; [lia|].
  apply StronglySorted_inv in Hsorted as [_ Hh].
  eapply Forall_forall in Hh; [|exact Hx]. done.
Qed.
End StrikeStepFacts.


Lemma strikeStep_cases (Number : string → Js.number)
    (keys : list string) :
  let vals := filter (λ x, Js.finite x) (Number <$> take 20 keys) in
  Js.gt (Watcher.strikeStepFromKeys Number keys) (Js.Fin 0) = true ∧
  ((∀ x y, x ∈ vals → y ∈ vals → x = y) →
     Watcher.strikeStepFromKeys Number keys = Js.Fin 50) ∧
  (∀ a b, Js.Fin a ∈ vals → Js.Fin b ∈ vals → a < b →
     (∀ x, Js.Fin x ∈ vals → a ≤ x) →
     (∀ x, Js.Fin x ∈ vals → a < x → b ≤ x) →
     Watcher.strikeStepFromKeys Number keys = Watcher.roundDouble (b - a) ∧
     (b - a < 2 ^ 53 → Watcher.strikeStepFromKeys Number keys = Js.Fin (b - a))).
Proof.
  intros vals.
  unfold Watcher.strikeStepFromKeys. cbv zeta.
  assert (take (Nat.min (length keys) 20) keys = take 20 keys) as ->.
  { destruct (Nat.le_ge_cases (length keys) 20) as [Hle|Hge].
    - rewrite Nat.min_l by done. by rewrite !take_ge by lia.
    - by rewrite Nat.min_r by done. }
  fold vals.
  assert (∀ x, x ∈ vals → Js.finite x = true) as Hfin.
  { intros x Hx. apply list_elem_of_filter in Hx as [Hx _]. by apply Is_true_true. }
  pose proof (sort_minus_sorted vals Hfin) as Hsorted.
  pose proof (firstGap_ascending _ Hsorted) as Hgap.
  pose proof (λ a, head_sorted_least _ a Hsorted) as Hleast.
  pose proof (sort_elem_of Watcher.minus) as Hmem.
  destruct (Watcher.firstGap (Js.sort Watcher.minus vals)) as [d|]; cbn [default from_option id].
  - destruct Hgap as (a & b & Hhead & Hb & Hlt & -> & Hnext).
    specialize (Hleast a Hhead).
    assert (Js.Fin a ∈ vals) as Ha.
    { apply (proj1 (Hmem _ _)). by apply head_Some_elem_of. }
    apply (proj1 (Hmem _ _)) in Hb.
    split_and!.
    + apply roundDouble_gt_zero. lia.
    + intros Hall. specialize (Hall _ _ Ha Hb). simplify_eq. lia.
    + intros a' b' Ha' Hb' Hlt' Hmin Hnext'.
      assert (a' = a) as ->.
      { pose proof (Hmin a Ha). pose proof (Hleast a' (proj2 (Hmem _ _) Ha')). lia. }
      pose proof (Hnext' b Hb Hlt). pose proof (Hnext b' (proj2 (Hmem _ _) Hb') Hlt').
      assert (b' = b) as -> by lia.
      split; [done|]. intros Hsmall. apply roundDouble_exact. lia.
  - split_and!.
    + done.
    + done.
    + intros a b Ha Hb Hlt _ _.
      specialize (Hgap _ _ (proj2 (Hmem _ _) Ha) (proj2 (Hmem _ _) Hb)).
      simplify_eq. lia.
Qed.

(** X16.  [strikeStepFromKeys] never answers zero, a negative number or
    NaN: the step is greater than zero, so the rounding to the step
    never divides by zero.  It reads only the first twenty keys, and of
    those only the ones that read as finite numbers: when at least two
    of their values differ, the step is the distance from the least
    value to the least value above it, as the double subtraction gives
    it (the distance itself when that is below [2^53]); otherwise it is
    the default 50.  The step need not be finite: for the keys [1e308]
    and [-1e308] the subtraction overflows and the step is
    [Infinity]. *)
Theorem strikeStepFromKeys_positive (Number : string → Js.number)
    (keys : list string) :
  let vals := filter (λ x, Js.finite x) (Number <$> take 20 keys) in
  Js.gt (Watcher.strikeStepFromKeys Number keys) (Js.Fin 0) = true ∧
  ((∀ x y, x ∈ vals → y ∈ vals → x = y) →
     Watcher.strikeStepFromKeys Number keys = Js.Fin 50) ∧
  (∀ a b, Js.Fin a ∈ vals → Js.Fin b ∈ vals → a < b →
     (∀ x, Js.Fin x ∈ vals → a ≤ x) →
     (∀ x, Js.Fin x ∈ vals → a < x → b ≤ x) →
     Watcher.strikeStepFromKeys Number keys = Watcher.roundDouble (b - a) ∧
     (b - a < 2 ^ 53 → Watcher.strikeStepFromKeys Number keys = Js.Fin (b - a))) ∧
  Watcher.strikeStepFromKeys
    (λ k, if String.eqb k "1e308" then Js.Fin (10 ^ 308) else Js.Fin (- 10 ^ 308))
    ["1e308"; "-1e308"]%string
  = Js.PInf.
Proof.
  intros vals.
  destruct (strikeStep_cases Number keys) as (Hpos & Hdflt & Hstep).
  refine (conj Hpos (conj Hdflt (conj Hstep _))). by vm_compute.
Qed.

(** Keys as the feed sends them, the lowest strike listed twice: the
    step is 50, the distance from 24500 to 24550. *)
Lemma strikeStepFromKeys_positive_witness :
  let Number := λ k : string,
    if String.eqb k "24500.000000" then Js.Fin 24500
    else if String.eqb k "24550.000000" then Js.Fin 24550
    else if String.eqb k "24700.000000" then Js.Fin 24700
    else Js.NaN in
  Watcher.strikeStepFromKeys Number
    ["24700.000000"; "24500.000000"; "underlying"; "24550.000000"; "24500.000000"]%string
  = Js.Fin (24550 - 24500).
Proof.
  intros Number.
  destruct (strikeStepFromKeys_positive Number
    ["24700.000000"; "24500.000000"; "underlying"; "24550.000000"; "24500.000000"]%string)
    as (_ & _ & Hstep & _).
  apply Hstep.
  - by_decision.
  - by_decision.
  - lia.
  - intros x Hx. vm_compute in Hx.
    repeat (apply elem_of_cons in Hx as [[= ->]|Hx]; [lia|]).
    by apply elem_of_nil in Hx.
  - intros x Hx Hlt. vm_compute in Hx.
    repeat (apply elem_of_cons in Hx as [[= ->]|Hx]; [lia|]).
    by apply elem_of_nil in Hx.
  - lia.
Defined.

(* ===================================================================== *)
(** ** Polling intervals                                                 *)
(* ===================================================================== *)

Lemma baseInterval_finite Number OC_LIVE_MS b :
  Watcher.baseInterval Number OC_LIVE_MS = Js.Fin b → 3100 ≤ b.
Proof.
  unfold Watcher.baseInterval, Watcher.BASE_MIN.
  destruct (Watcher.envNumber Number OC_LIVE_MS 7000) as [z| | |]; cbn; try done.
  all: intros [= <-]; lia.
Qed.

(** X17.  The delay between two polls of the option chain.  When the
    configured interval reads as a whole number of milliseconds, the
    base interval is that number raised to the 3100 ms floor; when it
    stays 12249 below [2^53], every sum is exact, and along every run of
    ticks the effective interval is the base plus 1000 ms for each
    backoff step plus the jitter: never below the base, so never below
    3100 ms, and never more than 12249 ms above it.  Above [2^53] the
    sums are rounded: at a base of [2^60], twelve steps and a jitter of
    249 give the base plus 12288. *)
Theorem polling_interval_bounds (Number : string → Js.number)
    (OC_LIVE_MS : option string) (cfg : PollLoop.Config)
    (ws : list PollLoop.World) (st : PollLoop.Feed) (closedSleep : Js.number)
    (jitter b : Z) :
  0 ≤ PollLoop.backoffSteps st ≤ PollLoop.MAX_BACKOFF_STEPS →
  0 ≤ jitter < 250 →
  Watcher.baseInterval Number OC_LIVE_MS = Js.Fin b →
  b + 12249 < 2 ^ 53 →
  let steps := PollLoop.backoffSteps (PollLoop.run cfg ws st) in
  3100 ≤ b ∧
  Watcher.effectiveInterval (Js.Fin b) steps jitter
    = Js.Fin (b + 1000 * steps + jitter) ∧
  b ≤ b + 1000 * steps + jitter ≤ b + 12249 ∧
  Watcher.loopDelay cfg true closedSleep (Js.Fin b) steps jitter
    = Js.Fin (b + 1000 * steps + jitter) ∧
  Watcher.effectiveInterval (Js.Fin (2 ^ 60)) 12 249 = Js.Fin (2 ^ 60 + 12288).
Proof.
  intros Hst Hj Hb Hsafe steps.
  pose proof (baseInterval_finite _ _ _ Hb) as Hfloor.
  pose proof (run_backoff_bounds cfg ws st Hst) as Hsteps. fold steps in Hsteps.
  unfold PollLoop.MAX_BACKOFF_STEPS in Hsteps.
  assert (Watcher.effectiveInterval (Js.Fin b) steps jitter
          = Js.Fin (b + 1000 * steps + jitter)) as Heff.
  { unfold Watcher.effectiveInterval, Watcher.BASE_MIN, Watcher.STEP_MS.
    rewrite (roundDouble_exact (steps * 1000)) by lia.
    cbn [Watcher.add]. rewrite (roundDouble_exact (b + steps * 1000)) by lia.
    cbn [Watcher.Math_max Watcher.add].
    rewrite roundDouble_exact by lia. f_equal. lia. }
  refine (conj Hfloor (conj Heff (conj _ (conj _ _)))); [lia| |by vm_compute].
  unfold Watcher.loopDelay. by rewrite andb_false_r.
Qed.

(** The default interval after three 503 answers. *)
Lemma polling_interval_bounds_witness :
  let cfg := PollLoop.mkConfig true true in
  let start := PollLoop.mkFeed false false 0 (Some "2025-10-28") "2025-10-16" 0 in
  let bad := PollLoop.answers503 "2025-10-16" in
  Watcher.effectiveInterval (Js.Fin 7000)
    (PollLoop.backoffSteps (PollLoop.run cfg [bad; bad; bad] start)) 100
  = Js.Fin (7000 + 1000 * PollLoop.backoffSteps (PollLoop.run cfg [bad; bad; bad] start)
            + 100).
Proof.
  intros cfg start bad.
  destruct (polling_interval_bounds (λ _, Js.NaN) None cfg [bad; bad; bad] start
              (Js.Fin 60000) 100 7000)
    as (_ & Heff & _).
  - vm_compute. split; discriminate.
  - lia.
  - reflexivity.
  - lia.
  - exact Heff.
Defined.

(** X18.  The floors on the configured intervals and values that do not
    read as numbers.  The futures refresher tests its interval with
    [isFinite] first, so its interval is always a finite number of at
    least 10000 ms.  The option-chain watcher does not: a setting that
    reads as NaN passes through [Math.max], and the base interval, the
    closed-market sleep and every effective interval are then NaN
    instead of the floor. *)
Theorem interval_floors_and_NaN (Number : string → Js.number) (env : option string) :
  (∃ z, QuoteService.intervalMs Number env = Js.Fin z ∧ 10000 ≤ z) ∧
  (∀ s, env = Some s → s ≠ ""%string → Number s = Js.NaN →
     Watcher.baseInterval Number env = Js.NaN ∧
     Watcher.CLOSED_SLEEP_MS Number env = Js.NaN ∧
     ∀ steps jitter,
       Watcher.effectiveInterval (Watcher.baseInterval Number env) steps jitter
       = Js.NaN) ∧
  (∀ z, Watcher.envNumber Number env 7000 = Js.Fin z →
     Watcher.baseInterval Number env = Js.Fin (Z.max z 3100)) ∧
  (∀ z, Watcher.envNumber Number env 60000 = Js.Fin z →
     Watcher.CLOSED_SLEEP_MS Number env = Js.Fin (Z.max 10000 z)).
Proof.
  split_and!.
  - unfold QuoteService.intervalMs, QuoteService.isFinite. cbv zeta.
    destruct (Watcher.envNumber Number env 10000) as [z| | |]; cbn.
    + exists (Z.max 10000 z). split; [done|lia].
    + by exists 10000.
    + by exists 10000.
    + by exists 10000.
  - intros s -> Hs Hnan.
    assert (∀ d, Watcher.envNumber Number (Some s) d = Js.NaN) as Henv.
    { intros d. unfold Watcher.envNumber.
      by rewrite (proj2 (String.eqb_neq s "") Hs). }
    unfold Watcher.baseInterval, Watcher.CLOSED_SLEEP_MS, Watcher.effectiveInterval.
    by rewrite !Henv.
  - intros z Hz. unfold Watcher.baseInterval. by rewrite Hz.
  - intros z Hz. unfold Watcher.CLOSED_SLEEP_MS. by rewrite Hz.
Qed.

(** A setting that does not read as a number. *)
Lemma interval_floors_and_NaN_witness :
  let Number := λ s : string,
    if String.eqb s "5000" then Js.Fin 5000 else Js.NaN in
  Watcher.baseInterval Number (Some "7s"%string) = Js.NaN ∧
  Watcher.baseInterval Number (Some "5000"%string) = Js.Fin (Z.max 5000 3100) ∧
  Watcher.CLOSED_SLEEP_MS Number (Some "5000"%string) = Js.Fin (Z.max 10000 5000).
Proof.
  intros Number.
  destruct (interval_floors_and_NaN Number (Some "7s"%string)) as (_ & Hnan & _).
  destruct (interval_floors_and_NaN Number (Some "5000"%string)) as (_ & _ & Hbase & Hclosed).
  split_and!.
  - apply (Hnan "7s"%string); [reflexivity | discriminate | reflexivity].
  - apply Hbase. reflexivity.
  - apply Hclosed. reflexivity.
Defined.

(* ===================================================================== *)
(** ** Option-chain watcher tick: what a tick does to the outside        *)
(* ===================================================================== *)

Lemma outward_cons ev tr :
  Watcher.outward (ev :: tr)
  = if Watcher.isLog ev then Watcher.outward tr else ev :: Watcher.outward tr.
Proof. unfold Watcher.outward. rewrite filter_cons. by destruct (Watcher.isLog ev). Qed.

Lemma outward_nil : Watcher.outward [] = [].
Proof. done. Qed.

Ltac tick_trace :=
  cbn [app]; rewrite ?outward_cons, ?outward_nil; cbn [Watcher.isLog app].

Ltac tidy_conds :=
  repeat match goal with
  | H : _ || _ = false |- _ => apply orb_false_iff in H; destruct H
  | H : _ || _ = true |- _ => apply orb_true_iff in H; destruct H
  | H : _ && _ = false |- _ => apply andb_false_iff in H; destruct H
  | H : negb _ = true |- _ => apply negb_true_iff in H
  | H : negb _ = false |- _ => apply negb_false_iff in H
  | H : bool_decide _ = false |- _ => apply bool_decide_eq_false in H
  | H : bool_decide _ = true |- _ => apply bool_decide_eq_true in H
  | u : () |- _ => destruct u
  end.

Ltac side_conds :=
  repeat split; intros; subst; try done; try lia; try tauto;
  try (by eexists); try (intuition congruence).

Ltac pick_shape :=
  first
    [ exists false, 0%nat; cbn [take app]; split; [reflexivity|]; solve [side_conds]
    | exists false, 1%nat; cbn [take app]; split; [reflexivity|]; solve [side_conds]
    | exists false, 2%nat; cbn [take app]; split; [reflexivity|]; solve [side_conds]
    | exists false, 3%nat; cbn [take app]; split; [reflexivity|]; solve [side_conds]
    | exists true, 0%nat; cbn [take app]; split; [reflexivity|]; solve [side_conds]
    | exists true, 1%nat; cbn [take app]; split; [reflexivity|]; solve [side_conds]
    | exists true, 2%nat; cbn [take app]; split; [reflexivity|]; solve [side_conds]
    | exists true, 3%nat; cbn [take app]; split; [reflexivity|]; solve [side_conds] ].

(** Everything the later statements need about one tick, found by
    running through the tick's branches once. *)
Lemma tickOnce_summary (cfg : PollLoop.Config) (w : PollLoop.World)
    (st : PollLoop.Feed) :
  let '(st', tr, _) := PollLoop.tickOnce cfg w st in
  let ex := default ""%string (PollLoop.expiry st') in
  ∃ (r : bool) (n : nat),
    Watcher.outward tr
    = (if r then [PollLoop.ResolveExpiry] else []) ++
      take n [PollLoop.FetchOptionChain ex; PollLoop.UpsertSnapshot ex;
              PollLoop.InsertTick ex] ∧
    (n ≤ 3)%nat ∧
    (r = true ↔
       PollLoop.proceeds cfg w st ∧
       PollLoop.dayKey w ≠ PollLoop.lastExpiryResolveDayKey st) ∧
    ((1 ≤ n)%nat ↔
       PollLoop.proceeds cfg w st ∧ PollLoop.truthy (PollLoop.expiry st') = true) ∧
    ((2 ≤ n)%nat →
       (∃ price, PollLoop.fetchResult w = Returned price) ∧
       PollLoop.normalizeResult w = Returned ()) ∧
    ((3 ≤ n)%nat → PollLoop.upsertResult w = Returned ()) ∧
    (PollLoop.proceeds cfg w st →
       PollLoop.lastExpiryResolveDayKey st' = PollLoop.dayKey w) ∧
    (PollLoop.expiry st' ≠ PollLoop.expiry st →
       r = true ∧ PollLoop.resolveExpiryResult w = Returned (PollLoop.expiry st') ∧
       PollLoop.truthy (PollLoop.expiry st') = true) ∧
    (PollLoop.truthy (PollLoop.expiry st) = true →
       PollLoop.truthy (PollLoop.expiry st') = true) ∧
    PollLoop.stopped st' = PollLoop.stopped st.
Proof.
  destruct st as [s f b ex dk cl], w as [mo nw wdk re fe no up ins ve], cfg as [mh vb].
  unfold PollLoop.proceeds. unfold_tick.
  repeat (case_match; simplify_eq/=; split_conds; try congruence);
    tick_trace; tidy_conds; pick_shape.
Qed.

(** X19.  What one tick does to the outside world, log lines apart, in
    order: at most one expiry resolution, then at most one option-chain
    fetch, one snapshot upsert and one tick insert, all three for the
    expiry the watcher holds when the tick ends.  The expiry is resolved
    exactly on a tick that gets past its guards on a day other than the
    one recorded; the fetch is made exactly when the tick gets past its
    guards and holds an expiry; the upsert happens only after the fetch
    and the normalisation succeeded, the insert only after the upsert
    succeeded as well.  A tick that does not get past its guards calls
    and writes nothing. *)
Theorem tick_effects_in_order (cfg : PollLoop.Config) (w : PollLoop.World)
    (st : PollLoop.Feed) :
  let '(st', tr, _) := PollLoop.tickOnce cfg w st in
  let ex := default ""%string (PollLoop.expiry st') in
  ∃ (r : bool) (n : nat),
    Watcher.outward tr
    = (if r then [PollLoop.ResolveExpiry] else []) ++
      take n [PollLoop.FetchOptionChain ex; PollLoop.UpsertSnapshot ex;
              PollLoop.InsertTick ex] ∧
    (n ≤ 3)%nat ∧
    (r = true ↔
       PollLoop.proceeds cfg w st ∧
       PollLoop.dayKey w ≠ PollLoop.lastExpiryResolveDayKey st) ∧
    ((1 ≤ n)%nat ↔
       PollLoop.proceeds cfg w st ∧ PollLoop.truthy (PollLoop.expiry st') = true) ∧
    ((2 ≤ n)%nat →
       (∃ price, PollLoop.fetchResult w = Returned price) ∧
       PollLoop.normalizeResult w = Returned ()) ∧
    ((3 ≤ n)%nat → PollLoop.upsertResult w = Returned ()).
Proof.
  pose proof (tickOnce_summary cfg w st) as Hsum.
  destruct (PollLoop.tickOnce cfg w st) as [[st' tr] out]. cbv zeta in *.
  destruct Hsum as (r & n & Htr & Hn & Hr & H1 & H2 & H3 & _).
  exists r, n. exact (conj Htr (conj Hn (conj Hr (conj H1 (conj H2 H3))))).
Qed.

(** A tick on a new day: the expiry is resolved, then the chain fetched
    and both writes made for the new expiry. *)
Lemma tick_effects_in_order_witness :
  let cfg := PollLoop.mkConfig true true in
  let st := PollLoop.mkFeed false false 0 (Some "2025-10-28") "2025-10-28" 0 in
  let w := PollLoop.mkWorld true 0 "2025-10-29" (Returned (Some "2025-11-04"%string))
             (Returned 24500) (Returned ()) (Returned ()) (Returned ()) (Returned ()) in
  Watcher.outward (PollLoop.tickOnce cfg w st).1.2
  = [PollLoop.ResolveExpiry; PollLoop.FetchOptionChain "2025-11-04";
     PollLoop.UpsertSnapshot "2025-11-04"; PollLoop.InsertTick "2025-11-04"] ∧
  ∃ (r : bool) (n : nat),
    Watcher.outward (PollLoop.tickOnce cfg w st).1.2
    = (if r then [PollLoop.ResolveExpiry] else []) ++
      take n [PollLoop.FetchOptionChain "2025-11-04"; PollLoop.UpsertSnapshot "2025-11-04";
              PollLoop.InsertTick "2025-11-04"] ∧
    (n ≤ 3)%nat.
Proof.
  intros cfg st w. split; [reflexivity|].
  pose proof (tick_effects_in_order cfg w st) as Hshape.
  destruct Hshape as (r & n & Htr & Hn & _).
  exists r, n. split; [exact Htr | exact Hn].
Defined.

Lemma after_summary (cfg : PollLoop.Config) (w : PollLoop.World) (st : PollLoop.Feed) :
  (PollLoop.proceeds cfg w st →
     PollLoop.lastExpiryResolveDayKey (PollLoop.after cfg w st) = PollLoop.dayKey w) ∧
  (PollLoop.expiry (PollLoop.after cfg w st) ≠ PollLoop.expiry st →
     (PollLoop.proceeds cfg w st ∧
      PollLoop.dayKey w ≠ PollLoop.lastExpiryResolveDayKey st) ∧
     PollLoop.resolveExpiryResult w = Returned (PollLoop.expiry (PollLoop.after cfg w st)) ∧
     PollLoop.truthy (PollLoop.expiry (PollLoop.after cfg w st)) = true) ∧
  (PollLoop.truthy (PollLoop.expiry st) = true →
     PollLoop.truthy (PollLoop.expiry (PollLoop.after cfg w st)) = true) ∧
  PollLoop.stopped (PollLoop.after cfg w st) = PollLoop.stopped st ∧
  (PollLoop.ResolveExpiry ∈ (PollLoop.tickOnce cfg w st).1.2 →
     PollLoop.dayKey w ≠ PollLoop.lastExpiryResolveDayKey st).
Proof.
  pose proof (tickOnce_summary cfg w st) as Hsum. unfold PollLoop.after.
  destruct (PollLoop.tickOnce cfg w st) as [[st' tr] out]. cbv zeta in *.
  cbn [fst snd].
  destruct Hsum as (r & n & Htr & Hn & Hr & _ & _ & _ & Hdk & Hex & Htruthy & Hstop).
  split_and!; [done| |done|done|].
  - intros Hne. destruct (Hex Hne) as (Hrt & Hres & Ht).
    split_and!; [by apply Hr|by apply Hr|done|done].
  - intros Hin.
    assert (PollLoop.ResolveExpiry ∈ Watcher.outward tr) as Hout.
    { unfold Watcher.outward. apply list_elem_of_filter. by split. }
    rewrite Htr in Hout. destruct r; [by apply Hr|].
    cbn [app] in Hout. apply elem_of_take in Hout as (i & Hi & _).
    destruct i as [|[|[|i]]]; cbn in Hi; simplify_eq.
Qed.

(** A tick leaves the recorded day alone or sets it to its own day. *)
Lemma after_dayKey (cfg : PollLoop.Config) (w : PollLoop.World) (st : PollLoop.Feed) :
  PollLoop.lastExpiryResolveDayKey (PollLoop.after cfg w st) = PollLoop.dayKey w ∨
  PollLoop.lastExpiryResolveDayKey (PollLoop.after cfg w st)
  = PollLoop.lastExpiryResolveDayKey st.
Proof.
  destruct st as [s f b ex dk cl], w as [mo nw wdk re fe no up ins ve], cfg as [mh vb].
  unfold_tick.
  repeat (case_match; simplify_eq/=; split_conds; try congruence);
    ((by left) || (by right)).
Qed.

Lemma run_keeps_dayKey cfg (d : string) ws : ∀ st,
  PollLoop.lastExpiryResolveDayKey st = d →
  (∀ x, x ∈ ws → PollLoop.dayKey x = d) →
  PollLoop.lastExpiryResolveDayKey (PollLoop.run cfg ws st) = d.
Proof.
  induction ws as [|w ws IH]; intros st Hst Hws; [done|].
  change (PollLoop.run cfg (w :: ws) st) with (PollLoop.run cfg ws (PollLoop.after cfg w st)).
  apply IH.
  - destruct (after_dayKey cfg w st) as [->| ->]; [|done].
    apply Hws. left.
  - intros x Hx. apply Hws. by right.
Qed.

(** X20.  The expiry is re-resolved at most once per day.  A tick that
    gets past its guards records the day it ran on, also when resolving
    fails or finds nothing, and no tick of that day changes the record,
    whether it gets past its guards or not.  So whatever ticks of that
    day follow, none of them resolves again: a failed resolution is not
    retried before the day changes. *)
Theorem expiry_resolved_once_per_day (cfg : PollLoop.Config)
    (w w' : PollLoop.World) (ws : list PollLoop.World) (st : PollLoop.Feed) :
  PollLoop.proceeds cfg w st →
  (∀ x, x ∈ ws → PollLoop.dayKey x = PollLoop.dayKey w) →
  PollLoop.dayKey w' = PollLoop.dayKey w →
  let later := PollLoop.run cfg ws (PollLoop.after cfg w st) in
  PollLoop.lastExpiryResolveDayKey (PollLoop.after cfg w st) = PollLoop.dayKey w ∧
  PollLoop.lastExpiryResolveDayKey later = PollLoop.dayKey w ∧
  PollLoop.ResolveExpiry ∉ (PollLoop.tickOnce cfg w' later).1.2.
Proof.
  intros Hp Hws Hday later.
  destruct (after_summary cfg w st) as (Hdk & _).
  specialize (Hdk Hp).
  pose proof (run_keeps_dayKey cfg _ ws _ Hdk Hws) as Hlater. fold later in Hlater.
  refine (conj Hdk (conj Hlater _)). intros Hin.
  destruct (after_summary cfg w' later) as (_ & _ & _ & _ & Hres).
  apply Hres in Hin. rewrite Hlater in Hin. done.
Qed.

(** A new day on which resolving fails, three more ticks of that day
    (a failing one, one with the market closed, a good one), then
    another tick of that day. *)
Lemma expiry_resolved_once_per_day_witness :
  let cfg := PollLoop.mkConfig true true in
  let st := PollLoop.mkFeed false false 0 (Some "2025-10-28") "2025-10-16" 0 in
  let w := PollLoop.mkWorld true 0 "2025-10-17"
             (Thrown (PollLoop.mkTickError (Some 503) "Service Unavailable"))
             (Returned 24500) (Returned ()) (Returned ()) (Returned ()) (Returned ()) in
  let closed := PollLoop.mkWorld false 120000 "2025-10-17" (Returned None)
             (Returned 24500) (Returned ()) (Returned ()) (Returned ()) (Returned ()) in
  let ws := [PollLoop.answers503 "2025-10-17"; closed; PollLoop.answersOk "2025-10-17"] in
  PollLoop.lastExpiryResolveDayKey (PollLoop.after cfg w st) = "2025-10-17"%string ∧
  PollLoop.lastExpiryResolveDayKey (PollLoop.run cfg ws (PollLoop.after cfg w st))
  = "2025-10-17"%string ∧
  PollLoop.ResolveExpiry ∉
    (PollLoop.tickOnce cfg w (PollLoop.run cfg ws (PollLoop.after cfg w st))).1.2.
Proof.
  intros cfg st w closed ws.
  apply (expiry_resolved_once_per_day cfg w w ws st); [| |reflexivity].
  - repeat split. by right.
  - intros x Hx.
    repeat (apply elem_of_cons in Hx as [->|Hx]; [reflexivity|]).
    by apply elem_of_nil in Hx.
Defined.

Lemma run_keeps_expiry cfg ws : ∀ st,
  PollLoop.truthy (PollLoop.expiry st) = true →
  PollLoop.truthy (PollLoop.expiry (PollLoop.run cfg ws st)) = true.
Proof.
  induction ws as [|w ws IH]; intros st Hst; [done|].
  cbn. apply IH. by apply after_summary.
Qed.

Lemma run_keeps_stopped cfg ws : ∀ st,
  PollLoop.stopped (PollLoop.run cfg ws st) = PollLoop.stopped st.
Proof.
  induction ws as [|w ws IH]; intros st; [done|].
  etransitivity; [apply (IH (PollLoop.after cfg w st))|by apply after_summary].
Qed.

(** X21.  The expiry the watcher follows.  Once it holds an expiry it
    never loses it, whatever the ticks meet; and a tick changes it only
    by re-anchoring: the tick got past its guards on a day other than
    the one recorded, and the new value is the non-empty expiry that
    [resolveExpiry] returned.  No tick sets or clears [stopped]. *)
Theorem expiry_changes_only_by_reanchoring (cfg : PollLoop.Config)
    (w : PollLoop.World) (st : PollLoop.Feed) :
  (PollLoop.truthy (PollLoop.expiry st) = true →
     ∀ ws, PollLoop.truthy (PollLoop.expiry (PollLoop.run cfg ws st)) = true) ∧
  (PollLoop.expiry (PollLoop.after cfg w st) ≠ PollLoop.expiry st →
     PollLoop.proceeds cfg w st ∧
     PollLoop.dayKey w ≠ PollLoop.lastExpiryResolveDayKey st ∧
     PollLoop.resolveExpiryResult w = Returned (PollLoop.expiry (PollLoop.after cfg w st)) ∧
     PollLoop.truthy (PollLoop.expiry (PollLoop.after cfg w st)) = true) ∧
  (∀ ws, PollLoop.stopped (PollLoop.run cfg ws st) = PollLoop.stopped st).
Proof.
  split_and!.
  - intros Hst ws. by apply run_keeps_expiry.
  - intros Hne. destruct (after_summary cfg w st) as (_ & Hex & _).
    destruct (Hex Hne) as ((Hp & Hday) & Hres & Ht). done.
  - intros ws. apply run_keeps_stopped.
Qed.

(** A day change on which the next week's expiry is resolved, and a run
    of failing ticks that leaves the expiry in place. *)
Lemma expiry_changes_only_by_reanchoring_witness :
  let cfg := PollLoop.mkConfig true true in
  let st := PollLoop.mkFeed false false 0 (Some "2025-10-28") "2025-10-28" 0 in
  let w := PollLoop.mkWorld true 0 "2025-10-29" (Returned (Some "2025-11-04"%string))
             (Returned 24500) (Returned ()) (Returned ()) (Returned ()) (Returned ()) in
  let bad := PollLoop.answers503 "2025-10-28" in
  PollLoop.truthy (PollLoop.expiry (PollLoop.run cfg [bad; bad; w] st)) = true ∧
  PollLoop.resolveExpiryResult w = Returned (PollLoop.expiry (PollLoop.after cfg w st)).
Proof.
  intros cfg st w bad.
  destruct (expiry_changes_only_by_reanchoring cfg w st) as (Hkeep & Hchange & _).
  split.
  - apply Hkeep. reflexivity.
  - apply Hchange. vm_compute. discriminate.
Defined.

(* ===================================================================== *)
(** ** Quote service: batches                                            *)
(* ===================================================================== *)

Section ChunkFacts.
Import QuoteService.
Context {A : Type}.

Lemma ceil_step (n : nat) :
  (0 < n)%nat → ((n + 999) / 1000 = S ((n - 1000 + 999) / 1000))%nat.
Proof.
  intros Hn. destruct (Nat.le_gt_cases 1000 n) as [Hge|Hlt].
  - replace (n + 999)%nat with (n - 1000 + 999 + 1 * 1000)%nat by lia.
    rewrite Nat.div_add by lia. lia.
  - replace (n - 1000)%nat with 0%nat by lia.
    change ((0 + 999) / 1000)%nat with 0%nat.
    replace (n + 999)%nat with ((n - 1) + 1 * 1000)%nat by lia.
    rewrite Nat.div_add by lia. rewrite Nat.div_small by lia. done.
Qed.

(** With fuel for every remaining id the loop entered at [i] cuts
    exactly the ids from [i] on. *)
Lemma chunksFrom_spec (ids : list A) : ∀ fuel i,
  (length ids - i ≤ fuel)%nat →
  concat (chunksFrom fuel i ids) = drop i ids ∧
  Forall (λ c, (0 < length c ≤ 1000)%nat) (chunksFrom fuel i ids) ∧
  length (chunksFrom fuel i ids) = ((length ids - i + 999) / 1000)%nat.
Proof.
  induction fuel as [|fuel IH]; intros i Hfuel.
  - cbn. replace (length ids - i)%nat with 0%nat by lia.
    split_and!; [by rewrite drop_ge by lia|done|done].
  - cbn [chunksFrom]. destruct (Nat.ltb_spec i (length ids)) as [Hlt|Hge].
    + destruct (IH (i + chunkSize)%nat) as (Hcat & Hsizes & Hcount).
      { unfold chunkSize. lia. }
      split_and!.
      * cbn [concat]. rewrite Hcat, <- drop_drop. apply take_drop.
      * constructor; [|done]. rewrite length_take, length_drop.
        unfold chunkSize. lia.
      * cbn [length]. rewrite Hcount. unfold chunkSize.
        rewrite (ceil_step (length ids - i)) by lia. do 3 f_equal. lia.
    + replace (length ids - i)%nat with 0%nat by lia.
      split_and!; [by rewrite drop_ge by lia|done|done].
Qed.

(** More fuel than ids left changes nothing. *)
Lemma chunksFrom_fuel (ids : list A) : ∀ f1 f2 i,
  (length ids - i ≤ f1)%nat → (length ids - i ≤ f2)%nat →
  chunksFrom f1 i ids = chunksFrom f2 i ids.
Proof.
  induction f1 as [|f1 IH]; intros f2 i H1 H2.
  - destruct f2; [done|]. cbn [chunksFrom].
    by destruct (Nat.ltb_spec i (length ids)); [lia|].
  - destruct f2 as [|f2]; cbn [chunksFrom];
      (destruct (Nat.ltb_spec i (length ids)); [|done]); [lia|].
    f_equal. apply IH; unfold chunkSize; lia.
Qed.
End ChunkFacts.

(** X22.  The batches of the futures refresh.  The ids are cut into
    consecutive chunks whose concatenation is the list of ids itself, so
    every id is asked for exactly once and in order; no chunk is empty
    and none holds more than 1000 ids; and [n] ids make
    [ceil(n / 1000)] chunks. *)
Theorem chunks_cover_ids {A : Type} (ids : list A) :
  concat (QuoteService.chunks ids) = ids ∧
  Forall (λ c, (0 < length c ≤ 1000)%nat) (QuoteService.chunks ids) ∧
  length (QuoteService.chunks ids) = ((length ids + 999) / 1000)%nat ∧
  ∀ fuel, (length ids ≤ fuel)%nat →
          QuoteService.chunksFrom fuel 0 ids = QuoteService.chunks ids.
Proof.
  unfold QuoteService.chunks.
  destruct (chunksFrom_spec ids (length ids) 0%nat ltac:(lia)) as (Hcat & Hsizes & Hcount).
  rewrite Nat.sub_0_r in Hcount. split_and!; [done..|].
  intros fuel Hle. apply chunksFrom_fuel; lia.
Qed.

(** 2500 ids make three chunks. *)
Lemma chunks_cover_ids_witness :
  let ids := seq 0 (Z.to_nat 2500) in
  concat (QuoteService.chunks ids) = ids ∧
  length (QuoteService.chunks ids) = ((length ids + 999) / 1000)%nat.
Proof.
  intros ids.
  destruct (chunks_cover_ids ids) as (Hcat & _ & Hcount & _).
  split; [exact Hcat | exact Hcount].
Defined.

Section FetchAnyFacts.
Import QuoteService.
Context {D : Type}.
Variable fn : Segment → nat → outcome Retry.HttpError (option (list (string * D))).

Lemma quote_upstreamCalls_cons ev tr :
  upstreamCalls (ev :: tr) = if isCall ev then ev :: upstreamCalls tr else upstreamCalls tr.
Proof. unfold upstreamCalls. rewrite filter_cons. by destruct (isCall ev). Qed.

Lemma quote_upstreamCalls_app tr1 tr2 :
  upstreamCalls (tr1 ++ tr2) = upstreamCalls tr1 ++ upstreamCalls tr2.
Proof. apply filter_app. Qed.

Lemma quote_upstreamCalls_through seg (tr : list Retry.Event) :
  length (upstreamCalls (through seg <$> tr)) = length (Retry.calls tr).
Proof.
  induction tr as [|[k|ms] tr IH]; [done| |];
    rewrite fmap_cons, quote_upstreamCalls_cons; cbn; by rewrite IH.
Qed.

Lemma quote_upstreamCalls_nil : upstreamCalls [] = [].
Proof. done. Qed.

(** One round: at most three calls, and data only from an answer. *)
Lemma trySegment_spec seg :
  (length (upstreamCalls (trySegment fn seg).1) ≤ 3)%nat ∧
  ∀ data, (trySegment fn seg).2 = Some data →
    data ≠ [] ∧ ∃ k, (k < 3)%nat ∧ fn seg k = Returned (Some data).
Proof.
  unfold trySegment.
  pose proof (quoteLoop_calls_bound (fn seg) 3 0%nat None) as Hcalls.
  pose proof (quoteLoop_returned (fn seg) 3 0%nat None) as Hret.
  fold (Retry.quoteRetry (fn seg) 3) in Hcalls, Hret.
  destruct (Retry.quoteRetry (fn seg) 3) as [tr [response|e]]; cbn [fst snd] in *.
  - cbv zeta. destruct (Nat.ltb_spec 0 (length (default [] response))) as [Hpos|Hzero];
      cbn [fst snd].
    + split.
      * rewrite quote_upstreamCalls_app, length_app, quote_upstreamCalls_through.
        rewrite !quote_upstreamCalls_cons, quote_upstreamCalls_nil. cbn [isCall length]. lia.
      * intros data [= <-].
        split; [intros Heq; rewrite Heq in Hpos; cbn in Hpos; lia|].
        destruct (Hret response eq_refl) as (k & Hk & Hfk). exists k. split; [lia|].
        rewrite Hfk. destruct response as [d|]; [done|]. cbn in Hpos. lia.
    + split; [|done].
      rewrite quote_upstreamCalls_app, length_app, quote_upstreamCalls_through.
      rewrite !quote_upstreamCalls_cons, quote_upstreamCalls_nil. cbn [isCall length]. lia.
  - split; [|done].
    rewrite quote_upstreamCalls_app, length_app, quote_upstreamCalls_through.
    rewrite !quote_upstreamCalls_cons, quote_upstreamCalls_nil. cbn [isCall length]. lia.
Qed.
End FetchAnyFacts.

(** X23.  One batch of the market feed ([fetchOhlcAny], [fetchQuoteAny]).
    An empty list of ids makes no request.  Otherwise the two segments
    are tried in order, each with up to three attempts, so a batch costs
    at most six POSTs; errors are logged, not thrown.  What is returned
    is either empty or the non-empty answer of one of those POSTs, and
    the answers of the second segment are used only when the first
    segment gave nothing. *)
Theorem fetchAny_bounded {D : Type}
    (fn : QuoteService.Segment → nat →
          outcome Retry.HttpError (option (list (string * D))))
    (ids : list Z) :
  let '(tr, data) := QuoteService.fetchAny fn ids in
  (length (QuoteService.upstreamCalls tr) ≤ 6)%nat ∧
  (ids = [] → tr = [] ∧ data = []) ∧
  (data ≠ [] →
     ∃ seg k, (k < 3)%nat ∧ fn seg k = Returned (Some data) ∧
       (seg = QuoteService.NSE_FUT →
          (QuoteService.trySegment fn QuoteService.NSE_FNO).2 = None)).
Proof.
  unfold QuoteService.fetchAny.
  destruct ids as [|id ids].
  { cbv beta iota. rewrite quote_upstreamCalls_nil. cbn [length].
    split_and!; [lia|done|done]. }
  destruct (trySegment_spec fn QuoteService.NSE_FNO) as [Hc1 Hd1].
  destruct (trySegment_spec fn QuoteService.NSE_FUT) as [Hc2 Hd2].
  destruct (QuoteService.trySegment fn QuoteService.NSE_FNO) as [tr1 [d1|]];
    cbn [fst snd] in *.
  - split_and!; [lia|done|]. intros _.
    destruct (Hd1 d1 eq_refl) as (_ & k & Hk & Hfk).
    exists QuoteService.NSE_FNO, k. by split_and!.
  - destruct (QuoteService.trySegment fn QuoteService.NSE_FUT) as [tr2 [d2|]];
      cbn [fst snd] in *.
    + split_and!; [rewrite quote_upstreamCalls_app, length_app; lia|done|]. intros _.
      destruct (Hd2 d2 eq_refl) as (_ & k & Hk & Hfk).
      exists QuoteService.NSE_FUT, k. by split_and!.
    + split_and!; [rewrite quote_upstreamCalls_app, length_app; lia|done|done].
Qed.

(** The first segment answers an empty object, the second two entries. *)
Lemma fetchAny_bounded_witness :
  let fn := λ (seg : QuoteService.Segment) (_ : nat),
    match seg with
    | QuoteService.NSE_FNO => Returned (Some [])
    | QuoteService.NSE_FUT =>
        Returned (Some [("52175"%string, 1072%Z); ("52176"%string, 1540%Z)])
    end in
  let ids := [52175; 52176] in
  (QuoteService.fetchAny fn ids).2
  = [("52175"%string, 1072%Z); ("52176"%string, 1540%Z)] ∧
  (length (QuoteService.upstreamCalls (QuoteService.fetchAny fn ids).1) ≤ 6)%nat.
Proof.
  intros fn ids. split; [reflexivity|].
  pose proof (fetchAny_bounded fn ids) as Hb.
  destruct (QuoteService.fetchAny fn ids) as [tr data].
  exact (proj1 Hb).
Defined.
